(** * laraset: a model of the setup script and of its text-file edits

    The program under study is a single TypeScript function [main] followed
    by a top-level rejection handler.  It shells out to external tools and
    edits a few files.  This development embeds

    - the string functions [main] relies on (JavaScript strings are
      sequences of UTF-16 code units, written here as lists of [N]);
    - the environment-file rewrite (six first-match regular-expression
      replacements);
    - the version detection from the manifest;
    - the whole control flow of [main] and of the handler, over an explicit
      filesystem, an oracle for the external commands, and a trace of the
      observable operations.

    Line numbers are those of the version of the script that configures
    SQLite (240 lines).  The older entry point [src/index.ts], which is
    the same script without that step, is embedded in [Legacy]. *)

From Stdlib Require Import ZArith NArith List Bool Ascii String Lia.
From stdpp Require Import base tactics option list gmap.
Import ListNotations.

Local Open Scope N_scope.
Local Open Scope list_scope.

(** ** JavaScript strings *)

(** A string is the list of its code units.  Every function below only
    compares code units, so the 16-bit bound plays no role and is not
    imposed. *)
Abbreviation jsstring := (list N) (only parsing).

(** String literals of the source, which are all ASCII. *)
Definition lit (s : string) : jsstring :=
  map N_of_ascii (list_ascii_of_string s).

Module Chars.
Definition LF : N := 10.
Definition CR : N := 13.
Definition LS : N := 8232.  (* U+2028 *)
Definition PS : N := 8233.  (* U+2029 *)
Definition DOT : N := 46.
Definition SLASH : N := 47.
Definition ZERO : N := 48.
Definition NINE : N := 57.
Definition QUOTE : N := 34.
End Chars.

(** ECMAScript LineTerminator: what [.] refuses and what [^] and [$] look
    at under the [m] flag. *)
Definition is_line_terminator (c : N) : bool :=
  (c =? Chars.LF) || (c =? Chars.CR) || (c =? Chars.LS) || (c =? Chars.PS).

(** [\d] (without the [u]/[v] flags: ASCII digits only). *)
Definition is_digit (c : N) : bool :=
  (Chars.ZERO <=? c) && (c <=? Chars.NINE).

(** Matching a literal at the head of the input: the text after it. *)
Fixpoint match_literal (key s : jsstring) : option jsstring :=
  match key with
  | [] => Some s
  | k :: key' =>
      match s with
      | [] => None
      | c :: s' => if k =? c then match_literal key' s' else None
      end
  end.

Definition starts_with (key s : jsstring) : bool :=
  match match_literal key s with Some _ => true | None => false end.

(** Greedy [.*] followed by [$] under the [m] flag: [.] takes every code
    unit that is not a line terminator, and the position where it stops (a
    line terminator or the end of the input) is one where [$] holds, so no
    backtracking ever happens.  The function returns the text left over. *)
Fixpoint skip_dot_star (s : jsstring) : jsstring :=
  match s with
  | [] => []
  | c :: s' => if is_line_terminator c then s else skip_dot_star s'
  end.

(** [s.replace(/^KEY.*$/m, replacement)], for a replacement text without
    [$]: the leftmost position that is the start of the input or follows a
    line terminator and where [KEY] matches is rewritten; without such a
    position the input is returned as it is.  [bol] tells whether [^]
    holds at the current position. *)
Fixpoint replace_from (bol : bool) (key replacement s : jsstring) : jsstring :=
  match (if bol then match_literal key s else None) with
  | Some rest => replacement ++ skip_dot_star rest
  | None =>
      match s with
      | [] => []
      | c :: s' => c :: replace_from (is_line_terminator c) key replacement s'
      end
  end.

Definition replace_line (key replacement s : jsstring) : jsstring :=
  replace_from true key replacement s.

(** ** The environment-file rewrite (main, lines 168-181) *)

Module Env.
Definition DB_CONNECTION := lit "DB_CONNECTION=".
Definition DB_DATABASE := lit "DB_DATABASE=".
Definition DB_HOST := lit "DB_HOST=".
Definition DB_PORT := lit "DB_PORT=".
Definition DB_USERNAME := lit "DB_USERNAME=".
Definition DB_PASSWORD := lit "DB_PASSWORD=".

(** The six replacements, in the order of the source. *)
Definition rules : list (jsstring * jsstring) :=
  [ (DB_CONNECTION, lit "DB_CONNECTION=sqlite");
    (DB_DATABASE, lit "DB_DATABASE=/database/database.sqlite");
    (DB_HOST, lit "# DB_HOST=");
    (DB_PORT, lit "# DB_PORT=");
    (DB_USERNAME, lit "DB_USERNAME=");
    (DB_PASSWORD, lit "DB_PASSWORD=") ].
End Env.

Definition apply_rule (content : jsstring) (r : jsstring * jsstring) : jsstring :=
  replace_line (fst r) (snd r) content.

Definition rewrite_env (envContent : jsstring) : jsstring :=
  let envContent := replace_line Env.DB_CONNECTION (lit "DB_CONNECTION=sqlite") envContent in
  let envContent :=
    replace_line Env.DB_DATABASE (lit "DB_DATABASE=/database/database.sqlite") envContent in
  let envContent := replace_line Env.DB_HOST (lit "# DB_HOST=") envContent in
  let envContent := replace_line Env.DB_PORT (lit "# DB_PORT=") envContent in
  let envContent := replace_line Env.DB_USERNAME (lit "DB_USERNAME=") envContent in
  let envContent := replace_line Env.DB_PASSWORD (lit "DB_PASSWORD=") envContent in
  envContent.
(** ** Version detection (main, lines 86-92) *)

(** The part of the manifest [main] consults, as the interface
    [ComposerData] declares it. *)
Record ComposerRequire := { php : option jsstring }.
Record ComposerData := { require : option ComposerRequire }.

(** [composerData.require?.php] *)
Definition requiredPHP (composerData : ComposerData) : option jsstring :=
  match require composerData with
  | Some r => php r
  | None => None
  end.

(** Truthiness of a string: the empty string is falsy. *)
Definition truthy (s : jsstring) : bool :=
  match s with [] => false | _ :: _ => true end.

(** [s.replace(/[^\d.]/g, "")] *)
Definition keep_digits_and_dots (s : jsstring) : jsstring :=
  List.filter (fun c => is_digit c || (c =? Chars.DOT)) s.

(** [s.split(sep)] for a separator of one code unit. *)
Fixpoint split_on (sep : N) (s : jsstring) : list jsstring :=
  match s with
  | [] => [[]]
  | c :: s' =>
      if c =? sep then [] :: split_on sep s'
      else match split_on sep s' with
           | [] => [[c]]
           | p :: ps => (c :: p) :: ps
           end
  end.

(** [parts.join(sep)] *)
Fixpoint join (sep : jsstring) (parts : list jsstring) : jsstring :=
  match parts with
  | [] => []
  | [p] => p
  | p :: ps => p ++ sep ++ join sep ps
  end.

Definition phpVersion (requiredPHP : option jsstring) : jsstring :=
  match requiredPHP with
  | Some c => if truthy c then keep_digits_and_dots c else lit "8.2"
  | None => lit "8.2"
  end.

Definition majorVersion (phpVersion : jsstring) : jsstring :=
  join (lit ".") (take 2 (split_on Chars.DOT phpVersion)).

Definition dockerImage (majorVersion : jsstring) : jsstring :=
  lit "php:" ++ majorVersion ++ lit "-cli".

(** The image tag and the image name as functions of the manifest. *)
Definition image_tag (composerData : ComposerData) : jsstring :=
  majorVersion (phpVersion (requiredPHP composerData)).

Definition image_name (composerData : ComposerData) : jsstring :=
  dockerImage (image_tag composerData).

Definition manifest_with (constraint : jsstring) : ComposerData :=
  {| require := Some {| php := Some constraint |} |}.
(** ** [path.basename] (POSIX), as the Node.js runtime implements it *)

Record basename_state := {
  bs_start : Z;
  bs_end : Z;
  bs_matchedSlash : bool;
  bs_extIdx : Z;
  bs_firstNonSlashEnd : Z
}.

(** [suffix.charCodeAt(i)] compared with [code]. *)
Definition char_code_is (s : jsstring) (i : Z) (code : N) : bool :=
  match (if (i <? 0)%Z then None else s !! Z.to_nat i) with
  | Some c => c =? code
  | None => false
  end.

(** The loop [for (i = path.length - 1; i >= 0; --i)] of the branch with a
    suffix.  [codes] holds the code units at the indices [i], [i-1], ...,
    [0]; leaving the recursion is the [break]. *)
Fixpoint basename_suffix_loop (suffix : jsstring) (codes : list N) (i : Z)
    (st : basename_state) : basename_state :=
  match codes with
  | [] => st
  | code :: codes' =>
      if code =? Chars.SLASH then
        if negb (bs_matchedSlash st) then
          {| bs_start := (i + 1)%Z; bs_end := bs_end st;
             bs_matchedSlash := bs_matchedSlash st; bs_extIdx := bs_extIdx st;
             bs_firstNonSlashEnd := bs_firstNonSlashEnd st |}
        else basename_suffix_loop suffix codes' (i - 1)%Z st
      else
        let st1 :=
          if (bs_firstNonSlashEnd st =? -1)%Z then
            {| bs_start := bs_start st; bs_end := bs_end st;
               bs_matchedSlash := false; bs_extIdx := bs_extIdx st;
               bs_firstNonSlashEnd := (i + 1)%Z |}
          else st in
        let st2 :=
          if (0 <=? bs_extIdx st1)%Z then
            if char_code_is suffix (bs_extIdx st1) code then
              let extIdx := (bs_extIdx st1 - 1)%Z in
              {| bs_start := bs_start st1;
                 bs_end := if (extIdx =? -1)%Z then i else bs_end st1;
                 bs_matchedSlash := bs_matchedSlash st1; bs_extIdx := extIdx;
                 bs_firstNonSlashEnd := bs_firstNonSlashEnd st1 |}
            else
              {| bs_start := bs_start st1; bs_end := bs_firstNonSlashEnd st1;
                 bs_matchedSlash := bs_matchedSlash st1; bs_extIdx := (-1)%Z;
                 bs_firstNonSlashEnd := bs_firstNonSlashEnd st1 |}
          else st1 in
        basename_suffix_loop suffix codes' (i - 1)%Z st2
  end.

(** The loop of the branch without a usable suffix; the state is
    [(start, end, matchedSlash)]. *)
Fixpoint basename_plain_loop (codes : list N) (i : Z) (st : Z * Z * bool)
  : Z * Z * bool :=
  match codes with
  | [] => st
  | code :: codes' =>
      let '(start, end_, matchedSlash) := st in
      if code =? Chars.SLASH then
        if negb matchedSlash then ((i + 1)%Z, end_, matchedSlash)
        else basename_plain_loop codes' (i - 1)%Z st
      else if (end_ =? -1)%Z then
        basename_plain_loop codes' (i - 1)%Z (start, (i + 1)%Z, false)
      else basename_plain_loop codes' (i - 1)%Z st
  end.

(** [s.slice(start, end)] *)
Definition slice (s : jsstring) (start end_ : Z) : jsstring :=
  let len := Z.of_nat (length s) in
  let from := if (start <? 0)%Z then Z.max (len + start) 0 else Z.min start len in
  let to := if (end_ <? 0)%Z then Z.max (len + end_) 0 else Z.min end_ len in
  take (Z.to_nat (to - from)) (drop (Z.to_nat from) s).

Definition basename (path : jsstring) (suffix : option jsstring) : jsstring :=
  let len := Z.of_nat (length path) in
  match suffix with
  | Some suffix =>
      if (0 <? length suffix)%nat && (length suffix <=? length path)%nat then
        if bool_decide (suffix = path) then []
        else
          let st :=
            basename_suffix_loop suffix (rev path) (len - 1)%Z
              {| bs_start := 0%Z; bs_end := (-1)%Z; bs_matchedSlash := true;
                 bs_extIdx := (Z.of_nat (length suffix) - 1)%Z;
                 bs_firstNonSlashEnd := (-1)%Z |} in
          let end_ :=
            if (bs_start st =? bs_end st)%Z then bs_firstNonSlashEnd st
            else if (bs_end st =? -1)%Z then len
            else bs_end st in
          slice path (bs_start st) end_
      else
        let '(start, end_, _) := basename_plain_loop (rev path) (len - 1)%Z (0%Z, (-1)%Z, true) in
        if (end_ =? -1)%Z then [] else slice path start end_
  | None =>
      let '(start, end_, _) := basename_plain_loop (rev path) (len - 1)%Z (0%Z, (-1)%Z, true) in
      if (end_ =? -1)%Z then [] else slice path start end_
  end.

(** [path.basename(opts.url, ".git")] *)
Definition repoName (url : jsstring) : jsstring :=
  basename url (Some (lit ".git")).
(** ** Paths and the filesystem *)

(** An absolute, normalised path: the names below the root. *)
Abbreviation path := (list (list N)) (only parsing).

(** The path as it is spliced into a command line. *)
Definition render (p : path) : jsstring :=
  match p with
  | [] => lit "/"
  | _ => flat_map (fun name => Chars.SLASH :: name) p
  end.

(** [path.resolve(name)] for a name without separator, which is what
    [path.basename] returns for a URL that does not end in a separator;
    [cwd] is the directory of the process.  A name that holds a separator
    is kept as one component, where [path.resolve] would normalise it:
    the list then names the directory without being its path. *)
Definition resolve (cwd : path) (name : jsstring) : path :=
  if bool_decide (name = []) || bool_decide (name = lit ".") then cwd
  else if bool_decide (name = lit "..") then removelast cwd
  else cwd ++ [name].

(** [path.join(dir, name)] for a plain name. *)
Definition path_join (dir : path) (name : string) : path := dir ++ [lit name].

Definition parent (p : path) : path := removelast p.

Inductive node :=
  | File (content : jsstring)
  | Dir.

Inductive errno := ENOENT | EISDIR | EEXIST | ENOTDIR.

Definition node_at (fs : gmap (list (list N)) node) (p : path) : option node :=
  match p with
  | [] => Some Dir
  | _ => fs !! p
  end.

Definition exists_at (fs : gmap (list (list N)) node) (p : path) : bool :=
  match node_at fs p with Some _ => true | None => false end.

(** The error, if any, of creating an entry at [p]. *)
Definition parent_error (fs : gmap (list (list N)) node) (p : path) : option errno :=
  match node_at fs (parent p) with
  | Some Dir => None
  | Some (File _) => Some ENOTDIR
  | None => Some ENOENT
  end.

Definition entries (fs : gmap (list (list N)) node) (dir : path) : list jsstring :=
  omap (fun '(p, _) => if bool_decide (parent p = dir) then last p else None)
       (map_to_list fs).

(** ** Errors, console output and the trace *)

Inductive exn :=
  | CommandError (message : jsstring)
  | FsError (e : errno) (p : path)
  | SyntaxError
  | ArtisanMissing.

Inductive message :=
  | Usage
  | DockerNotFound
  | ComposerJsonNotFound
  | CommandFailedOutput (stderr : jsstring)
  | ArtisanNotFound
  | ExpectedAt (p : path)
  | FilesInRepo (files : list jsstring)
  | DebugFailed
  | MigrationFailed
  | MigrationHint
  | MigrationManual (name : jsstring)
  | KeyGenerationFailed
  | SetupError (err : exn).

(** What the process does that can be observed from outside, in the order
    it does it.  The progress lines written with [console.log] are left
    out; [console.error] and [console.warn] are kept. *)
Inductive event :=
  | Exec (command : jsstring) (cwd : option path) (ok : bool)
  | Spawn (command : jsstring) (cwd : option path)
  | FsExists (p : path) (found : bool)
  | FsRead (p : path) (err : option errno)
  | FsWrite (p : path) (content : jsstring) (err : option errno)
  | FsMkdir (p : path) (err : option errno)
  | FsUnlink (p : path) (err : option errno)
  | FsReaddir (p : path) (err : option errno)
  | ConsoleError (m : message)
  | ConsoleWarn (m : message).

(** What [child_process.exec] hands to its callback. *)
Record exec_outcome := {
  error : option jsstring;
  stdout : jsstring;
  stderr : jsstring
}.

(** The surroundings of the process: the state outside the filesystem
    (network, other processes), what an external command does to the
    filesystem and to that state, what starting a command without waiting
    for it does, the JSON reader, and the directory the process runs in.
    The reader gives the manifest as the interface [ComposerData] sees it;
    it gives [None] when [JSON.parse] throws, and also for a text whose
    value is not of that shape and makes line 89 or line 90 throw (a
    manifest that is [null], a constraint that is a number). *)
Record System := {
  Ext : Type;
  exec : jsstring → option (list (list N)) → gmap (list (list N)) node → Ext →
         exec_outcome * gmap (list (list N)) node * Ext;
  spawn : jsstring → option (list (list N)) → Ext → Ext;
  JSON_parse : jsstring → option ComposerData;
  cwd : list (list N)
}.

(** [String.prototype.trim] *)
Definition is_white_space (c : N) : bool :=
  is_line_terminator c
  || bool_decide (c ∈ [9; 11; 12; 32; 160; 5760; 8239; 8287; 12288; 65279])
  || ((8192 <=? c) && (c <=? 8202)).

Fixpoint trim_start (s : jsstring) : jsstring :=
  match s with
  | [] => []
  | c :: s' => if is_white_space c then trim_start s' else s
  end.

Definition trim (s : jsstring) : jsstring :=
  rev (trim_start (rev (trim_start s))).

Inductive result (A : Type) :=
  | Ret (a : A)
  | Throw (e : exn)
  | Exit (code : Z).
Arguments Ret {A} a.
Arguments Throw {A} e.
Arguments Exit {A} code.

Section Laraset.
Variable sys : System.

Record world := {
  fs : gmap (list (list N)) node;
  ext : Ext sys;
  trace : list event
}.

(** A computation: runs in a world, and returns, throws, or ends the
    process ([process.exit]). *)
Definition M (A : Type) : Type := world → result A * world.

Definition ret {A} (a : A) : M A := fun w => (Ret a, w).
Definition throw {A} (e : exn) : M A := fun w => (Throw e, w).
Definition process_exit {A} (code : Z) : M A := fun w => (Exit code, w).

Definition bind {A B} (m : M A) (k : A → M B) : M B := fun w =>
  match m w with
  | (Ret a, w') => k a w'
  | (Throw e, w') => (Throw e, w')
  | (Exit code, w') => (Exit code, w')
  end.

(** [try { m } catch (e) { h e }]: [process.exit] is not caught. *)
Definition try_catch {A} (m : M A) (h : exn → M A) : M A := fun w =>
  match m w with
  | (Throw e, w') => h e w'
  | r => r
  end.

Definition emit (e : event) : M unit := fun w =>
  (Ret tt, {| fs := fs w; ext := ext w; trace := trace w ++ [e] |}).

Definition when (b : bool) (m : M unit) : M unit := if b then m else ret tt.
End Laraset.

Arguments fs {sys} w.
Arguments ext {sys} w.
Arguments trace {sys} w.
Arguments ret {sys A} a.
Arguments throw {sys A} e.
Arguments process_exit {sys A} code.
Arguments bind {sys A B} m k.
Arguments try_catch {sys A} m h.
Arguments emit {sys} e.
Arguments when {sys} b m.

Declare Scope M_scope.
Delimit Scope M_scope with M.
Notation "'let*' x := m 'in' k" := (bind m (fun x => k))
  (at level 10, x name, m at level 100, k at level 200) : M_scope.
Notation "m '>>' k" := (bind m (fun _ => k))
  (at level 80, right associativity) : M_scope.

(** ** The primitives [main] uses *)

Section Primitives.
Variable sys : System.
Local Open Scope M_scope.

Definition set_fs (fs' : gmap (list (list N)) node) (e : event) : M sys unit :=
  fun w => (Ret tt, {| fs := fs'; ext := ext w; trace := trace w ++ [e] |}).

Definition console_error (m : message) : M sys unit := emit (ConsoleError m).
Definition console_warn (m : message) : M sys unit := emit (ConsoleWarn m).

(** [runCommand(command, cwd)], awaited (lines 20-36). *)
Definition runCommand (command : jsstring) (dir : option path) : M sys jsstring :=
  fun w =>
    let '(out, fs', ext') := exec sys command dir (fs w) (ext w) in
    match error out with
    | Some msg =>
        (Throw (CommandError (msg ++ Chars.LF :: lit "STDERR: " ++ stderr out)),
         {| fs := fs'; ext := ext';
            trace := trace w ++ [Exec command dir false;
                                 ConsoleError (CommandFailedOutput (stderr out))] |})
    | None =>
        (Ret (trim (stdout out)),
         {| fs := fs'; ext := ext'; trace := trace w ++ [Exec command dir true] |})
    end.

(** [runCommand(command, cwd)] without [await] (line 184): the command
    is started and [main] goes on; whether it succeeds is never looked
    at by [main].  What the command does later reaches the filesystem
    through the commands that are waited for, by way of the outer state.
    A failure of this command would reject a promise nobody handles; the
    model follows [main] and its handler only and covers the runs in
    which that does not happen. *)
Definition runCommand_detached (command : jsstring) (dir : option path) : M sys unit :=
  fun w =>
    (Ret tt, {| fs := fs w; ext := spawn sys command dir (ext w);
                trace := trace w ++ [Spawn command dir] |}).

(** [checkCommandExist(command)] (lines 39-46). *)
Definition checkCommandExist (command : jsstring) : M sys bool :=
  try_catch
    (let* _ := runCommand (lit "which " ++ command) None in ret true)
    (fun _ => ret false).

Definition existsSync (p : path) : M sys bool := fun w =>
  let found := exists_at (fs w) p in
  (Ret found, {| fs := fs w; ext := ext w; trace := trace w ++ [FsExists p found] |}).

Definition fail_fs {A} (mk : option errno → event) (e : errno) (p : path) : M sys A :=
  let* _ := emit (mk (Some e)) in throw (FsError e p).

Definition readFileSync (p : path) : M sys jsstring := fun w =>
  match node_at (fs w) p with
  | Some (File content) => (let* _ := emit (FsRead p None) in ret content) w
  | Some Dir => fail_fs (FsRead p) EISDIR p w
  | None => fail_fs (FsRead p) ENOENT p w
  end.

Definition writeFileSync (p : path) (content : jsstring) : M sys unit := fun w =>
  match node_at (fs w) p with
  | Some Dir => fail_fs (FsWrite p content) EISDIR p w
  | _ =>
      match parent_error (fs w) p with
      | Some e => fail_fs (FsWrite p content) e p w
      | None => set_fs (<[p := File content]> (fs w)) (FsWrite p content None) w
      end
  end.

Definition mkdirSync (p : path) : M sys unit := fun w =>
  match node_at (fs w) p with
  | Some _ => fail_fs (FsMkdir p) EEXIST p w
  | None =>
      match parent_error (fs w) p with
      | Some e => fail_fs (FsMkdir p) e p w
      | None => set_fs (<[p := Dir]> (fs w)) (FsMkdir p None) w
      end
  end.

Definition unlinkSync (p : path) : M sys unit := fun w =>
  match node_at (fs w) p with
  | Some (File _) => set_fs (delete p (fs w)) (FsUnlink p None) w
  | Some Dir => fail_fs (FsUnlink p) EISDIR p w
  | None => fail_fs (FsUnlink p) ENOENT p w
  end.

Definition readdirSync (p : path) : M sys (list jsstring) := fun w =>
  match node_at (fs w) p with
  | Some Dir => (let* _ := emit (FsReaddir p None) in ret (entries (fs w) p)) w
  | Some (File _) => fail_fs (FsReaddir p) ENOTDIR p w
  | None => fail_fs (FsReaddir p) ENOENT p w
  end.

(** [JSON.parse(text)] *)
Definition parse_json (text : jsstring) : M sys ComposerData :=
  match JSON_parse sys text with
  | Some data => ret data
  | None => throw SyntaxError
  end.
End Primitives.

Arguments console_error {sys} m.
Arguments console_warn {sys} m.
Arguments runCommand {sys} command dir.
Arguments runCommand_detached {sys} command dir.
Arguments checkCommandExist {sys} command.
Arguments existsSync {sys} p.
Arguments readFileSync {sys} p.
Arguments writeFileSync {sys} p content.
Arguments mkdirSync {sys} p.
Arguments unlinkSync {sys} p.
Arguments readdirSync {sys} p.
Arguments parse_json {sys} text.

(** The command lines of the source. *)
Module Cmd.
Definition which (command : jsstring) : jsstring := lit "which " ++ command.
Definition git_clone (url : jsstring) : jsstring := lit "git clone " ++ url.
Definition curl (target : path) : jsstring :=
  lit "curl -L -sS https://getcomposer.org/download/latest-stable/composer.phar -o "
  ++ render target.
Definition composer_install : jsstring :=
  lit "php composer.phar install --no-interaction".
Definition cp_env : jsstring := lit "cp .env.example .env".
Definition docker_run (repoDir : path) (dockerImage : jsstring) : jsstring :=
  lit "docker run --rm -v " ++ [Chars.QUOTE] ++ render repoDir ++ lit ":/app"
  ++ [Chars.QUOTE] ++ lit " -w /app " ++ dockerImage.
Definition docker_ls (dockerRunCommand : jsstring) : jsstring :=
  dockerRunCommand ++ lit " ls -la /app".
Definition touch : jsstring := lit "touch database.sqlite".
Definition key_generate : jsstring := lit "php artisan key:generate --force".
Definition migrate : jsstring := lit "php artisan migrate --force".
End Cmd.

(** ** [main] and the rejection handler *)

Section Main.
Variable sys : System.
Local Open Scope M_scope.

(** Lines 61-68. *)
Definition check_docker : M sys unit :=
  let* dockerExists := checkCommandExist (lit "docker") in
  if negb dockerExists then
    console_error DockerNotFound >> process_exit 1
  else ret tt.

(** Lines 74-77. *)
Definition clone_repository (url : jsstring) (repoDir : path) : M sys unit :=
  let* found := existsSync repoDir in
  if negb found then
    let* _ := runCommand (Cmd.git_clone url) None in ret tt
  else ret tt.

(** Lines 79-95: the image name [dockerImage]. *)
Definition determine_php_version (repoDir : path) : M sys jsstring :=
  let composerPath := path_join repoDir "composer.json" in
  let* found := existsSync composerPath in
  if negb found then
    console_error ComposerJsonNotFound >> process_exit 1
  else
    let* text := readFileSync composerPath in
    let* composerData := parse_json text in
    ret (image_name composerData).

(** Lines 103-113. *)
Definition install_dependencies (repoDir : path) : M sys unit :=
  let* _ := runCommand (Cmd.curl (path_join repoDir "composer.phar")) None in
  let* _ := runCommand Cmd.composer_install (Some repoDir) in
  ret tt.

(** Lines 115-120. *)
Definition setup_env (repoDir : path) : M sys unit :=
  let envPath := path_join repoDir ".env" in
  let* found := existsSync envPath in
  if negb found then
    let* _ := runCommand Cmd.cp_env (Some repoDir) in ret tt
  else ret tt.

(** Lines 125-136. *)
Definition check_artisan (repoDir : path) : M sys unit :=
  let artisanPath := path_join repoDir "artisan" in
  let* found := existsSync artisanPath in
  if negb found then
    console_error ArtisanNotFound >>
    console_error (ExpectedAt artisanPath) >>
    let* files := readdirSync repoDir in
    console_error (FilesInRepo files) >>
    throw ArtisanMissing
  else ret tt.

(** Lines 138-144. *)
Definition debug_container (repoDir : path) (dockerRunCommand : jsstring) : M sys unit :=
  try_catch
    (let* _ := runCommand (Cmd.docker_ls dockerRunCommand) (Some repoDir) in ret tt)
    (fun _ => console_warn DebugFailed).

(** Lines 146-186. *)
Definition configure_sqlite (repoDir : path) : M sys unit :=
  let databaseDir := path_join repoDir "database" in
  let* found := existsSync databaseDir in
  when (negb found) (mkdirSync databaseDir) >>
  let sqliteFilePath := path_join databaseDir "database.sqlite" in
  let* found := existsSync sqliteFilePath in
  when (negb found) (writeFileSync sqliteFilePath []) >>
  let envPath := path_join repoDir ".env" in
  let* envContent := readFileSync envPath in
  writeFileSync envPath (rewrite_env envContent) >>
  runCommand_detached Cmd.touch (Some (path_join repoDir "database")).

(** Lines 188-207. *)
Definition generate_key_and_migrate (repoDir : path) (name : jsstring) : M sys unit :=
  try_catch
    (let* _ := runCommand Cmd.key_generate (Some repoDir) in
     try_catch
       (let* _ := runCommand Cmd.migrate (Some repoDir) in ret tt)
       (fun migrateError =>
          console_warn MigrationFailed >>
          console_warn MigrationHint >>
          console_warn (MigrationManual name)))
    (fun keyError => console_error KeyGenerationFailed >> throw keyError).

(** Lines 209-211. *)
Definition cleanup_composer (repoDir : path) : M sys unit :=
  unlinkSync (path_join repoDir "composer.phar").

(** [opts.url], tested for truthiness (line 56). *)
Definition given_url (url : option jsstring) : option jsstring :=
  match url with
  | Some u => if truthy u then Some u else None
  | None => None
  end.

Definition repoDir_of (url : jsstring) : path := resolve (cwd sys) (repoName url).

(** What [main] does once the URL is known (lines 61-219). *)
Definition setup (url : jsstring) : M sys unit :=
  check_docker >>
  let name := repoName url in
  let repoDir := resolve (cwd sys) name in
  clone_repository url repoDir >>
  let* dockerImage := determine_php_version repoDir in
  let dockerRunCommand := Cmd.docker_run repoDir dockerImage in
  install_dependencies repoDir >>
  setup_env repoDir >>
  check_artisan repoDir >>
  debug_container repoDir dockerRunCommand >>
  configure_sqlite repoDir >>
  generate_key_and_migrate repoDir name >>
  cleanup_composer repoDir.

(** Lines 50-220; [url] is what the option parser found for [--url]. *)
Definition main (url : option jsstring) : M sys unit :=
  match given_url url with
  | None => console_error Usage >> process_exit 1
  | Some url => setup url
  end.

(** The body of the handler's [try] block (lines 228-238).  Without a
    URL [path.basename] throws a [TypeError], which the empty [catch]
    swallows like any other error. *)
Definition remove_leftovers (url : option jsstring) : M sys unit :=
  match url with
  | None => ret tt
  | Some url =>
      let baseDir := resolve (cwd sys) (repoName url) in
      let* found := existsSync (path_join baseDir "composer.phar") in
      when found (unlinkSync (path_join baseDir "composer.phar")) >>
      let* found := existsSync (path_join baseDir "composer-setup.php") in
      when found (unlinkSync (path_join baseDir "composer-setup.php"))
  end.

(** Lines 224-241. *)
Definition on_rejected (url : option jsstring) (err : exn) : M sys unit :=
  console_error (SetupError err) >>
  try_catch (remove_leftovers url) (fun _ => ret tt) >>
  process_exit 1.

(** The process from start to end: its exit code and the world it
    leaves.  A run of [main] that returns ends the process with code 0;
    a rejection nobody handles ends it with code 1. *)
Definition exit_code (r : result unit) : Z :=
  match r with
  | Ret _ => 0
  | Throw _ => 1
  | Exit code => code
  end%Z.

Definition program (url : option jsstring) : M sys unit :=
  try_catch (main url) (on_rejected url).

Definition laraset (url : option jsstring) (w : world sys) : Z * world sys :=
  (exit_code (program url w).1, (program url w).2).
End Main.

Definition initial_world (sys : System) (files : gmap (list (list N)) node)
    (x : Ext sys) : world sys :=
  {| fs := files; ext := x; trace := [] |}.

(** * What the statements are about *)

(** ** Lines

    A text read as lines: the first line, then every line terminator with
    the line that follows it.  CR LF counts as two terminators around an
    empty line, which is how [^] and [$] see it. *)
Fixpoint split_lines (s : jsstring) : jsstring * list (N * jsstring) :=
  match s with
  | [] => ([], [])
  | c :: s' =>
      let '(l, r) := split_lines s' in
      if is_line_terminator c then ([], (c, l) :: r) else (c :: l, r)
  end.

Definition lines (s : jsstring) : list jsstring :=
  fst (split_lines s) :: map snd (snd (split_lines s)).

Definition terminators (s : jsstring) : list N :=
  map fst (snd (split_lines s)).

Fixpoint join_lines (ls : list jsstring) (ts : list N) : jsstring :=
  match ls, ts with
  | [], _ => []
  | l :: _, [] => l
  | l :: ls', t :: ts' => l ++ t :: join_lines ls' ts'
  end.

Definition single_line (s : jsstring) : bool :=
  forallb (fun c => negb (is_line_terminator c)) s.

(** What the specification says of one replacement, on lines: the first
    line that starts with the key is replaced as a whole. *)
Fixpoint replace_first_line (key v : jsstring) (ls : list jsstring) : list jsstring :=
  match ls with
  | [] => []
  | l :: ls' =>
      if starts_with key l then v :: ls' else l :: replace_first_line key v ls'
  end.

(** The same on the representation [split_lines] returns. *)
Fixpoint replace_first_tail (key v : jsstring) (r : list (N * jsstring))
  : list (N * jsstring) :=
  match r with
  | [] => []
  | (t, l) :: r' =>
      if starts_with key l then (t, v) :: r' else (t, l) :: replace_first_tail key v r'
  end.

(** ** A table of replacements applied in sequence *)

Definition apply_rules_lines (rs : list (jsstring * jsstring)) (ls : list jsstring)
  : list jsstring :=
  fold_left (fun ls r => replace_first_line (fst r) (snd r) ls) rs ls.

(** The rule a line falls under: the first rule whose key it starts with. *)
Definition find_rule (rs : list (jsstring * jsstring)) (l : jsstring)
  : option (jsstring * jsstring) :=
  List.find (fun r => starts_with (fst r) l) rs.

(** What the specification says of the whole table, line by line: a line
    that starts with a key of the table and is the first to do so becomes
    the value of that key; every other line stays.  [before] holds the
    lines above [l] in the input. *)
Definition rewritten_line (rs : list (jsstring * jsstring))
    (before : list jsstring) (l : jsstring) : jsstring :=
  match find_rule rs l with
  | Some (key, value) => if existsb (starts_with key) before then l else value
  | None => l
  end.

Definition occurrences (key : jsstring) (ls : list jsstring) : nat :=
  length (List.filter (starts_with key) ls).

(** Two literals that differ at a position both have: no text starts with
    both. *)
Fixpoint diverge (a b : jsstring) : bool :=
  match a, b with
  | x :: a', y :: b' => if x =? y then diverge a' b' else true
  | _, _ => false
  end.

(** Rule [r] does not disturb which lines start with [key]: the line it
    rewrites starts with [key] exactly when its value does. *)
Definition compatb (key : jsstring) (r : jsstring * jsstring) : bool :=
  if starts_with key (snd r) then starts_with key (fst r) else diverge (fst r) key.

(** Every rule leaves the later ones alone. *)
Fixpoint independent (rs : list (jsstring * jsstring)) : bool :=
  match rs with
  | [] => true
  | r :: rs' =>
      forallb (fun r' => diverge (fst r) (fst r') && negb (starts_with (fst r') (snd r))) rs'
      && independent rs'
  end.

(** A value of the table falls under no rule but its own. *)
Definition stable (rs : list (jsstring * jsstring)) : bool :=
  forallb (fun r =>
    match find_rule rs (snd r) with
    | Some r' => bool_decide (snd r' = snd r)
    | None => true
    end) rs.

(** A key whose value starts with it again is left alone by every rule. *)
Definition self_stable (rs : list (jsstring * jsstring)) : bool :=
  forallb (fun r =>
    negb (starts_with (fst r) (snd r)) || forallb (compatb (fst r)) rs) rs.

Definition single_line_rules (rs : list (jsstring * jsstring)) : bool :=
  forallb (fun r => single_line (fst r) && single_line (snd r)) rs.

(** The specification's wording of the truncation: the text up to the
    [n]-th dot, that dot excluded. *)
Fixpoint first_components (n : nat) (s : jsstring) : jsstring :=
  match n with
  | O => []
  | S n' =>
      match s with
      | [] => []
      | c :: s' =>
          if c =? Chars.DOT
          then match n' with O => [] | S _ => c :: first_components n' s' end
          else c :: first_components n s'
      end
  end.

(** ** Reasoning about computations *)

(** Whatever [m] adds to the trace satisfies [P]. *)
Definition emits {sys A} (P : event → Prop) (m : M sys A) : Prop :=
  ∀ w, ∃ new, trace (m w).2 = trace w ++ new ∧ Forall P new.

(** Run from a world that satisfies [I], [m] ends in a result and a world
    that satisfy [Q]. *)
Definition hoare {sys A} (I : world sys → Prop) (m : M sys A)
    (Q : result A → world sys → Prop) : Prop :=
  ∀ w, I w → Q (m w).1 (m w).2.
(** [m] leaves the entry at [q] as it is. *)
Definition keeps {sys A} (q : path) (m : M sys A) : Prop :=
  ∀ w, fs (m w).2 !! q = fs w !! q.

(** ** Events by what they do *)

Definition runs_command (command : jsstring) (e : event) : Prop :=
  match e with
  | Exec c _ _ | Spawn c _ => c = command
  | _ => False
  end.

Definition checks_existence (p : path) (e : event) : Prop :=
  match e with
  | FsExists p' _ => p' = p
  | _ => False
  end.

Definition writes_file (p : path) (e : event) : Prop :=
  match e with
  | FsWrite p' _ _ => p' = p
  | _ => False
  end.

(** ** The working directory and the clone command *)

Section CloneEvents.
Variable url : jsstring.
Variable repoDir : path.

(** Neither the clone command nor the test for the working directory. *)
Definition clone_free (e : event) : Prop :=
  ¬ runs_command (Cmd.git_clone url) e ∧ ¬ checks_existence repoDir e.

(** If the working directory was found, nothing was cloned. *)
Definition found_not_cloned (tr : list event) : Prop :=
  FsExists repoDir true ∈ tr → ∀ e, e ∈ tr → ¬ runs_command (Cmd.git_clone url) e.
End CloneEvents.

(** ** The files the handler removes *)

Section Leftovers.
Variable sys : System.
Variable url : jsstring.

Definition phar_of : path := path_join (repoDir_of sys url) "composer.phar".
Definition helper_of : path := path_join (repoDir_of sys url) "composer-setup.php".
End Leftovers.

(** ** The entry-point file *)

Section ArtisanEvents.
Variable repoDir : path.

Definition artisan_missing : event := FsExists (path_join repoDir "artisan") false.

(** Neither of the two framework commands, nor the test for the
    entry-point file. *)
Definition before_artisan (e : event) : Prop :=
  ¬ runs_command Cmd.key_generate e ∧ ¬ runs_command Cmd.migrate e
  ∧ ¬ checks_existence (path_join repoDir "artisan") e.

Definition no_framework_command (e : event) : Prop :=
  ¬ runs_command Cmd.key_generate e ∧ ¬ runs_command Cmd.migrate e.

(** The directory was read, and what was read was printed. *)
Definition listed (tr : list event) : Prop :=
  ∃ err, FsReaddir repoDir err ∈ tr
         ∧ (err = None → ∃ files, ConsoleError (FilesInRepo files) ∈ tr).

Definition aborted (tr : list event) : Prop :=
  Forall no_framework_command tr ∧ listed tr.

(** Once the entry-point file was found, it is never reported missing. *)
Definition after_artisan (e : event) : Prop :=
  ¬ checks_existence (path_join repoDir "artisan") e.
End ArtisanEvents.

(** ** The migration *)

Section MigrationEvents.
Variable repoDir : path.
Variable name : jsstring.




End MigrationEvents.


(** ** The database file *)

Section DatabaseEvents.
Variable sys : System.
Variable repoDir : path.

Definition sqlite_of : path :=
  path_join (path_join repoDir "database") "database.sqlite".

Definition not_written (e : event) : Prop := ¬ writes_file sqlite_of e.

(** The database file holds [n], and since the trace read [tr0] the file
    was not written. *)
Definition database_kept (n : node) (tr0 : list event) (w : world sys) : Prop :=
  fs w !! sqlite_of = Some n
  ∧ ∃ new, trace w = tr0 ++ new ∧ Forall not_written new.
End DatabaseEvents.

(** ** A concrete run

    A project [demo] that is already in place below [/work], a manifest
    that asks for PHP [^8.3], a download that works and a migration that
    fails. *)
Module Demo.
Definition url : jsstring := lit "https://example.com/demo.git".
Definition work : path := [lit "work"].
Definition repo : path := [lit "work"; lit "demo"].

Definition env_file : jsstring := lit "APP_NAME=Laravel
DB_CONNECTION=mysql
DB_HOST=127.0.0.1
DB_PORT=3306
DB_DATABASE=laravel
DB_USERNAME=root
DB_PASSWORD=
".

Definition files : gmap (list (list N)) node :=
  list_to_map
    [ (work, Dir); (repo, Dir);
      (path_join repo "composer.json", File (lit "{}"));
      (path_join repo "artisan", File (lit "#!/usr/bin/env php"));
      (path_join repo ".env", File env_file);
      (path_join repo "composer-setup.php", File (lit "<?php")) ].

Definition files_without_artisan : gmap (list (list N)) node :=
  delete (path_join repo "artisan") files.

Definition files_with_database : gmap (list (list N)) node :=
  <[path_join (path_join repo "database") "database.sqlite" := File (lit "SQLite format 3")]>
    (<[path_join repo "database" := Dir]> files).

Definition ok : exec_outcome := {| error := None; stdout := []; stderr := [] |}.
Definition failed : exec_outcome :=
  {| error := Some (lit "Command failed"); stdout := [];
     stderr := lit "could not find driver" |}.

(** Every command succeeds, the migration only when [migration] is
    set; [curl] writes the executable when [download] is set. *)
Definition sys_with (download migration : bool) : System :=
  {| Ext := unit;
     exec := fun command dir fs x =>
       if starts_with (lit "curl ") command then
         (ok, if download
              then <[path_join repo "composer.phar" := File (lit "phar")]> fs
              else fs, x)
       else if bool_decide (command = Cmd.migrate) && negb migration
            then (failed, fs, x)
       else (ok, fs, x);
     spawn := fun _ _ x => x;
     JSON_parse := fun _ => Some (manifest_with (lit "^8.3"));
     cwd := work |}.

Definition sys : System := sys_with true false.
Definition start : world sys := initial_world sys files tt.
End Demo.


(** * More of the program

    Notions for the further properties of the code, and the entry point
    that does not configure SQLite. *)

(** ** White space *)

Definition white (s : jsstring) : Prop := Forall (λ c, is_white_space c = true) s.

(** ** Version numbers *)

(** Neither a digit nor a dot: what the filter of line 90 drops. *)
Definition dropped (c : N) : Prop := is_digit c = false ∧ c ≠ Chars.DOT.

Definition dots (s : jsstring) : nat :=
  length (List.filter (λ c, c =? Chars.DOT) s).

(** ** The end of the process *)

(** [m] ends the process with a code that satisfies [P] only. *)
Definition exits {sys A} (P : Z → Prop) (m : M sys A) : Prop :=
  ∀ w c, (m w).1 = Exit c → P c.

(** ** What the program touches *)

Section Confined.
Variable repoDir : path.

(** The files the program itself reads, lists, creates, writes and
    removes, and where it runs its commands. *)
Definition confined (e : event) : Prop :=
  match e with
  | Exec _ dir _ => dir = None ∨ dir = Some repoDir
  | Spawn _ dir => dir = Some (path_join repoDir "database")
  | FsRead p _ => p = path_join repoDir "composer.json" ∨ p = path_join repoDir ".env"
  | FsReaddir p _ => p = repoDir
  | FsMkdir p _ => p = path_join repoDir "database"
  | FsWrite p content _ =>
      (p = sqlite_of repoDir ∧ content = [])
      ∨ (p = path_join repoDir ".env" ∧ ∃ envContent, content = rewrite_env envContent)
  | FsUnlink p _ =>
      p = path_join repoDir "composer.phar" ∨ p = path_join repoDir "composer-setup.php"
  | FsExists _ _ | ConsoleError _ | ConsoleWarn _ => True
  end.
End Confined.

(** ** Runs that succeed *)

(** [m], when it returns, has added to the trace events that [R] relates
    to the value returned. *)
Definition returns {sys A} (m : M sys A) (R : A → list event → Prop) : Prop :=
  ∀ w a w', m w = (Ret a, w') → ∃ new, trace w' = trace w ++ new ∧ R a new.

(** The events of a step that is skipped when [b] holds. *)
Definition unless (b : bool) (evs : list event) : list event :=
  if b then [] else evs.

(** The events of a command whose failure is caught and answered with
    [warnings]. *)
Definition attempt (command : jsstring) (dir : option path)
    (warnings : list message) (evs : list event) : Prop :=
  evs = [Exec command dir true]
  ∨ ∃ stderr,
      evs = [Exec command dir false; ConsoleError (CommandFailedOutput stderr)]
            ++ map ConsoleWarn warnings.

(** The trace of a run in which [main] returns. *)
Definition successful (sys : System) (url : jsstring) (tr : list event) : Prop :=
  let repoDir := repoDir_of sys url in
  let database := path_join repoDir "database" in
  ∃ (found env_found database_found sqlite_found : bool)
    (text : jsstring) (manifest : ComposerData) (envContent : jsstring)
    (debug migration : list event),
    JSON_parse sys text = Some manifest
    ∧ attempt (Cmd.docker_ls (Cmd.docker_run repoDir (image_name manifest)))
        (Some repoDir) [DebugFailed] debug
    ∧ attempt Cmd.migrate (Some repoDir)
        [MigrationFailed; MigrationHint; MigrationManual (repoName url)] migration
    ∧ tr =
        [ Exec (Cmd.which (lit "docker")) None true; FsExists repoDir found ]
        ++ unless found [ Exec (Cmd.git_clone url) None true ]
        ++ [ FsExists (path_join repoDir "composer.json") true;
             FsRead (path_join repoDir "composer.json") None;
             Exec (Cmd.curl (path_join repoDir "composer.phar")) None true;
             Exec Cmd.composer_install (Some repoDir) true;
             FsExists (path_join repoDir ".env") env_found ]
        ++ unless env_found [ Exec Cmd.cp_env (Some repoDir) true ]
        ++ [ FsExists (path_join repoDir "artisan") true ]
        ++ debug
        ++ [ FsExists database database_found ]
        ++ unless database_found [ FsMkdir database None ]
        ++ [ FsExists (sqlite_of repoDir) sqlite_found ]
        ++ unless sqlite_found [ FsWrite (sqlite_of repoDir) [] None ]
        ++ [ FsRead (path_join repoDir ".env") None;
             FsWrite (path_join repoDir ".env") (rewrite_env envContent) None;
             Spawn Cmd.touch (Some database);
             Exec Cmd.key_generate (Some repoDir) true ]
        ++ migration
        ++ [ FsUnlink (path_join repoDir "composer.phar") None ].

(** ** Commands whose failure ends the run *)

Section Fatal.
Variable url : jsstring.
Variable repoDir : path.

(** The commands [main] waits for outside of any [try] block that would
    swallow their failure. *)
Definition fatal_command (command : jsstring) : Prop :=
  command = Cmd.git_clone url
  ∨ command = Cmd.curl (path_join repoDir "composer.phar")
  ∨ command = Cmd.composer_install
  ∨ command = Cmd.cp_env
  ∨ command = Cmd.key_generate.

Definition fatal (e : event) : Prop :=
  match e with
  | Exec command _ false => fatal_command command
  | _ => False
  end.

(** What is left to happen after such a failure: error output, and the
    handler looking for its two files and unlinking them. *)
Definition aftermath (e : event) : Prop :=
  match e with
  | ConsoleError _ => True
  | FsExists p _ | FsUnlink p _ =>
      p = path_join repoDir "composer.phar"
      ∨ p = path_join repoDir "composer-setup.php"
  | _ => False
  end.

Definition clean (evs : list event) : Prop := Forall (λ e, ¬ fatal e) evs.

Definition stopped (evs : list event) : Prop :=
  ∃ pre e post, evs = pre ++ e :: post ∧ clean pre ∧ fatal e ∧ Forall aftermath post.

(** [m] adds no failure of a fatal command to the trace when it returns,
    and at most one otherwise, with nothing but the aftermath behind it. *)
Definition failstop {sys A} (m : M sys A) : Prop :=
  ∀ w, ∃ new, trace (m w).2 = trace w ++ new
    ∧ match (m w).1 with
      | Ret _ => clean new
      | _ => clean new ∨ stopped new
      end.
End Fatal.

(** ** More runs *)

Module Sample.
(** Every command succeeds but [command]; none of them changes a file. *)
Definition sys_failing (command : jsstring) : System :=
  {| Ext := unit;
     exec := fun c dir fs x =>
       if bool_decide (c = command) then (Demo.failed, fs, x) else (Demo.ok, fs, x);
     spawn := fun _ _ x => x;
     JSON_parse := fun _ => Some (manifest_with (lit "^8.3"));
     cwd := Demo.work |}.

Definition start (command : jsstring) : world (sys_failing command) :=
  initial_world (sys_failing command) Demo.files tt.

Definition files_without_manifest : gmap (list (list N)) node :=
  delete (path_join Demo.repo "composer.json") Demo.files.
End Sample.

(** ** Files *)

(** There is a regular file at [p]. *)
Definition file_at (fs : gmap (list (list N)) node) (p : path) : bool :=
  match fs !! p with
  | Some (File _) => true
  | _ => false
  end.

(** ** The download *)

Section Download.
Variable repoDir : path.

Definition download (e : event) : Prop :=
  runs_command (Cmd.curl (path_join repoDir "composer.phar")) e.

Definition not_download (e : event) : Prop := ¬ download e.

(** An attempt to unlink the downloaded executable, or a test that finds
    nothing at its path. *)
Definition cleans (e : event) : Prop :=
  match e with
  | FsUnlink p _ => p = path_join repoDir "composer.phar"
  | FsExists p found => p = path_join repoDir "composer.phar" ∧ found = false
  | _ => False
  end.

(** After the download, the executable was unlinked or found absent. *)
Definition cleaned (tr : list event) : Prop :=
  ∃ pre e post, tr = pre ++ e :: post ∧ Exists download pre ∧ cleans e.
End Download.

(** ** Steps that are skipped when a file is there *)

Section Guarded.
Variable p : path.
Variable command : jsstring.

(** Neither the command nor the test that guards it. *)
Definition guard_free (e : event) : Prop :=
  ¬ runs_command command e ∧ ¬ checks_existence p e.

(** If the test found the file, the command was not run. *)
Definition found_not_run (tr : list event) : Prop :=
  FsExists p true ∈ tr → Forall (λ e, ¬ runs_command command e) tr.
End Guarded.

(** ** The manifest *)

Section Manifest.
Variable url : jsstring.
Variable repoDir : path.

Definition manifest_missing : event :=
  FsExists (path_join repoDir "composer.json") false.

(** The trace of a run that ends for want of a manifest. *)
Definition stopped_at_manifest (tr : list event) : Prop :=
  ∃ found,
    tr = [ Exec (Cmd.which (lit "docker")) None true; FsExists repoDir found ]
         ++ unless found [ Exec (Cmd.git_clone url) None true ]
         ++ [ manifest_missing; ConsoleError ComposerJsonNotFound ].
End Manifest.

(** ** Runs that return, by what they leave *)

(** Run in [w], [m] returns [a] and leaves the files [files] and the outer
    state [x]. *)
Definition runs_to {sys A} (m : M sys A) (w : world sys) (a : A)
    (files : gmap (list (list N)) node) (x : Ext sys) : Prop :=
  ∃ w', m w = (Ret a, w') ∧ fs w' = files ∧ ext w' = x.

(** ** The entry point without the SQLite step ([src/index.ts])

    The same stages in the same order, but for the configuration of
    SQLite, which this version does not have. *)
Module Legacy.
Section Main.
Variable sys : System.
Local Open Scope M_scope.

(** Lines 55-175. *)
Definition setup (url : jsstring) : M sys unit :=
  check_docker sys >>
  let name := repoName url in
  let repoDir := resolve (cwd sys) name in
  clone_repository sys url repoDir >>
  let* dockerImage := determine_php_version sys repoDir in
  let dockerRunCommand := Cmd.docker_run repoDir dockerImage in
  install_dependencies sys repoDir >>
  setup_env sys repoDir >>
  check_artisan sys repoDir >>
  debug_container sys repoDir dockerRunCommand >>
  generate_key_and_migrate sys repoDir name >>
  cleanup_composer sys repoDir.

(** Lines 44-176. *)
Definition main (url : option jsstring) : M sys unit :=
  match given_url url with
  | None => console_error Usage >> process_exit 1
  | Some url => setup url
  end.

(** Lines 178-195: the handler is the one of the other version. *)
Definition program (url : option jsstring) : M sys unit :=
  try_catch (main url) (on_rejected sys url).

Definition laraset (url : option jsstring) (w : world sys) : Z * world sys :=
  (exit_code (program url w).1, (program url w).2).
End Main.
End Legacy.

Section ReadOnly.
Variable repoDir : path.

(** Nothing is written, created or started in the background; what is
    read is the manifest, and what is unlinked is one of the two
    leftovers. *)
Definition read_only (e : event) : Prop :=
  match e with
  | FsWrite _ _ _ | FsMkdir _ _ | Spawn _ _ => False
  | FsRead p _ => p = path_join repoDir "composer.json"
  | FsUnlink p _ =>
      p = path_join repoDir "composer.phar" ∨ p = path_join repoDir "composer-setup.php"
  | _ => True
  end.
End ReadOnly.

(** ** The commands of a run, in order *)

(** The command an event executes or starts, with its directory. *)
Definition command_of (e : event) : option (jsstring * option (list (list N))) :=
  match e with
  | Exec command dir _ | Spawn command dir => Some (command, dir)
  | _ => None
  end.

Definition commands_of (tr : list event) : list (jsstring * option (list (list N))) :=
  omap command_of tr.

(** Every command of the source with the directory it is given, in the
    order of the source. *)
Definition script (url : jsstring) (repoDir : path) (dockerImage : jsstring)
  : list (jsstring * option (list (list N))) :=
  [ (Cmd.which (lit "docker"), None);
    (Cmd.git_clone url, None);
    (Cmd.curl (path_join repoDir "composer.phar"), None);
    (Cmd.composer_install, Some repoDir);
    (Cmd.cp_env, Some repoDir);
    (Cmd.docker_ls (Cmd.docker_run repoDir dockerImage), Some repoDir);
    (Cmd.touch, Some (path_join repoDir "database"));
    (Cmd.key_generate, Some repoDir);
    (Cmd.migrate, Some repoDir) ].

(** The commands [m] adds to the trace satisfy [S]. *)
Definition issues {sys A} (m : M sys A)
    (S : list (jsstring * option (list (list N))) → Prop) : Prop :=
  ∀ w, ∃ new, trace (m w).2 = trace w ++ new ∧ S (commands_of new).

(** Some of the commands of [L], in the order of [L]. *)
Definition within (L : list (jsstring * option (list (list N))))
    (cs : list (jsstring * option (list (list N)))) : Prop :=
  cs `sublist_of` L.

(** * Lemmas *)

Example rewrite_env_sample :
  rewrite_env (lit "APP=x
DB_CONNECTION=mysql
DB_HOST=127.0.0.1
DB_PORT=3306
DB_DATABASE=laravel
DB_USERNAME=root
DB_PASSWORD=secret
") = lit "APP=x
DB_CONNECTION=sqlite
# DB_HOST=
# DB_PORT=
DB_DATABASE=/database/database.sqlite
DB_USERNAME=
DB_PASSWORD=
".
Proof. reflexivity. Qed.

(** Carriage returns stay where they are; a key in the middle of a line
    is not a match. *)
Example rewrite_env_crlf :
  rewrite_env (lit "A=1" ++ [Chars.CR; Chars.LF] ++ lit "DB_HOST=x"
               ++ [Chars.CR; Chars.LF] ++ lit "MY_DB_PORT=1")
  = lit "A=1" ++ [Chars.CR; Chars.LF] ++ lit "# DB_HOST="
    ++ [Chars.CR; Chars.LF] ++ lit "MY_DB_PORT=1".
Proof. reflexivity. Qed.

Example basename_demo :
  repoName (lit "https://example.com/demo.git") = lit "demo"
  ∧ repoName (lit "https://github.com/laravel/laravel.git") = lit "laravel"
  ∧ repoName (lit "git@host:team/app.git/") = lit "app"
  ∧ repoName (lit "https://example.com/demo") = lit "demo"
  ∧ repoName (lit "https://example.com/project/.git") = lit ".git"
  ∧ image_tag (manifest_with (lit "^8.3")) = lit "8.3".
Proof. repeat split; reflexivity. Qed.

Example demo_run :
  let '(code, w) := laraset Demo.sys (Some Demo.url) Demo.start in
  code = 0%Z
  ∧ fs w !! path_join Demo.repo "composer.phar" = None
  ∧ fs w !! path_join Demo.repo ".env" = Some (File (lit "APP_NAME=Laravel
DB_CONNECTION=sqlite
# DB_HOST=
# DB_PORT=
DB_DATABASE=/database/database.sqlite
DB_USERNAME=
DB_PASSWORD=
"))
  ∧ fs w !! path_join (path_join Demo.repo "database") "database.sqlite" = Some (File [])
  ∧ repoDir_of Demo.sys Demo.url = Demo.repo.
Proof. vm_compute. repeat split; reflexivity. Qed.

(** ** Lemmas on lines *)

Lemma join_split_lines s : join_lines (lines s) (terminators s) = s.
Proof.
  unfold lines, terminators.
  induction s as [|c s IH]; simpl; [done|].
  destruct (split_lines s) as [l r] eqn:E; simpl in *.
  destruct (is_line_terminator c); simpl.
  - by rewrite IH.
  - destruct r as [|[t l'] r]; simpl in *; by rewrite <- IH.
Qed.

Lemma length_lines s : length (lines s) = S (length (terminators s)).
Proof. unfold lines, terminators. simpl. by rewrite !length_map. Qed.

Lemma split_lines_app_single v s :
  single_line v = true →
  split_lines (v ++ s) = (v ++ fst (split_lines s), snd (split_lines s)).
Proof.
  induction v as [|c v IH]; simpl; intros Hv.
  - by destruct (split_lines s).
  - apply andb_prop in Hv as [Hc Hv]. rewrite (IH Hv).
    apply negb_true_iff in Hc. by rewrite Hc.
Qed.

Lemma split_lines_skip_dot_star s :
  split_lines (skip_dot_star s) = ([], snd (split_lines s)).
Proof.
  induction s as [|c s IH]; simpl; [done|].
  destruct (is_line_terminator c) eqn:Hc; simpl.
  - rewrite Hc. by destruct (split_lines s).
  - rewrite IH. by destruct (split_lines s).
Qed.

Lemma match_literal_first_line key s :
  single_line key = true →
  starts_with key (fst (split_lines s)) = starts_with key s.
Proof.
  unfold starts_with. revert s.
  induction key as [|k key IH]; intros s Hk; simpl; [done|].
  apply andb_prop in Hk as [Hc Hk]. apply negb_true_iff in Hc.
  destruct s as [|c s]; simpl; [done|].
  destruct (split_lines s) as [l r] eqn:E.
  destruct (N.eqb_spec k c) as [->|Hne].
  - rewrite Hc. simpl. rewrite N.eqb_refl.
    specialize (IH s Hk). by rewrite E in IH.
  - destruct (is_line_terminator c); simpl; [done|].
    by apply N.eqb_neq in Hne as ->.
Qed.

Lemma match_literal_tail key s rest :
  single_line key = true →
  match_literal key s = Some rest →
  snd (split_lines rest) = snd (split_lines s).
Proof.
  revert s. induction key as [|k key IH]; intros s Hk; simpl.
  - by intros [= ->].
  - apply andb_prop in Hk as [Hc Hk]. apply negb_true_iff in Hc.
    destruct s as [|c s]; [done|].
    destruct (N.eqb_spec k c) as [->|Hne]; [|done].
    intros H. rewrite (IH _ Hk H). simpl.
    destruct (split_lines s). by rewrite Hc.
Qed.

Lemma split_lines_cons c s :
  split_lines (c :: s) =
    if is_line_terminator c
    then ([], (c, fst (split_lines s)) :: snd (split_lines s))
    else (c :: fst (split_lines s), snd (split_lines s)).
Proof. simpl. by destruct (split_lines s). Qed.

Section one_rule.
Variables key v : jsstring.
Hypothesis key_single : single_line key = true.
Hypothesis v_single : single_line v = true.

Lemma split_lines_replace_from s bol :
  split_lines (replace_from bol key v s) =
    if bol && starts_with key s
    then (v, snd (split_lines s))
    else (fst (split_lines s), replace_first_tail key v (snd (split_lines s))).
Proof.
  assert (Hit : ∀ s rest, match_literal key s = Some rest →
            split_lines (v ++ skip_dot_star rest) = (v, snd (split_lines s))).
  { intros s0 rest E. rewrite split_lines_app_single by done.
    rewrite split_lines_skip_dot_star, app_nil_r. simpl.
    by rewrite (match_literal_tail _ _ _ key_single E). }
  revert bol. induction s as [|c s IH]; intros bol.
  - unfold starts_with. destruct bol; simpl "&&"; cbv iota; [|done].
    unfold replace_from.
    destruct (match_literal key []) as [rest|] eqn:E; [by apply (Hit [])|done].
  - assert (Hmiss :
      split_lines (c :: replace_from (is_line_terminator c) key v s) =
        (fst (split_lines (c :: s)),
         replace_first_tail key v (snd (split_lines (c :: s))))).
    { rewrite !split_lines_cons, IH.
      destruct (is_line_terminator c); simpl; [|done].
      rewrite match_literal_first_line by done.
      by destruct (starts_with key s). }
    unfold starts_with. destruct bol; simpl "&&"; cbv iota.
    + unfold replace_from; fold replace_from.
      destruct (match_literal key (c :: s)) as [rest|] eqn:E; [by apply Hit|done].
    + done.
Qed.

Lemma lines_replace_line s :
  lines (replace_line key v s) = replace_first_line key v (lines s).
Proof.
  unfold lines, replace_line. rewrite split_lines_replace_from. simpl.
  rewrite match_literal_first_line by done.
  destruct (starts_with key s); simpl; [done|].
  f_equal. induction (snd (split_lines s)) as [|[t l] r IH]; simpl; [done|].
  destruct (starts_with key l); simpl; by rewrite ?IH.
Qed.

Lemma terminators_replace_line s :
  terminators (replace_line key v s) = terminators s.
Proof.
  unfold terminators, replace_line. rewrite split_lines_replace_from. simpl.
  destruct (starts_with key s); simpl; [done|].
  induction (snd (split_lines s)) as [|[t l] r IH]; simpl; [done|].
  destruct (starts_with key l); simpl; by rewrite ?IH.
Qed.
End one_rule.

(** ** Lemmas on the table of replacements *)

Lemma starts_with_nil_l l : starts_with [] l = true.
Proof. done. Qed.

Lemma starts_with_cons k key c l :
  starts_with (k :: key) (c :: l) = (k =? c) && starts_with key l.
Proof. unfold starts_with. simpl. by destruct (k =? c). Qed.

Lemma diverge_excl a b l :
  diverge a b = true → starts_with a l = true → starts_with b l = false.
Proof.
  revert b l. induction a as [|x a IH]; intros [|y b] l; simpl; try done.
  destruct l as [|c l]; [done|]. rewrite !starts_with_cons.
  destruct (N.eqb_spec x y) as [->|Hxy].
  - intros Hd [_ Ha]%andb_prop. rewrite (IH _ _ Hd Ha). apply andb_false_r.
  - intros _ [Hx%N.eqb_eq _]%andb_prop. subst c.
    by apply N.eqb_neq in Hxy; rewrite N.eqb_sym, Hxy.
Qed.

Lemma starts_with_trans a b l :
  starts_with a b = true → starts_with b l = true → starts_with a l = true.
Proof.
  revert b l. induction a as [|x a IH]; intros [|y b] [|c l]; try done.
  rewrite !starts_with_cons.
  intros [->%N.eqb_eq Ha]%andb_prop [->%N.eqb_eq Hb]%andb_prop.
  rewrite N.eqb_refl. simpl. eauto.
Qed.

Lemma compatb_sound key r l :
  compatb key r = true →
  starts_with (fst r) l = true →
  starts_with key l = starts_with key (snd r).
Proof.
  unfold compatb. destruct (starts_with key (snd r)) eqn:E; intros H Hl.
  - eauto using starts_with_trans.
  - eauto using diverge_excl.
Qed.

Section replace_first_line.
Variables key v : jsstring.

Lemma length_replace_first_line ls :
  length (replace_first_line key v ls) = length ls.
Proof.
  induction ls as [|l ls IH]; simpl; [done|].
  destruct (starts_with key l); simpl; by rewrite ?IH.
Qed.

Lemma lookup_replace_first_line ls i :
  replace_first_line key v ls !! i =
    (λ l, if starts_with key l && negb (existsb (starts_with key) (take i ls))
          then v else l) <$> ls !! i.
Proof.
  revert i. induction ls as [|l ls IH]; intros i; simpl; [done|].
  destruct (starts_with key l) eqn:E.
  - destruct i as [|i]; simpl; [by rewrite E|].
    destruct (ls !! i) as [l'|]; simpl; [|done].
    rewrite E. by destruct (starts_with key l').
  - destruct i as [|i]; simpl; [by rewrite E|]. rewrite E. apply IH.
Qed.

(** Which lines start with another key [k] is not changed, as far as
    the rule is compatible with [k]. *)
Lemma heads_replace_first_line k ls :
  compatb k (key, v) = true →
  map (starts_with k) (replace_first_line key v ls) = map (starts_with k) ls.
Proof.
  intros Hc. induction ls as [|l ls IH]; simpl; [done|].
  destruct (starts_with key l) eqn:E; simpl.
  - f_equal. symmetry. by apply (compatb_sound k (key, v)).
  - by rewrite IH.
Qed.
End replace_first_line.

Lemma existsb_take_heads k (xs ys : list jsstring) i :
  map (starts_with k) xs = map (starts_with k) ys →
  existsb (starts_with k) (take i xs) = existsb (starts_with k) (take i ys).
Proof.
  revert ys i. induction xs as [|x xs IH]; intros [|y ys] i; simpl; try done.
  intros [= Hxy Hm]. destruct i as [|i]; simpl; [done|].
  by rewrite Hxy, (IH _ _ Hm).
Qed.

Lemma find_rule_Some rs l r :
  find_rule rs l = Some r → r ∈ rs ∧ starts_with (fst r) l = true.
Proof.
  intros [H1 H2]%find_some. split; [by apply list_elem_of_In|done].
Qed.

Lemma find_rule_None rs l r :
  find_rule rs l = None → r ∈ rs → starts_with (fst r) l = false.
Proof.
  intros H Hr%list_elem_of_In. apply (find_none _ _ H _ Hr).
Qed.

Lemma length_apply_rules_lines rs ls :
  length (apply_rules_lines rs ls) = length ls.
Proof.
  unfold apply_rules_lines. revert ls.
  induction rs as [|r rs IH]; intros ls; simpl; [done|].
  by rewrite IH, length_replace_first_line.
Qed.

(** The table applied rule after rule does what the line-by-line reading
    says, each line being judged against the lines of the input. *)
Lemma lookup_apply_rules_lines rs ls i :
  independent rs = true →
  apply_rules_lines rs ls !! i = rewritten_line rs (take i ls) <$> ls !! i.
Proof.
  unfold apply_rules_lines. revert ls.
  induction rs as [|[key v] rs IH]; intros ls Hind; simpl.
  { unfold rewritten_line. simpl. by destruct (ls !! i). }
  apply andb_prop in Hind as [Hr Hind].
  rewrite forallb_forall in Hr.
  assert (Hlater : ∀ r', r' ∈ rs →
            diverge key (fst r') = true ∧ starts_with (fst r') v = false).
  { intros r' Hin%list_elem_of_In. specialize (Hr _ Hin).
    apply andb_prop in Hr as [? ?%negb_true_iff]. done. }
  rewrite (IH _ Hind), lookup_replace_first_line.
  destruct (ls !! i) as [l|] eqn:El; simpl; [|done]. f_equal.
  unfold rewritten_line at 2. unfold find_rule. simpl.
  destruct (starts_with key l) eqn:Ek; simpl.
  - assert (Hnone : ∀ x, (starts_with key x = true ∨ x = v) → find_rule rs x = None).
    { intros x Hx. destruct (find_rule rs x) as [r'|] eqn:Ef; [|done].
      apply find_rule_Some in Ef as [Hin Hs]. destruct (Hlater _ Hin) as [Hd Hv].
      destruct Hx as [Hx| ->]; [|congruence].
      by rewrite (diverge_excl _ _ _ Hd Hx) in Hs. }
    unfold rewritten_line.
    destruct (existsb (starts_with key) (take i ls)); simpl.
    + by rewrite Hnone by eauto.
    + by rewrite Hnone by eauto.
  - unfold rewritten_line. fold (find_rule rs l).
    destruct (find_rule rs l) as [[k' v']|] eqn:Ef; [|done].
    apply find_rule_Some in Ef as [Hin Hs]. destruct (Hlater _ Hin) as [Hd Hv].
    erewrite existsb_take_heads; [done|].
    apply heads_replace_first_line. unfold compatb. simpl in *.
    by rewrite Hv.
Qed.

Lemma heads_apply_rules_lines k rs ls :
  forallb (compatb k) rs = true →
  map (starts_with k) (apply_rules_lines rs ls) = map (starts_with k) ls.
Proof.
  unfold apply_rules_lines. revert ls.
  induction rs as [|[key v] rs IH]; intros ls Hc; simpl; [done|].
  simpl in Hc. apply andb_prop in Hc as [Hc Hcs].
  rewrite (IH _ Hcs). by apply heads_replace_first_line.
Qed.

Lemma two_occurrences (f : jsstring → bool) ls i l :
  existsb f (take i ls) = true → ls !! i = Some l → f l = true →
  (2 <= length (List.filter f ls))%nat.
Proof.
  revert i. induction ls as [|x ls IH]; intros [|i]; simpl; try done.
  intros Hex Hl Hf. destruct (f x) eqn:Ex; simpl in *.
  - assert (1 <= length (List.filter f ls))%nat; [|lia].
    apply list_elem_of_lookup_2, list_elem_of_In in Hl.
    assert (Hin : In l (List.filter f ls)) by (apply filter_In; done).
    destruct (List.filter f ls); simpl in *; [done|lia].
  - eauto.
Qed.

(** Applying the table a second time changes nothing, provided a key
    whose value no longer starts with it heads at most one line. *)
Lemma apply_rules_lines_idempotent rs ls :
  independent rs = true → stable rs = true → self_stable rs = true →
  (∀ r, r ∈ rs → starts_with (fst r) (snd r) = false →
        (occurrences (fst r) ls <= 1)%nat) →
  apply_rules_lines rs (apply_rules_lines rs ls) = apply_rules_lines rs ls.
Proof.
  intros Hind Hst Hself Hocc. apply list_eq; intros i.
  rewrite (lookup_apply_rules_lines rs (apply_rules_lines rs ls)) by done.
  rewrite lookup_apply_rules_lines by done.
  destruct (ls !! i) as [l|] eqn:El; simpl; [|done]. f_equal.
  set (X := apply_rules_lines rs ls).
  set (l' := rewritten_line rs (take i ls) l).
  unfold rewritten_line at 1.
  destruct (find_rule rs l') as [[k v]|] eqn:Ef'; [|done].
  destruct (existsb (starts_with k) (take i X)) eqn:Eex; [done|].
  subst l'. unfold rewritten_line in *.
  destruct (find_rule rs l) as [[k0 v0]|] eqn:Ef.
  - destruct (existsb (starts_with k0) (take i ls)) eqn:Eex0.
    + (* the line was kept although it falls under a rule *)
      assert (k0 = k ∧ v0 = v) as [-> ->] by (split; congruence).
      apply find_rule_Some in Ef as [Hin Hs]. simpl in Hs.
      destruct (starts_with k v) eqn:Ekv.
      * unfold self_stable in Hself. rewrite forallb_forall in Hself.
        apply list_elem_of_In in Hin. specialize (Hself _ Hin). simpl in Hself.
        rewrite Ekv in Hself. simpl in Hself.
        unfold X in Eex.
        rewrite (existsb_take_heads k _ ls) in Eex
          by (by apply heads_apply_rules_lines).
        congruence.
      * specialize (Hocc _ Hin Ekv). simpl in Hocc. unfold occurrences in Hocc.
        pose proof (two_occurrences _ _ _ _ Eex0 El Hs). lia.
    + (* the line was replaced: its new text falls under its own rule *)
      apply find_rule_Some in Ef as [Hin Hs].
      unfold stable in Hst. rewrite forallb_forall in Hst.
      apply list_elem_of_In in Hin. specialize (Hst _ Hin). simpl in Hst.
      rewrite Ef' in Hst. by apply bool_decide_eq_true in Hst.
  - congruence.
Qed.


Lemma filter_nil_existsb {A} (f : A → bool) (l : list A) :
  List.filter f l = [] → existsb f l = false.
Proof.
  induction l as [|x l IH]; simpl; [done|].
  destruct (f x); [done|]. exact IH.
Qed.

Lemma existsb_true_filter {A} (f : A → bool) (l : list A) :
  (1 <= length (List.filter f l))%nat → existsb f l = true.
Proof.
  induction l as [|x l IH]; simpl; [lia|].
  destruct (f x); simpl; [done|]. exact IH.
Qed.

(** The first line that satisfies [f]. *)
Lemma first_occurrence {A} (f : A → bool) (l : list A) :
  (1 <= length (List.filter f l))%nat →
  ∃ j x, l !! j = Some x ∧ f x = true ∧ List.filter f (take j l) = [].
Proof.
  induction l as [|y l IH]; simpl; [lia|].
  destruct (f y) eqn:Ey; simpl.
  - intros _. by exists 0%nat, y.
  - intros H. destruct (IH H) as (j & x & Hj & Hx & Hnone).
    exists (S j), x. simpl. by rewrite Ey.
Qed.

(** The second line that satisfies [f]: exactly one line above it does. *)
Lemma second_occurrence {A} (f : A → bool) (l : list A) :
  (2 <= length (List.filter f l))%nat →
  ∃ j x, l !! j = Some x ∧ f x = true ∧ length (List.filter f (take j l)) = 1%nat.
Proof.
  induction l as [|y l IH]; simpl; [lia|].
  destruct (f y) eqn:Ey; simpl.
  - intros H. destruct (first_occurrence f l) as (j & x & Hj & Hx & Hnone); [lia|].
    exists (S j), x. simpl. by rewrite Ey, Hnone.
  - intros H. destruct (IH H) as (j & x & Hj & Hx & Hone).
    exists (S j), x. simpl. by rewrite Ey.
Qed.

Lemma filter_take_prefix {A} (f : A → bool) (l : list A) i j x :
  (i < j)%nat → l !! i = Some x → f x = true →
  (S (length (List.filter f (take i l))) <= length (List.filter f (take j l)))%nat.
Proof.
  revert i j. induction l as [|y l IH]; intros i j Hij Hi Hx; [done|].
  destruct j as [|j]; [lia|]. destruct i as [|i]; simpl in *.
  - injection Hi as ->. rewrite Hx. simpl. lia.
  - specialize (IH i j ltac:(lia) Hi Hx). destruct (f y); simpl; lia.
Qed.

Lemma existsb_take_false {A} (f : A → bool) (l : list A) j :
  (∀ i x, (i < j)%nat → l !! i = Some x → f x = false) →
  existsb f (take j l) = false.
Proof.
  revert j. induction l as [|y l IH]; intros [|j] H; simpl; try done.
  rewrite (H 0%nat y) by (simpl; done || lia). simpl.
  apply IH. intros i x Hi Hx. apply (H (S i) x); [lia|done].
Qed.

(** A line that starts with the key of a rule falls under that rule. *)
Lemma find_rule_independent rs r l :
  independent rs = true → r ∈ rs → starts_with (fst r) l = true →
  find_rule rs l = Some r.
Proof.
  induction rs as [|r0 rs IH]; intros Hind Hin Hl; [by apply elem_of_nil in Hin|].
  simpl in Hind. apply andb_prop in Hind as [Hr0 Hind].
  unfold find_rule. simpl.
  apply elem_of_cons in Hin as [->|Hin]; [by rewrite Hl|].
  rewrite forallb_forall in Hr0.
  specialize (Hr0 r (proj1 (list_elem_of_In _ _) Hin)).
  apply andb_prop in Hr0 as [Hd _].
  destruct (starts_with (fst r0) l) eqn:E0.
  - by rewrite (diverge_excl _ _ _ Hd E0) in Hl.
  - by apply IH.
Qed.

(** With two lines that start with a key whose value does not start with
    it, the second application rewrites the second of them. *)
Lemma apply_rules_lines_second_pass rs r ls :
  independent rs = true → r ∈ rs →
  forallb (λ r', negb (starts_with (fst r) (snd r'))) rs = true →
  (2 <= occurrences (fst r) ls)%nat →
  apply_rules_lines rs (apply_rules_lines rs ls) ≠ apply_rules_lines rs ls.
Proof.
  intros Hind Hin Hvals Htwo Heq. destruct r as [k v]. simpl in *.
  assert (Hval : ∀ r', r' ∈ rs → starts_with k (snd r') = false).
  { rewrite forallb_forall in Hvals. intros r' Hr'.
    apply negb_true_iff, Hvals. by apply list_elem_of_In. }
  destruct (second_occurrence _ _ Htwo) as (j & l & Hj & Hl & Hone).
  (* the second line is kept by the first pass *)
  assert (Hkept : apply_rules_lines rs ls !! j = Some l).
  { rewrite lookup_apply_rules_lines, Hj by done. simpl. f_equal.
    unfold rewritten_line. rewrite (find_rule_independent rs (k, v) l) by done.
    rewrite existsb_true_filter; [done|lia]. }
  (* above it, nothing starts with the key after the first pass *)
  assert (Habove : existsb (starts_with k) (take j (apply_rules_lines rs ls)) = false).
  { apply existsb_take_false. intros i x Hi.
    rewrite lookup_apply_rules_lines by done.
    destruct (ls !! i) as [li|] eqn:Eli; [|done]. simpl. intros [= <-].
    unfold rewritten_line.
    destruct (starts_with k li) eqn:Eki.
    - rewrite (find_rule_independent rs (k, v) li) by done.
      pose proof (filter_take_prefix _ _ _ _ _ Hi Eli Eki) as Hle.
      rewrite filter_nil_existsb.
      + by apply (Hval (k, v)).
      + destruct (List.filter (starts_with k) (take i ls)); [done|simpl in *; lia].
    - destruct (find_rule rs li) as [[k' v']|] eqn:Ef; [|done].
      apply find_rule_Some in Ef as [Hin' _].
      destruct (existsb (starts_with k') (take i ls)); [done|].
      by apply (Hval (k', v')). }
  (* so the second pass rewrites it *)
  assert (Hsecond : apply_rules_lines rs (apply_rules_lines rs ls) !! j = Some v).
  { rewrite lookup_apply_rules_lines, Hkept by done. simpl. f_equal.
    unfold rewritten_line. rewrite (find_rule_independent rs (k, v) l) by done.
    by rewrite Habove. }
  rewrite Heq, Hkept in Hsecond. injection Hsecond as ->.
  pose proof (Hval (k, v) Hin) as Hv. simpl in Hv. congruence.
Qed.

Lemma lines_apply_rules rs s :
  single_line_rules rs = true →
  lines (fold_left apply_rule rs s) = apply_rules_lines rs (lines s).
Proof.
  unfold apply_rules_lines. revert s.
  induction rs as [|[key v] rs IH]; intros s Hs; simpl; [done|].
  simpl in Hs. apply andb_prop in Hs as [[Hk Hv]%andb_prop Hs].
  rewrite (IH _ Hs). unfold apply_rule. simpl. by rewrite lines_replace_line.
Qed.

Lemma terminators_apply_rules rs s :
  single_line_rules rs = true →
  terminators (fold_left apply_rule rs s) = terminators s.
Proof.
  revert s. induction rs as [|[key v] rs IH]; intros s Hs; simpl; [done|].
  simpl in Hs. apply andb_prop in Hs as [[Hk Hv]%andb_prop Hs].
  rewrite (IH _ Hs). unfold apply_rule. simpl. by rewrite terminators_replace_line.
Qed.

Lemma rewrite_env_fold s : rewrite_env s = fold_left apply_rule Env.rules s.
Proof. reflexivity. Qed.

Lemma lines_rewrite_env s :
  lines (rewrite_env s) = apply_rules_lines Env.rules (lines s).
Proof. rewrite rewrite_env_fold. by apply lines_apply_rules. Qed.

Lemma terminators_rewrite_env s :
  terminators (rewrite_env s) = terminators s.
Proof. rewrite rewrite_env_fold. by apply terminators_apply_rules. Qed.

Lemma text_eq_lines s1 s2 :
  lines s1 = lines s2 → terminators s1 = terminators s2 → s1 = s2.
Proof.
  intros Hl Ht. rewrite <- (join_split_lines s1), <- (join_split_lines s2).
  by rewrite Hl, Ht.
Qed.

(** ** Lemmas on the version detection *)

Lemma split_on_nonempty sep s : split_on sep s ≠ [].
Proof.
  destruct s as [|c s]; simpl; [done|].
  destruct (c =? sep); [done|]. by destruct (split_on sep s).
Qed.

Lemma join_cons sep p ps :
  ps ≠ [] → join sep (p :: ps) = p ++ sep ++ join sep ps.
Proof. by destruct ps. Qed.

(** Splitting on dots, keeping [n] parts and joining them again cuts the
    text in front of the [n]-th dot. *)
Lemma join_take_split_on n s :
  join (lit ".") (take n (split_on Chars.DOT s)) = first_components n s.
Proof.
  revert n. induction s as [|c s IH]; intros [|n]; try done.
  - simpl. by destruct n.
  - cbn [split_on first_components].
    destruct (c =? Chars.DOT) eqn:Ec.
    + cbn [take]. destruct n as [|n]; [done|].
      rewrite join_cons.
      * rewrite IH. by apply N.eqb_eq in Ec as ->.
      * pose proof (split_on_nonempty Chars.DOT s).
        by destruct (split_on Chars.DOT s).
    + specialize (IH (S n)).
      pose proof (split_on_nonempty Chars.DOT s) as Hne.
      destruct (split_on Chars.DOT s) as [|p ps]; [done|].
      cbn [take] in *. rewrite <- IH.
      destruct (take n ps); done.
Qed.

Lemma keep_digits_and_dots_none s :
  Forall (λ c, is_digit c = false ∧ c ≠ Chars.DOT) s →
  keep_digits_and_dots s = [].
Proof.
  induction 1 as [|c s [Hd Hdot] _ IH]; [done|].
  unfold keep_digits_and_dots in *. simpl. rewrite Hd, IH.
  by apply N.eqb_neq in Hdot as ->.
Qed.

Lemma image_tag_present c :
  c ≠ [] →
  image_tag (manifest_with c) =
    join (lit ".") (take 2 (split_on Chars.DOT (keep_digits_and_dots c))).
Proof. by destruct c. Qed.


(** ** Lemmas on [path.basename] *)

Lemma basename_suffix_loop_skip suffix cs rest i st :
  Chars.SLASH ∉ cs →
  (bs_extIdx st < 0)%Z →
  bs_firstNonSlashEnd st ≠ (-1)%Z →
  basename_suffix_loop suffix (cs ++ rest) i st =
  basename_suffix_loop suffix rest (i - Z.of_nat (length cs)) st.
Proof.
  revert i. induction cs as [|c cs IH]; intros i Hno Hext Hfirst; simpl.
  - f_equal. lia.
  - apply not_elem_of_cons in Hno as [Hc Hno].
    destruct (N.eqb_spec c Chars.SLASH) as [->|_]; [done|].
    destruct (Z.eqb_spec (bs_firstNonSlashEnd st) (-1)) as [?|_]; [done|].
    destruct (Z.leb_spec 0 (bs_extIdx st)) as [?|_]; [lia|].
    rewrite IH by done. f_equal. lia.
Qed.

(** One turn of the loop on a code unit of the suffix that matches. *)
Lemma basename_suffix_loop_match suffix code codes i st :
  code ≠ Chars.SLASH →
  (0 <= bs_extIdx st)%Z →
  char_code_is suffix (bs_extIdx st) code = true →
  basename_suffix_loop suffix (code :: codes) i st =
  basename_suffix_loop suffix codes (i - 1)
    {| bs_start := bs_start st;
       bs_end := if (bs_extIdx st - 1 =? -1)%Z then i else bs_end st;
       bs_matchedSlash :=
         if (bs_firstNonSlashEnd st =? -1)%Z then false else bs_matchedSlash st;
       bs_extIdx := bs_extIdx st - 1;
       bs_firstNonSlashEnd :=
         if (bs_firstNonSlashEnd st =? -1)%Z then (i + 1)%Z
         else bs_firstNonSlashEnd st |}.
Proof.
  intros Hc Hext Hm. simpl.
  destruct (N.eqb_spec code Chars.SLASH) as [?|_]; [done|].
  destruct (bs_firstNonSlashEnd st =? -1)%Z; simpl;
    destruct (Z.leb_spec 0 (bs_extIdx st)) as [_|?]; try lia; by rewrite Hm.
Qed.

(** The turn on the separator in front of the last component. *)
Lemma basename_suffix_loop_break suffix codes i st :
  bs_matchedSlash st = false →
  basename_suffix_loop suffix (Chars.SLASH :: codes) i st =
  {| bs_start := i + 1; bs_end := bs_end st; bs_matchedSlash := bs_matchedSlash st;
     bs_extIdx := bs_extIdx st; bs_firstNonSlashEnd := bs_firstNonSlashEnd st |}.
Proof. intros H. simpl. by rewrite H. Qed.

Lemma slice_middle (a b c : jsstring) :
  slice (a ++ b ++ c) (Z.of_nat (length a)) (Z.of_nat (length a + length b)) = b.
Proof.
  unfold slice. rewrite !length_app.
  destruct (Z.ltb_spec (Z.of_nat (length a)) 0) as [?|_]; [lia|].
  destruct (Z.ltb_spec (Z.of_nat (length a + length b)) 0) as [?|_]; [lia|].
  rewrite Z.min_l, Z.min_l by lia.
  rewrite Nat2Z.id.
  replace (Z.to_nat (Z.of_nat (length a + length b) - Z.of_nat (length a)))
    with (length b) by lia.
  rewrite drop_app_length. by rewrite take_app_length.
Qed.


(** ** Lemmas on computations *)

Section Emits.
Context {sys : System}.
Variable P : event → Prop.
Local Open Scope M_scope.

Lemma emits_nothing {A} (m : M sys A) :
  (∀ w, trace (m w).2 = trace w) → emits P m.
Proof. intros H w. exists []. by rewrite H, app_nil_r. Qed.

Lemma emits_ret {A} (a : A) : emits P (ret (sys:=sys) a).
Proof. by apply emits_nothing. Qed.

Lemma emits_throw {A} e : emits P (throw (sys:=sys) (A:=A) e).
Proof. by apply emits_nothing. Qed.

Lemma emits_process_exit {A} c : emits P (process_exit (sys:=sys) (A:=A) c).
Proof. by apply emits_nothing. Qed.

Lemma emits_bind {A B} (m : M sys A) (k : A → M sys B) :
  emits P m → (∀ a, emits P (k a)) → emits P (bind m k).
Proof.
  intros Hm Hk w. unfold bind. destruct (Hm w) as (n1 & E1 & F1).
  destruct (m w) as [[a|e|c] w1]; simpl in *; [|by eauto..].
  destruct (Hk a w1) as (n2 & E2 & F2). exists (n1 ++ n2).
  rewrite E2, E1, app_assoc. split; [done|]. by apply Forall_app.
Qed.

Lemma emits_try_catch {A} (m : M sys A) (h : exn → M sys A) :
  emits P m → (∀ e, emits P (h e)) → emits P (try_catch m h).
Proof.
  intros Hm Hh w. unfold try_catch. destruct (Hm w) as (n1 & E1 & F1).
  destruct (m w) as [[a|e|c] w1]; simpl in *; [by eauto| |by eauto].
  destruct (Hh e w1) as (n2 & E2 & F2). exists (n1 ++ n2).
  rewrite E2, E1, app_assoc. split; [done|]. by apply Forall_app.
Qed.

Lemma emits_emit e : P e → emits P (emit (sys:=sys) e).
Proof. intros H w. exists [e]. simpl. eauto. Qed.

Lemma emits_when b (m : M sys unit) : emits P m → emits P (when b m).
Proof. destruct b; simpl; [done|]. intros _. apply emits_ret. Qed.

Lemma emits_fail_fs {A} mk e p :
  P (mk (Some e)) → emits P (fail_fs sys (A:=A) mk e p).
Proof.
  intros H. unfold fail_fs. apply emits_bind; [by apply emits_emit|].
  intros _. apply emits_throw.
Qed.

Lemma emits_set_fs fs' e : P e → emits P (set_fs sys fs' e).
Proof. intros H w. exists [e]. simpl. eauto. Qed.

Lemma emits_runCommand command dir :
  (∀ ok, P (Exec command dir ok)) →
  (∀ s, P (ConsoleError (CommandFailedOutput s))) →
  emits P (runCommand (sys:=sys) command dir).
Proof.
  intros H1 H2 w. unfold runCommand.
  destruct (exec sys command dir (fs w) (ext w)) as [[out fs'] ext'].
  destruct (error out); simpl; eauto 6.
Qed.

Lemma emits_runCommand_detached command dir :
  P (Spawn command dir) → emits P (runCommand_detached (sys:=sys) command dir).
Proof. intros H w. exists [Spawn command dir]. simpl. eauto. Qed.

Lemma emits_existsSync p :
  (∀ b, P (FsExists p b)) → emits P (existsSync (sys:=sys) p).
Proof. intros H w. eexists [_]. simpl. eauto. Qed.

Lemma emits_readFileSync p :
  (∀ err, P (FsRead p err)) → emits P (readFileSync (sys:=sys) p).
Proof.
  intros H w. unfold readFileSync.
  destruct (node_at (fs w) p) as [[c|]|]; simpl; eauto.
Qed.

Lemma emits_writeFileSync p c :
  (∀ err, P (FsWrite p c err)) → emits P (writeFileSync (sys:=sys) p c).
Proof.
  intros H w. unfold writeFileSync.
  destruct (node_at (fs w) p) as [[c'|]|]; destruct (parent_error (fs w) p);
    simpl; eauto.
Qed.

Lemma emits_mkdirSync p :
  (∀ err, P (FsMkdir p err)) → emits P (mkdirSync (sys:=sys) p).
Proof.
  intros H w. unfold mkdirSync.
  destruct (node_at (fs w) p) as [n|]; [simpl; by eauto|].
  destruct (parent_error (fs w) p); simpl; eauto.
Qed.

Lemma emits_unlinkSync p :
  (∀ err, P (FsUnlink p err)) → emits P (unlinkSync (sys:=sys) p).
Proof.
  intros H w. unfold unlinkSync.
  destruct (node_at (fs w) p) as [[c'|]|]; simpl; eauto.
Qed.

Lemma emits_readdirSync p :
  (∀ err, P (FsReaddir p err)) → emits P (readdirSync (sys:=sys) p).
Proof.
  intros H w. unfold readdirSync.
  destruct (node_at (fs w) p) as [[c'|]|]; simpl; eauto.
Qed.

Lemma emits_parse_json text : emits P (parse_json (sys:=sys) text).
Proof.
  unfold parse_json. destruct (JSON_parse sys text);
    [apply emits_ret|apply emits_throw].
Qed.
End Emits.

Section Hoare.
Context {sys : System}.
Local Open Scope M_scope.

Lemma hoare_conseq {A} (I I' : world sys → Prop) (m : M sys A)
    (Q Q' : result A → world sys → Prop) :
  hoare I' m Q' → (∀ w, I w → I' w) → (∀ r w, Q' r w → Q r w) → hoare I m Q.
Proof. intros H HI HQ w Hw. apply HQ, H, HI, Hw. Qed.

(** A stage in front of the rest of a [try] block. *)
Lemma hoare_try_bind {A B} (I : world sys → Prop) (m : M sys A)
    (k : A → M sys B) (h : exn → M sys B)
    (J : A → world sys → Prop) (K : exn → world sys → Prop)
    (Q : result B → world sys → Prop) :
  hoare I m (λ r w, match r with
                    | Ret a => J a w
                    | Throw e => K e w
                    | Exit c => Q (Exit c) w
                    end) →
  (∀ a, hoare (J a) (try_catch (k a) h) Q) →
  (∀ e, hoare (K e) (h e) Q) →
  hoare I (try_catch (bind m k) h) Q.
Proof.
  intros Hm Hk Hh w Hw. specialize (Hm w Hw).
  unfold try_catch, bind in *.
  destruct (m w) as [[a|e|c] w1]; simpl in *.
  - apply (Hk a w1 Hm).
  - apply (Hh e w1 Hm).
  - done.
Qed.

Lemma hoare_bind {A B} (I : world sys → Prop) (m : M sys A)
    (k : A → M sys B) (J : A → world sys → Prop)
    (Q : result B → world sys → Prop) :
  hoare I m (λ r w, match r with
                    | Ret a => J a w
                    | Throw e => Q (Throw e) w
                    | Exit c => Q (Exit c) w
                    end) →
  (∀ a, hoare (J a) (k a) Q) →
  hoare I (bind m k) Q.
Proof.
  intros Hm Hk w Hw. specialize (Hm w Hw). unfold bind.
  destruct (m w) as [[a|e|c] w1]; simpl in *; [by apply Hk|done..].
Qed.

Lemma hoare_existsSync (I : world sys → Prop) p :
  hoare I (existsSync p)
    (λ r w', ∃ w, I w ∧
       r = Ret (exists_at (fs w) p) ∧
       fs w' = fs w ∧ ext w' = ext w ∧
       trace w' = trace w ++ [FsExists p (exists_at (fs w) p)]).
Proof. intros w Hw. exists w. by simpl. Qed.

(** A computation whose events all satisfy [P] keeps every property of
    the trace that such events cannot break. *)
Lemma hoare_frame {A} (P : event → Prop) (Inv : list event → Prop) (m : M sys A) :
  emits P m →
  (∀ tr new, Inv tr → Forall P new → Inv (tr ++ new)) →
  hoare (λ w, Inv (trace w)) m (λ _ w, Inv (trace w)).
Proof.
  intros Hm Hst w Hw. destruct (Hm w) as (new & -> & HP). by apply Hst.
Qed.

Lemma hoare_frame_stage {A} (P : event → Prop) (Inv : list event → Prop)
    (m : M sys A) (Q : result A → world sys → Prop) :
  emits P m →
  (∀ tr new, Inv tr → Forall P new → Inv (tr ++ new)) →
  (∀ r w, Inv (trace w) → Q r w) →
  hoare (λ w, Inv (trace w)) m Q.
Proof.
  intros Hm Hst HQ. eapply hoare_conseq; [by apply (hoare_frame P Inv)|done|].
  simpl. eauto.
Qed.
Lemma hoare_try_catch {A} (I : world sys → Prop) (m : M sys A)
    (h : exn → M sys A) (K : exn → world sys → Prop)
    (Q : result A → world sys → Prop) :
  hoare I m (λ r w, match r with Throw e => K e w | _ => Q r w end) →
  (∀ e, hoare (K e) (h e) Q) →
  hoare I (try_catch m h) Q.
Proof.
  intros Hm Hh w Hw. specialize (Hm w Hw). unfold try_catch.
  destruct (m w) as [[a|e|c] w1]; simpl in *; [done| |done].
  by apply Hh.
Qed.


End Hoare.

Lemma Forall_stable {A} (P : A → Prop) (tr new : list A) :
  Forall P tr → Forall P new → Forall P (tr ++ new).
Proof. intros. by apply Forall_app. Qed.

(** One step along the structure of a computation; [side] proves that an
    event is allowed. *)
Ltac emits_step side :=
  lazymatch goal with
  | |- emits _ (bind _ _) => apply emits_bind; [|intros ?]
  | |- emits _ (try_catch _ _) => apply emits_try_catch; [|intros ?]
  | |- emits _ (ret _) => apply emits_ret
  | |- emits _ (throw _) => apply emits_throw
  | |- emits _ (process_exit _) => apply emits_process_exit
  | |- emits _ (when _ _) => apply emits_when
  | |- emits _ (console_error _) => apply emits_emit; side
  | |- emits _ (console_warn _) => apply emits_emit; side
  | |- emits _ (runCommand _ _) => apply emits_runCommand; intros ?; side
  | |- emits _ (runCommand_detached _ _) => apply emits_runCommand_detached; side
  | |- emits _ (checkCommandExist _) => unfold checkCommandExist
  | |- emits _ (existsSync _) => apply emits_existsSync; intros ?; side
  | |- emits _ (readFileSync _) => apply emits_readFileSync; intros ?; side
  | |- emits _ (writeFileSync _ _) => apply emits_writeFileSync; intros ?; side
  | |- emits _ (mkdirSync _) => apply emits_mkdirSync; intros ?; side
  | |- emits _ (unlinkSync _) => apply emits_unlinkSync; intros ?; side
  | |- emits _ (readdirSync _) => apply emits_readdirSync; intros ?; side
  | |- emits _ (parse_json _) => apply emits_parse_json
  | |- emits _ (if ?b then _ else _) => destruct b
  | |- emits _ (match ?x with _ => _ end) => destruct x
  end.


(** Two paths below the same directory that differ, and two command
    lines that differ in their fixed part. *)
Ltac differ H :=
  first
    [ discriminate H
    | exfalso; apply (f_equal length) in H; unfold path_join in H;
      rewrite ?length_app in H; simpl in H; lia
    | exfalso; unfold path_join in H; rewrite <- ?app_assoc in H;
      apply app_inv_head in H; vm_compute in H; discriminate H
    | exfalso; vm_compute in H; discriminate H ].

Ltac emits_stage :=
  lazymatch goal with
  | |- emits _ (check_docker _) => unfold check_docker
  | |- emits _ (clone_repository _ _ _) => unfold clone_repository
  | |- emits _ (determine_php_version _ _) => unfold determine_php_version
  | |- emits _ (install_dependencies _ _) => unfold install_dependencies
  | |- emits _ (setup_env _ _) => unfold setup_env
  | |- emits _ (check_artisan _ _) => unfold check_artisan
  | |- emits _ (debug_container _ _ _) => unfold debug_container
  | |- emits _ (configure_sqlite _ _) => unfold configure_sqlite
  | |- emits _ (generate_key_and_migrate _ _ _) => unfold generate_key_and_migrate
  | |- emits _ (cleanup_composer _ _) => unfold cleanup_composer
  | |- emits _ (remove_leftovers _ _) => unfold remove_leftovers
  | |- emits _ (on_rejected _ _ _) => unfold on_rejected
  end.

Ltac emits_program side :=
  cbv zeta; repeat (first [emits_stage | emits_step side]; cbv beta zeta).

(** ** The working directory and the clone command *)

Section Clone.
Variable sys : System.
Variable url : jsstring.
Variable repoDir : path.

Lemma clone_free_found_not_cloned tr :
  Forall (clone_free url repoDir) tr → (found_not_cloned url repoDir) tr.
Proof.
  intros H Hin. rewrite Forall_forall in H. by destruct (H _ Hin) as [_ []].
Qed.

Lemma found_not_cloned_stable tr new :
  (found_not_cloned url repoDir) tr → Forall (clone_free url repoDir) new → (found_not_cloned url repoDir) (tr ++ new).
Proof.
  intros Htr Hnew. rewrite Forall_forall in Hnew.
  intros [Hin|Hin]%elem_of_app; [|by destruct (Hnew _ Hin) as [_ []]].
  intros e [He|He]%elem_of_app; [by apply Htr|by apply Hnew].
Qed.

Lemma clone_repository_found_not_cloned :
  hoare (λ w, Forall (clone_free url repoDir) (trace w)) (clone_repository sys url repoDir)
        (λ _ w, (found_not_cloned url repoDir) (trace w)).
Proof.
  unfold clone_repository.
  apply hoare_bind with
    (J := λ b w', ∃ tr, Forall (clone_free url repoDir) tr ∧ trace w' = tr ++ [FsExists repoDir b]).
  { eapply hoare_conseq;
      [apply (hoare_existsSync (λ w, Forall (clone_free url repoDir) (trace w)))|by intros|].
    intros r w' (w & Hw & -> & _ & _ & E). eauto. }
  intros [|]; simpl.
  - intros w' (tr & Htr & E). simpl. rewrite E. rewrite Forall_forall in Htr.
    intros _ e [He| ->%list_elem_of_singleton]%elem_of_app; [by apply Htr|].
    by intros [].
  - eapply hoare_conseq.
    + apply (hoare_frame (λ e, e ≠ FsExists repoDir true)
               (λ tr, FsExists repoDir true ∉ tr)).
      * emits_program ltac:(done).
      * intros tr new Htr Hnew [?|Hin]%elem_of_app; [done|].
        rewrite Forall_forall in Hnew. by apply (Hnew _ Hin).
    + intros w' (tr & Htr & ->). rewrite Forall_forall in Htr.
      intros [Hin|Hin%list_elem_of_singleton]%elem_of_app; [|done].
      by destruct (Htr _ Hin) as [_ []].
    + intros r w' Hno Hin. by destruct Hno.
Qed.
End Clone.

(** The clone step in a world where the working directory exists: the
    test, and nothing else. *)
Lemma clone_repository_found sys url repoDir (w : world sys) :
  exists_at (fs w) repoDir = true →
  clone_repository sys url repoDir w =
    (Ret tt, {| fs := fs w; ext := ext w;
                trace := trace w ++ [FsExists repoDir true] |}).
Proof.
  intros H. unfold clone_repository, bind, existsSync. by rewrite H.
Qed.


Ltac clone_side :=
  unfold clone_free; simpl; split; intros H; first [contradiction | differ H].

Lemma program_found_not_cloned sys url :
  hoare (λ w, Forall (clone_free url (repoDir_of sys url)) (trace w))
        (program sys (Some url))
        (λ _ w, found_not_cloned url (repoDir_of sys url) (trace w)).
Proof.
  unfold program, main, given_url, repoDir_of.
  destruct (truthy url); unfold setup, on_rejected, remove_leftovers; cbv zeta;
    generalize (resolve (cwd sys) (repoName url)); intros repoDir.
  - generalize (repoName url). intros name.
    apply hoare_try_bind with
      (J := λ _ w, Forall (clone_free url repoDir) (trace w))
      (K := λ _ w, Forall (clone_free url repoDir) (trace w)).
    + apply (hoare_frame_stage (clone_free url repoDir)).
      * emits_program clone_side.
      * apply Forall_stable.
      * intros [] w Hw; auto using clone_free_found_not_cloned.
    + intros _.
      apply hoare_try_bind with
        (J := λ _ w, found_not_cloned url repoDir (trace w))
        (K := λ _ w, found_not_cloned url repoDir (trace w)).
      * eapply hoare_conseq; [apply clone_repository_found_not_cloned|done|].
        by intros [].
      * intros _. apply (hoare_frame_stage (clone_free url repoDir)).
        -- emits_program clone_side.
        -- apply found_not_cloned_stable.
        -- done.
      * intros e. apply (hoare_frame_stage (clone_free url repoDir)).
        -- emits_program clone_side.
        -- apply found_not_cloned_stable.
        -- done.
    + intros e. apply (hoare_frame_stage (clone_free url repoDir)).
      * emits_program clone_side.
      * apply Forall_stable.
      * auto using clone_free_found_not_cloned.
  - apply (hoare_frame_stage (clone_free url repoDir)).
    + emits_program clone_side.
    + apply Forall_stable.
    + auto using clone_free_found_not_cloned.
Qed.

(** ** The rejection handler *)

Lemma node_at_path_join fs d name :
  node_at fs (path_join d name) = fs !! path_join d name.
Proof. unfold path_join. by destruct d. Qed.

Section Handler.
Variable sys : System.
Variable url : jsstring.

Lemma helper_ne_phar : (helper_of sys url) ≠ (phar_of sys url).
Proof. intros H. unfold helper_of, phar_of in H. differ H. Qed.

(** What the handler's [try] block leaves, case by case. *)
Lemma remove_leftovers_fs w :
  let w' := (remove_leftovers sys (Some url) w).2 in
  match fs w !! (phar_of sys url) with
  | Some Dir => fs w' = fs w
  | _ =>
      match fs w !! (helper_of sys url) with
      | Some (File _) => fs w' = delete (helper_of sys url) (delete (phar_of sys url) (fs w))
      | _ => fs w' = delete (phar_of sys url) (fs w)
      end
  end.
Proof.
  pose proof helper_ne_phar as Hne.
  unfold remove_leftovers, phar_of, helper_of, repoDir_of in *.
  generalize dependent (resolve (cwd sys) (repoName url)). intros baseDir Hne.
  unfold bind, existsSync, when, unlinkSync, fail_fs, set_fs, emit, throw, ret,
    exists_at.
  rewrite !node_at_path_join.
  destruct (fs w !! path_join baseDir "composer.phar") as [[c|]|] eqn:Ep;
    destruct (fs w !! path_join baseDir "composer-setup.php") as [[c'|]|] eqn:Eh;
    repeat (progress (simpl;
              rewrite ?node_at_path_join, ?lookup_delete_ne, ?Ep, ?Eh by done));
    rewrite ?(delete_id (fs w) (path_join baseDir "composer.phar")) by done;
    reflexivity.
Qed.

Lemma remove_leftovers_no_exit w c :
  (remove_leftovers sys (Some url) w).1 ≠ Exit c.
Proof.
  unfold remove_leftovers.
  unfold bind, existsSync, when, unlinkSync, fail_fs, set_fs, emit, throw, ret.
  repeat (simpl; case_match; simplify_eq); simpl; done.
Qed.

Lemma on_rejected_run err w :
  let w0 := {| fs := fs w; ext := ext w;
               trace := trace w ++ [ConsoleError (SetupError err)] |} in
  on_rejected sys (Some url) err w =
    (Exit 1, (remove_leftovers sys (Some url) w0).2).
Proof.
  intros w0. unfold on_rejected, console_error, emit. unfold bind at 1.
  fold w0. unfold bind, try_catch, process_exit, ret.
  pose proof (remove_leftovers_no_exit w0) as Hne.
  destruct (remove_leftovers sys (Some url) w0) as [[[]|e|c] w1]; simpl in *;
    try done.
  by destruct (Hne c).
Qed.

Lemma on_rejected_exit err w : (on_rejected sys (Some url) err w).1 = Exit 1.
Proof. by rewrite on_rejected_run. Qed.

Lemma on_rejected_fs err w :
  fs (on_rejected sys (Some url) err w).2 =
  fs (remove_leftovers sys (Some url) w).2.
Proof.
  rewrite on_rejected_run. cbn [snd].
  set (w0 := {| fs := fs w; ext := ext w; trace := _ |}).
  pose proof (remove_leftovers_fs w) as H1.
  pose proof (remove_leftovers_fs w0) as H2. cbv zeta in *.
  change (fs w0) with (fs w) in H2.
  destruct (fs w !! (phar_of sys url)) as [[c|]|]; try congruence;
    destruct (fs w !! (helper_of sys url)) as [[c'|]|]; congruence.
Qed.

(** After the handler no file is left at the path of the downloaded
    executable. *)
Lemma on_rejected_removes_phar err w c :
  fs (on_rejected sys (Some url) err w).2 !! (phar_of sys url) ≠ Some (File c).
Proof.
  rewrite on_rejected_fs. pose proof (remove_leftovers_fs w) as H. cbv zeta in H.
  pose proof helper_ne_phar.
  destruct (fs w !! (phar_of sys url)) as [[c0|]|] eqn:Ep.
  - destruct (fs w !! (helper_of sys url)) as [[c'|]|]; rewrite H;
      rewrite ?lookup_delete_ne by done; by rewrite lookup_delete_eq.
  - by rewrite H, Ep.
  - destruct (fs w !! (helper_of sys url)) as [[c'|]|]; rewrite H;
      rewrite ?lookup_delete_ne by done; by rewrite lookup_delete_eq.
Qed.

End Handler.

Section HandlerEvents.
Variable sys : System.
Variable url : jsstring.

(** The events of the handler, by what is at the two paths. *)
Lemma on_rejected_events err w :
  ext (on_rejected sys (Some url) err w).2 = ext w
  ∧ trace (on_rejected sys (Some url) err w).2 =
    trace w ++ ConsoleError (SetupError err) ::
      match fs w !! phar_of sys url with
      | Some Dir =>
          [FsExists (phar_of sys url) true;
           FsUnlink (phar_of sys url) (Some EISDIR)]
      | at_phar =>
          match at_phar with
          | Some _ => [FsExists (phar_of sys url) true;
                       FsUnlink (phar_of sys url) None]
          | None => [FsExists (phar_of sys url) false]
          end ++
          match fs w !! helper_of sys url with
          | Some (File _) => [FsExists (helper_of sys url) true;
                              FsUnlink (helper_of sys url) None]
          | Some Dir => [FsExists (helper_of sys url) true;
                         FsUnlink (helper_of sys url) (Some EISDIR)]
          | None => [FsExists (helper_of sys url) false]
          end
      end.
Proof.
  rewrite on_rejected_run. cbn [snd].
  pose proof (helper_ne_phar sys url) as Hne.
  unfold remove_leftovers, phar_of, helper_of, repoDir_of in *.
  generalize dependent (resolve (cwd sys) (repoName url)). intros baseDir Hne.
  unfold bind, existsSync, when, unlinkSync, fail_fs, set_fs, emit, throw, ret,
    exists_at.
  cbn [fs ext trace]. rewrite !node_at_path_join.
  destruct (fs w !! path_join baseDir "composer.phar") as [[c|]|] eqn:Ep;
    destruct (fs w !! path_join baseDir "composer-setup.php") as [[c'|]|] eqn:Eh;
    repeat (progress (unfold bind; cbn [fst snd fs ext trace];
              rewrite ?node_at_path_join, ?lookup_delete_ne, ?Ep, ?Eh by done));
    rewrite <- ?app_assoc; done.
Qed.
End HandlerEvents.

(** ** The entry-point file *)

Section Artisan.
Variable sys : System.
Variable repoDir : path.

Lemma listed_mono tr new : (listed repoDir) tr → (listed repoDir) (tr ++ new).
Proof.
  intros (err & Hin & Hp). exists err. split; [set_solver|].
  intros Hnone. destruct (Hp Hnone) as [files ?]. exists files. set_solver.
Qed.

Lemma aborted_stable tr new :
  (aborted repoDir) tr → Forall (before_artisan repoDir) new → (aborted repoDir) (tr ++ new).
Proof.
  intros [Hf Hl] Hnew. split; [|by apply listed_mono].
  apply Forall_app. split; [done|].
  eapply Forall_impl; [exact Hnew|]. by intros e (? & ? & _).
Qed.

Lemma check_artisan_spec :
  hoare (λ w, Forall (before_artisan repoDir) (trace w)) (check_artisan sys repoDir)
    (λ r w, match r with
            | Ret _ => (artisan_missing repoDir) ∉ trace w
            | Throw _ => (aborted repoDir) (trace w)
            | Exit _ => False
            end).
Proof.
  unfold check_artisan. cbv zeta.
  apply hoare_bind with
    (J := λ b w', ∃ tr, Forall (before_artisan repoDir) tr
                        ∧ trace w' = tr ++ [FsExists (path_join repoDir "artisan") b]).
  { eapply hoare_conseq;
      [apply (hoare_existsSync (λ w, Forall (before_artisan repoDir) (trace w)))|by intros|].
    intros r w' (w & Hw & -> & _ & _ & E). eauto. }
  intros [|]; simpl.
  - intros w' (tr & Htr & E). simpl. rewrite E. rewrite Forall_forall in Htr.
    intros [Hin|Hin%list_elem_of_singleton]%elem_of_app; [|done].
    by destruct (Htr _ Hin) as (_ & _ & []).
  - intros w' (tr & Htr & E).
    assert (Hpre : Forall no_framework_command (trace w')).
    { rewrite E. apply Forall_app. split.
      - eapply Forall_impl; [exact Htr|]. by intros e (? & ? & _).
      - repeat constructor; by intros []. }
    assert (Hcmd : ∀ evs, Forall no_framework_command evs →
              Forall no_framework_command (trace w' ++ evs)).
    { intros evs Hevs. by apply Forall_app. }
    unfold bind, console_error, emit, readdirSync, fail_fs, throw, ret, bind.
    simpl. destruct (node_at (fs w') repoDir) as [[c|]|]; simpl;
      rewrite <- ?app_assoc; simpl.
    all: split;
      [ apply Hcmd; repeat (apply Forall_cons_2; [split; by intros []|]);
        apply Forall_nil_2
      | eexists; split;
        [ apply elem_of_app; right; solve [repeat constructor]
        | intros Hn; first
            [ discriminate Hn
            | eexists; apply elem_of_app; right; solve [repeat constructor] ] ] ].
Qed.

Lemma not_missing_stable tr new :
  (artisan_missing repoDir) ∉ tr → Forall (after_artisan repoDir) new → (artisan_missing repoDir) ∉ tr ++ new.
Proof.
  intros Htr Hnew [?|Hin]%elem_of_app; [done|].
  rewrite Forall_forall in Hnew. by apply (Hnew _ Hin).
Qed.

Lemma before_artisan_not_missing tr :
  Forall (before_artisan repoDir) tr → (artisan_missing repoDir) ∉ tr.
Proof.
  intros H Hin. rewrite Forall_forall in H. by destruct (H _ Hin) as (_ & _ & []).
Qed.
End Artisan.

(** The entry-point check in a world where the file is missing and the
    working directory can be read. *)
Lemma check_artisan_missing sys repoDir (w : world sys) :
  exists_at (fs w) (path_join repoDir "artisan") = false →
  node_at (fs w) repoDir = Some Dir →
  check_artisan sys repoDir w =
    (Throw ArtisanMissing,
     {| fs := fs w; ext := ext w;
        trace := trace w ++
          [ FsExists (path_join repoDir "artisan") false;
            ConsoleError ArtisanNotFound;
            ConsoleError (ExpectedAt (path_join repoDir "artisan"));
            FsReaddir repoDir None;
            ConsoleError (FilesInRepo (entries (fs w) repoDir)) ] |}).
Proof.
  intros Hmissing Hdir.
  unfold check_artisan, bind, existsSync, console_error, emit, readdirSync, throw, ret.
  cbv zeta. rewrite Hmissing. simpl. rewrite Hdir. simpl.
  by rewrite <- !app_assoc.
Qed.

Lemma hoare_on_rejected {sys} (P : event → Prop) (Inv : list event → Prop)
    (Q : result unit → world sys → Prop) url err :
  emits P (on_rejected sys (Some url) err) →
  (∀ tr new, Inv tr → Forall P new → Inv (tr ++ new)) →
  (∀ w, Inv (trace w) → Q (Exit 1) w) →
  hoare (λ w, Inv (trace w)) (on_rejected sys (Some url) err) Q.
Proof.
  intros Hem Hst HQ w Hw. rewrite on_rejected_exit. apply HQ.
  by apply (hoare_frame P Inv _ Hem Hst w).
Qed.

Ltac artisan_side :=
  unfold before_artisan, after_artisan; simpl;
  repeat split; intros H; first [contradiction | differ H].

(** A stage in front of the rest of the [try] block that keeps [Inv]. *)
Ltac frame_stage P Inv :=
  apply hoare_try_bind with
    (J := λ _ w, Inv (trace w)) (K := λ _ w, Inv (trace w));
  [ apply (hoare_frame_stage P Inv) | intros ? | intros ? ].

Lemma program_artisan sys url :
  hoare (λ w, Forall (before_artisan (repoDir_of sys url)) (trace w))
        (program sys (Some url))
        (λ r w, artisan_missing (repoDir_of sys url) ∈ trace w →
                exit_code r = 1%Z ∧ aborted (repoDir_of sys url) (trace w)).
Proof.
  unfold program, main, given_url, repoDir_of.
  destruct (truthy url); unfold setup; cbv zeta.
  2: { unfold on_rejected, remove_leftovers; cbv zeta.
       generalize (resolve (cwd sys) (repoName url)); intros repoDir.
       apply (hoare_frame_stage (before_artisan repoDir)).
       - emits_program artisan_side.
       - apply Forall_stable.
       - intros r w Hw Hin. by apply before_artisan_not_missing in Hw. }
  assert (Hh : ∀ e,
    hoare (λ w, Forall (before_artisan (resolve (cwd sys) (repoName url))) (trace w))
      (on_rejected sys (Some url) e)
      (λ r w, artisan_missing (resolve (cwd sys) (repoName url)) ∈ trace w →
              exit_code r = 1%Z ∧ aborted (resolve (cwd sys) (repoName url)) (trace w))).
  { intros e. unfold on_rejected, remove_leftovers. cbv zeta.
    generalize (resolve (cwd sys) (repoName url)); intros repoDir.
    apply (hoare_frame_stage (before_artisan repoDir)).
    - emits_program artisan_side.
    - apply Forall_stable.
    - intros r w Hw Hin. by apply before_artisan_not_missing in Hw. }
  assert (Hab : ∀ e,
    hoare (λ w, aborted (resolve (cwd sys) (repoName url)) (trace w))
      (on_rejected sys (Some url) e)
      (λ r w, artisan_missing (resolve (cwd sys) (repoName url)) ∈ trace w →
              exit_code r = 1%Z ∧ aborted (resolve (cwd sys) (repoName url)) (trace w))).
  { intros e.
    apply (hoare_on_rejected (before_artisan (resolve (cwd sys) (repoName url)))).
    - unfold on_rejected, remove_leftovers. cbv zeta.
      generalize (resolve (cwd sys) (repoName url)); intros repoDir.
      emits_program artisan_side.
    - apply aborted_stable.
    - by intros w Hw _. }
  assert (Hnm : ∀ e,
    hoare (λ w, artisan_missing (resolve (cwd sys) (repoName url)) ∉ trace w)
      (on_rejected sys (Some url) e)
      (λ r w, artisan_missing (resolve (cwd sys) (repoName url)) ∈ trace w →
              exit_code r = 1%Z ∧ aborted (resolve (cwd sys) (repoName url)) (trace w))).
  { intros e. unfold on_rejected, remove_leftovers. cbv zeta.
    generalize (resolve (cwd sys) (repoName url)); intros repoDir.
    apply (hoare_frame_stage (after_artisan repoDir)
             (λ tr, artisan_missing repoDir ∉ tr)).
    - emits_program artisan_side.
    - apply not_missing_stable.
    - by intros r w Hw Hin. }
  revert Hh Hab Hnm.
  generalize (on_rejected sys (Some url)). intros h.
  generalize (resolve (cwd sys) (repoName url)); intros repoDir.
  generalize (repoName url). intros name Hh Hab Hnm.
  assert (Hvac : ∀ (r : result unit) (w : world sys),
            Forall (before_artisan repoDir) (trace w) →
            artisan_missing repoDir ∈ trace w →
            exit_code r = 1%Z ∧ aborted repoDir (trace w)).
  { intros r w Hw Hin. by apply before_artisan_not_missing in Hw. }
  frame_stage (before_artisan repoDir) (Forall (before_artisan repoDir));
    [emits_program artisan_side | apply Forall_stable
    | intros [] w Hw; auto | | apply Hh].
  frame_stage (before_artisan repoDir) (Forall (before_artisan repoDir));
    [emits_program artisan_side | apply Forall_stable
    | intros [] w Hw; auto | | apply Hh].
  frame_stage (before_artisan repoDir) (Forall (before_artisan repoDir));
    [emits_program artisan_side | apply Forall_stable
    | intros [] w Hw; auto | | apply Hh].
  frame_stage (before_artisan repoDir) (Forall (before_artisan repoDir));
    [emits_program artisan_side | apply Forall_stable
    | intros [] w Hw; auto | | apply Hh].
  frame_stage (before_artisan repoDir) (Forall (before_artisan repoDir));
    [emits_program artisan_side | apply Forall_stable
    | intros [] w Hw; auto | | apply Hh].
  apply hoare_try_bind with
    (J := λ _ w, artisan_missing repoDir ∉ trace w)
    (K := λ _ w, aborted repoDir (trace w)).
  - eapply hoare_conseq; [apply check_artisan_spec|by intros|].
    intros [] w; simpl; done.
  - intros _.
    apply hoare_try_catch with (K := λ _ w, artisan_missing repoDir ∉ trace w);
      [|apply Hnm].
    apply (hoare_frame_stage (after_artisan repoDir)
             (λ tr, artisan_missing repoDir ∉ tr)).
    + emits_program artisan_side.
    + apply not_missing_stable.
    + by intros [] w Hw.
  - apply Hab.
Qed.

(** ** The migration *)

Section Migration.
Variable sys : System.
Variable repoDir : path.
Variable name : jsstring.


End Migration.





(** ** What the configuration step does to the database file *)

Section Keeps.
Context {sys : System}.
Variable q : path.

Lemma keeps_same_fs {A} (m : M sys A) :
  (∀ w, fs (m w).2 = fs w) → keeps q m.
Proof. intros H w. by rewrite H. Qed.

Lemma keeps_ret {A} (a : A) : keeps q (ret (sys:=sys) a).
Proof. by apply keeps_same_fs. Qed.

Lemma keeps_bind {A B} (m : M sys A) (k : A → M sys B) :
  keeps q m → (∀ a, keeps q (k a)) → keeps q (bind m k).
Proof.
  intros Hm Hk w. unfold bind. specialize (Hm w).
  destruct (m w) as [[a|e|c] w1]; simpl in *; [|done..].
  by rewrite (Hk a w1).
Qed.

Lemma keeps_when b (m : M sys unit) : keeps q m → keeps q (when b m).
Proof. destruct b; simpl; [done|]. intros _. apply keeps_ret. Qed.

Lemma keeps_existsSync p : keeps q (existsSync (sys:=sys) p).
Proof. by apply keeps_same_fs. Qed.

Lemma keeps_readFileSync p : keeps q (readFileSync (sys:=sys) p).
Proof.
  apply keeps_same_fs. intros w. unfold readFileSync.
  by destruct (node_at (fs w) p) as [[c|]|].
Qed.

Lemma keeps_runCommand_detached c d : keeps q (runCommand_detached (sys:=sys) c d).
Proof. by apply keeps_same_fs. Qed.

Lemma keeps_writeFileSync p c : p ≠ q → keeps q (writeFileSync (sys:=sys) p c).
Proof.
  intros Hne w. unfold writeFileSync.
  destruct (node_at (fs w) p) as [[c'|]|]; destruct (parent_error (fs w) p);
    simpl; rewrite ?lookup_insert_ne by done; done.
Qed.

Lemma keeps_mkdirSync p : p ≠ q → keeps q (mkdirSync (sys:=sys) p).
Proof.
  intros Hne w. unfold mkdirSync.
  destruct (node_at (fs w) p) as [n|]; [done|].
  destruct (parent_error (fs w) p); simpl; rewrite ?lookup_insert_ne by done; done.
Qed.
End Keeps.

Section Database.
Variable sys : System.
Variable repoDir : path.

Lemma hoare_kept {A} n tr0 (m : M sys A) :
  keeps (sqlite_of repoDir) m → emits (not_written repoDir) m →
  hoare ((database_kept sys repoDir) n tr0) m (λ _ w, (database_kept sys repoDir) n tr0 w).
Proof.
  intros Hk He w (Hfs & new & Htr & Hnew). split; [by rewrite Hk|].
  destruct (He w) as (new' & -> & Hnew'). exists (new ++ new').
  rewrite Htr, app_assoc. split; [done|]. by apply Forall_app.
Qed.

Lemma configure_sqlite_kept n tr0 :
  hoare ((database_kept sys repoDir) n tr0) (configure_sqlite sys repoDir)
        (λ _ w, (database_kept sys repoDir) n tr0 w).
Proof.
  unfold configure_sqlite. cbv zeta. fold (sqlite_of repoDir).
  apply hoare_bind with (J := λ _ w, (database_kept sys repoDir) n tr0 w).
  { eapply hoare_conseq; [apply hoare_kept|by intros|by intros []].
    - apply keeps_existsSync.
    - apply emits_existsSync. by intros b []. }
  intros found.
  apply hoare_bind with (J := λ _ w, (database_kept sys repoDir) n tr0 w).
  { eapply hoare_conseq; [apply hoare_kept|by intros|by intros []].
    - apply keeps_when, keeps_mkdirSync. unfold sqlite_of. intros H. differ H.
    - apply emits_when, emits_mkdirSync. by intros err []. }
  intros _.
  apply hoare_bind with (J := λ b w, (database_kept sys repoDir) n tr0 w ∧ b = true).
  { intros w Hw. simpl. split.
    - destruct Hw as (Hfs & new & Htr & Hnew). split; [done|].
      exists (new ++ [FsExists (sqlite_of repoDir) (exists_at (fs w) (sqlite_of repoDir))]).
      rewrite Htr, app_assoc. split; [done|].
      apply Forall_app. split; [done|]. apply Forall_cons_2; [by intros []|done].
    - destruct Hw as (Hfs & _). unfold exists_at, sqlite_of in *.
      by rewrite node_at_path_join, Hfs. }
  intros b.
  eapply hoare_conseq with (I' := λ w, (database_kept sys repoDir) n tr0 w ∧ b = true)
    (Q' := λ _ w, (database_kept sys repoDir) n tr0 w); [|done|done].
  intros w [Hw ->]. revert w Hw. simpl.
  change (hoare ((database_kept sys repoDir) n tr0)
    (bind (ret tt) (λ _,
       bind (readFileSync (path_join repoDir ".env")) (λ envContent,
         bind (writeFileSync (path_join repoDir ".env") (rewrite_env envContent))
           (λ _, runCommand_detached Cmd.touch (Some (path_join repoDir "database"))))))
    (λ _ w, (database_kept sys repoDir) n tr0 w)).
  apply hoare_kept.
  - repeat (first [apply keeps_bind; [|intros ?] | apply keeps_ret
                  | apply keeps_readFileSync | apply keeps_runCommand_detached
                  | apply keeps_writeFileSync; unfold sqlite_of; intros H; differ H ]).
  - emits_program ltac:(unfold not_written, sqlite_of; simpl; intros H;
                        first [contradiction | differ H]).
Qed.
End Database.

(** * The claims *)

(** C1.  The rewrite of the environment file, read line by line (a line
    ends at a line feed, a carriage return, U+2028 or U+2029, as for the
    regular expressions of the source): the table of the six keys and
    their fixed values is [Env.rules]; line [i] of the result is the value
    of a key when line [i] of the input starts with that key and no
    earlier line does, and is line [i] of the input otherwise; line
    terminators and the number of lines are those of the input, so nothing
    is inserted for a key that heads no line. *)
Theorem rewrite_env_by_lines (s : jsstring) :
  Env.rules =
    [ (lit "DB_CONNECTION=", lit "DB_CONNECTION=sqlite");
      (lit "DB_DATABASE=", lit "DB_DATABASE=/database/database.sqlite");
      (lit "DB_HOST=", lit "# DB_HOST=");
      (lit "DB_PORT=", lit "# DB_PORT=");
      (lit "DB_USERNAME=", lit "DB_USERNAME=");
      (lit "DB_PASSWORD=", lit "DB_PASSWORD=") ]
  ∧ rewrite_env s = join_lines (lines (rewrite_env s)) (terminators s)
  ∧ terminators (rewrite_env s) = terminators s
  ∧ length (lines (rewrite_env s)) = length (lines s)
  ∧ ∀ i, lines (rewrite_env s) !! i
         = rewritten_line Env.rules (take i (lines s)) <$> lines s !! i.
Proof.
  split; [reflexivity|]. split.
  { by rewrite <- (terminators_rewrite_env s), join_split_lines. }
  split; [apply terminators_rewrite_env|].
  rewrite lines_rewrite_env. split; [apply length_apply_rules_lines|].
  intros i. by apply lookup_apply_rules_lines.
Qed.

(** C4, as the claim states it, fails: with two lines for [DB_HOST] the
    first run comments out the first one and the second run the other. *)
Lemma rewrite_env_twice_differs :
  rewrite_env (rewrite_env (lit "DB_HOST=a
DB_HOST=b")) ≠ rewrite_env (lit "DB_HOST=a
DB_HOST=b").
Proof. vm_compute. discriminate. Qed.

(** C4, amended.  Rewriting twice gives what rewriting once gives
    exactly on the contents with at most one line that starts with
    [DB_HOST=] and at most one that starts with [DB_PORT=].  On every
    content, a line [DB_CONNECTION=sqlite], [# DB_HOST=] or [# DB_PORT=]
    is left as it is. *)
Theorem rewrite_env_idempotent (s : jsstring) :
  (rewrite_env (rewrite_env s) = rewrite_env s
   ↔ (occurrences Env.DB_HOST (lines s) <= 1)%nat
     ∧ (occurrences Env.DB_PORT (lines s) <= 1)%nat)
  ∧ ∀ i l,
      l ∈ [lit "DB_CONNECTION=sqlite"; lit "# DB_HOST="; lit "# DB_PORT="] →
      lines s !! i = Some l → lines (rewrite_env s) !! i = Some l.
Proof.
  split; [split|].
  - intros Heq.
    assert (Hlines : apply_rules_lines Env.rules (apply_rules_lines Env.rules (lines s))
                     = apply_rules_lines Env.rules (lines s)).
    { by rewrite <- !lines_rewrite_env, Heq. }
    split; apply Nat.nlt_ge; intros Htwo.
    + apply (apply_rules_lines_second_pass Env.rules (Env.DB_HOST, lit "# DB_HOST=")
               (lines s)) in Hlines; try done.
      repeat constructor.
    + apply (apply_rules_lines_second_pass Env.rules (Env.DB_PORT, lit "# DB_PORT=")
               (lines s)) in Hlines; try done.
      repeat constructor.
  - intros [Hhost Hport].
    apply text_eq_lines; [|by rewrite !terminators_rewrite_env].
    rewrite !lines_rewrite_env.
    apply apply_rules_lines_idempotent; try reflexivity.
    intros [key v] Hin Hv. simpl in *.
    repeat (apply elem_of_cons in Hin as [[= -> ->]|Hin]);
      try done; by apply elem_of_nil in Hin.
  - intros i l Hl Hi. rewrite lines_rewrite_env, lookup_apply_rules_lines by done.
    rewrite Hi. simpl. f_equal.
    repeat (apply elem_of_cons in Hl as [->|Hl]);
      [| | |by apply elem_of_nil in Hl]; unfold rewritten_line.
    + change (find_rule Env.rules (lit "DB_CONNECTION=sqlite"))
        with (Some (Env.DB_CONNECTION, lit "DB_CONNECTION=sqlite")).
      cbv beta iota.
      by destruct (existsb (starts_with Env.DB_CONNECTION) (take i (lines s))).
    + done.
    + done.
Qed.

(** C2, as the claim states it, fails on a constraint that is present and
    empty: the source tests the constraint for truthiness, so it takes the
    default there, where filtering, splitting and joining give the empty
    tag. *)
Lemma image_tag_of_empty_constraint :
  image_tag (manifest_with []) = lit "8.2"
  ∧ join (lit ".") (take 2 (split_on Chars.DOT (keep_digits_and_dots []))) = []
  ∧ image_tag (manifest_with []) ≠
      join (lit ".") (take 2 (split_on Chars.DOT (keep_digits_and_dots []))).
Proof. repeat split. vm_compute. discriminate. Qed.

(** C2, amended.  For a constraint that is not the empty string the tag
    is what is left of the digits and dots of the constraint when it is
    split on dots and the first two parts are joined by a dot, that is
    its text in front of the second dot; [^8.2] gives [8.2] and [8.1.30]
    gives [8.1]; without the field, and with the empty string, the tag is
    the default [8.2]. *)
Theorem image_tag_of_constraint (c : jsstring) (Hc : c ≠ []) :
  image_tag (manifest_with c)
    = join (lit ".") (take 2 (split_on Chars.DOT (keep_digits_and_dots c)))
  ∧ image_tag (manifest_with c) = first_components 2 (keep_digits_and_dots c)
  ∧ image_tag (manifest_with (lit "^8.2")) = lit "8.2"
  ∧ image_tag (manifest_with (lit "8.1.30")) = lit "8.1"
  ∧ image_tag {| require := None |} = lit "8.2"
  ∧ image_tag {| require := Some {| php := None |} |} = lit "8.2"
  ∧ image_tag (manifest_with []) = lit "8.2".
Proof.
  rewrite image_tag_present by done.
  split; [done|]. split; [apply join_take_split_on|]. repeat split.
Qed.

Lemma image_tag_of_constraint_witness :
  image_tag (manifest_with (lit "^8.3")) = lit "8.3".
Proof.
  destruct (image_tag_of_constraint (lit "^8.3")) as [H _]; [by vm_compute|].
  rewrite H. reflexivity.
Defined.

(** C10, as the claim states it, fails on the empty constraint: it is
    present and holds neither digit nor dot, and yet the default applies
    and the image is [php:8.2-cli]. *)
Lemma empty_constraint_gets_default :
  requiredPHP (manifest_with []) = Some []
  ∧ keep_digits_and_dots [] = []
  ∧ image_tag (manifest_with []) = lit "8.2"
  ∧ image_name (manifest_with []) = lit "php:8.2-cli"
  ∧ image_name (manifest_with []) ≠ lit "php:-cli".
Proof. repeat split. vm_compute. discriminate. Qed.

(** C10, amended.  For a constraint that is present, not empty and
    without any digit or dot (such as [*]) the tag is empty and the image
    is [php:-cli]; the default [8.2] applies when the field is absent or
    holds the empty string. *)
Theorem image_tag_without_digits (c : jsstring) (Hc : c ≠ [])
    (Hnone : Forall (λ ch, is_digit ch = false ∧ ch ≠ Chars.DOT) c) :
  image_tag (manifest_with c) = []
  ∧ image_name (manifest_with c) = lit "php:-cli"
  ∧ image_tag (manifest_with (lit "*")) = []
  ∧ image_tag {| require := None |} = lit "8.2"
  ∧ image_tag {| require := Some {| php := None |} |} = lit "8.2"
  ∧ image_tag (manifest_with []) = lit "8.2".
Proof.
  assert (H : image_tag (manifest_with c) = []).
  { rewrite image_tag_present by done. by rewrite keep_digits_and_dots_none. }
  unfold image_name. rewrite H. repeat split.
Qed.

Lemma image_tag_without_digits_witness :
  image_name (manifest_with (lit "*")) = lit "php:-cli".
Proof.
  apply (image_tag_without_digits (lit "*")); [by vm_compute|].
  repeat constructor; vm_compute; discriminate.
Defined.

(** C7, as the claim states it, fails for the empty name: of a URL that
    ends in [/.git] the whole last component [.git] is kept. *)
Lemma repoName_of_dot_git :
  repoName (lit "https://example.com/project" ++ Chars.SLASH :: [] ++ lit ".git")
    = lit ".git"
  ∧ repoName (lit "https://example.com/project" ++ Chars.SLASH :: [] ++ lit ".git")
    ≠ [].
Proof. split; [reflexivity|]. vm_compute. discriminate. Qed.

(** C8.  In a run started with an empty trace, if the test for the
    working directory found it, no event of the run executes or starts the
    clone command.  The step itself, in a world where the directory
    exists, is that test and nothing more: the directory is taken as it
    is. *)
Theorem existing_directory_is_not_cloned (sys : System) (url : jsstring)
    (w : world sys) (Hstart : trace w = [])
    (Hfound : FsExists (repoDir_of sys url) true
              ∈ trace (laraset sys (Some url) w).2) :
  Forall (λ e, ¬ runs_command (Cmd.git_clone url) e)
         (trace (laraset sys (Some url) w).2)
  ∧ ∀ w' : world sys,
      exists_at (fs w') (repoDir_of sys url) = true →
      clone_repository sys url (repoDir_of sys url) w' =
        (Ret tt, {| fs := fs w'; ext := ext w';
                    trace := trace w' ++ [FsExists (repoDir_of sys url) true] |}).
Proof.
  split; [|apply clone_repository_found].
  apply Forall_forall.
  apply (program_found_not_cloned sys url w); [|done].
  rewrite Hstart. constructor.
Qed.

Lemma existing_directory_is_not_cloned_witness :
  Forall (λ e, ¬ runs_command (Cmd.git_clone Demo.url) e)
         (trace (laraset Demo.sys (Some Demo.url) Demo.start).2).
Proof.
  apply (existing_directory_is_not_cloned Demo.sys Demo.url Demo.start).
  - reflexivity.
  - apply list_elem_of_In. vm_compute. tauto.
Defined.

(** C5.  In a run started with an empty trace, if the test for the
    entry-point file did not find it, the process ends with exit code 1,
    no event of the run executes or starts the key-generation command or
    the migration command, and the working directory was read for the
    diagnostic listing, which was printed if the read succeeded.  The
    step itself, in a world where the file is missing and the working
    directory is a directory, reports the file, prints the entries of the
    directory and throws. *)
Theorem missing_artisan_aborts (sys : System) (url : jsstring)
    (w : world sys) (Hstart : trace w = [])
    (Hmissing : artisan_missing (repoDir_of sys url)
                ∈ trace (laraset sys (Some url) w).2) :
  (laraset sys (Some url) w).1 = 1%Z
  ∧ Forall no_framework_command (trace (laraset sys (Some url) w).2)
  ∧ listed (repoDir_of sys url) (trace (laraset sys (Some url) w).2)
  ∧ ∀ w' : world sys,
      exists_at (fs w') (path_join (repoDir_of sys url) "artisan") = false →
      node_at (fs w') (repoDir_of sys url) = Some Dir →
      check_artisan sys (repoDir_of sys url) w' =
        (Throw ArtisanMissing,
         {| fs := fs w'; ext := ext w';
            trace := trace w' ++
              [ artisan_missing (repoDir_of sys url);
                ConsoleError ArtisanNotFound;
                ConsoleError (ExpectedAt (path_join (repoDir_of sys url) "artisan"));
                FsReaddir (repoDir_of sys url) None;
                ConsoleError (FilesInRepo (entries (fs w') (repoDir_of sys url))) ] |}).
Proof.
  destruct (program_artisan sys url w) as (Hcode & Hcmd & Hlist); [|done|].
  { rewrite Hstart. constructor. }
  repeat split; try done. apply check_artisan_missing.
Qed.

Lemma missing_artisan_aborts_witness :
  (laraset Demo.sys (Some Demo.url)
     (initial_world Demo.sys Demo.files_without_artisan tt)).1 = 1%Z.
Proof.
  apply (missing_artisan_aborts Demo.sys Demo.url
           (initial_world Demo.sys Demo.files_without_artisan tt)).
  - reflexivity.
  - apply list_elem_of_In. vm_compute. tauto.
Defined.



(** C9.  Run in a world where the database file exists, the
    configuration step leaves the entry of that file as it is and none of
    its events writes the file. *)
Theorem existing_database_is_kept (sys : System) (repoDir : path)
    (w : world sys) (n : node)
    (Hexists : fs w !! sqlite_of repoDir = Some n) :
  fs (configure_sqlite sys repoDir w).2 !! sqlite_of repoDir = Some n
  ∧ ∃ new, trace (configure_sqlite sys repoDir w).2 = trace w ++ new
           ∧ Forall (not_written repoDir) new.
Proof.
  apply (configure_sqlite_kept sys repoDir n (trace w) w).
  split; [done|]. exists []. by rewrite app_nil_r.
Qed.

Lemma existing_database_is_kept_witness :
  fs (configure_sqlite Demo.sys Demo.repo
        (initial_world Demo.sys Demo.files_with_database tt)).2
    !! sqlite_of Demo.repo = Some (File (lit "SQLite format 3")).
Proof.
  apply (existing_database_is_kept Demo.sys Demo.repo
           (initial_world Demo.sys Demo.files_with_database tt)).
  vm_compute. reflexivity.
Defined.

(** C7, amended.  For a URL that ends in [/name.git], where [name] is
    not empty and holds no [/], the name of the working directory is
    [name]. *)
Theorem repoName_of_git_url_named (prefix name : jsstring)
    (Hname : name ≠ []) (Hsegment : Chars.SLASH ∉ name) :
  repoName (prefix ++ Chars.SLASH :: name ++ lit ".git") = name.
Proof.
  rename Hname into Hne, Hsegment into Hno. unfold repoName, basename.
  set (url := prefix ++ Chars.SLASH :: name ++ lit ".git").
  assert (Hlen : length url = (length prefix + 1 + length name + 4)%nat).
  { unfold url. rewrite length_app. simpl. rewrite length_app. simpl. lia. }
  assert (Hname : (0 < length name)%nat) by (destruct name; simpl; [done|lia]).
  replace ((0 <? length (lit ".git"))%nat && (length (lit ".git") <=? length url)%nat)
    with true.
  2: { symmetry. apply andb_true_intro. split; [done|].
       apply Nat.leb_le. rewrite Hlen. simpl. lia. }
  rewrite bool_decide_eq_false_2.
  2: { intros H. apply (f_equal length) in H. rewrite Hlen in H. simpl in H. lia. }
  assert (Hrev : rev url = [116; 105; 103; 46] ++ rev name ++ Chars.SLASH :: rev prefix).
  { unfold url. rewrite rev_app_distr. simpl. rewrite rev_app_distr. simpl.
    by rewrite <- !app_assoc. }
  rewrite Hrev. cbn [app].
  set (len := Z.of_nat (length url)).
  assert (Hlen' : len = (Z.of_nat (length prefix) + 1 + Z.of_nat (length name) + 4)%Z)
    by (unfold len; lia).
  assert (Hloop :
    basename_suffix_loop (lit ".git")
      (116 :: 105 :: 103 :: 46 :: rev name ++ Chars.SLASH :: rev prefix) (len - 1)
      {| bs_start := 0; bs_end := -1; bs_matchedSlash := true;
         bs_extIdx := Z.of_nat (length (lit ".git")) - 1;
         bs_firstNonSlashEnd := -1 |} =
    {| bs_start := Z.of_nat (length prefix) + 1; bs_end := len - 4;
       bs_matchedSlash := false; bs_extIdx := -1; bs_firstNonSlashEnd := len |}).
  { change (Z.of_nat (length (lit ".git")) - 1)%Z with 3%Z.
    rewrite basename_suffix_loop_match by done. cbn [bs_start bs_end
      bs_matchedSlash bs_extIdx bs_firstNonSlashEnd]. simpl (_ =? _)%Z.
    replace (len - 1 + 1)%Z with len by lia.
    rewrite basename_suffix_loop_match by done. cbn [bs_start bs_end
      bs_matchedSlash bs_extIdx bs_firstNonSlashEnd]. simpl (2 - 1 =? -1)%Z.
    destruct (Z.eqb_spec len (-1)) as [?|_]; [lia|].
    rewrite basename_suffix_loop_match by done. cbn [bs_start bs_end
      bs_matchedSlash bs_extIdx bs_firstNonSlashEnd]. simpl (2 - 1 - 1 =? -1)%Z.
    destruct (Z.eqb_spec len (-1)) as [?|_]; [lia|].
    rewrite basename_suffix_loop_match by done. cbn [bs_start bs_end
      bs_matchedSlash bs_extIdx bs_firstNonSlashEnd]. simpl (2 - 1 - 1 - 1 =? -1)%Z.
    destruct (Z.eqb_spec len (-1)) as [?|_]; [lia|].
    rewrite basename_suffix_loop_skip; [|by rewrite list_elem_of_In, <- in_rev, <- list_elem_of_In|simpl; lia|simpl; lia].
    rewrite basename_suffix_loop_break by done. simpl.
    rewrite length_rev. f_equal; lia. }
  rewrite Hloop. cbn [bs_start bs_end bs_firstNonSlashEnd].
  destruct (Z.eqb_spec (Z.of_nat (length prefix) + 1) (len - 4)) as [?|_]; [lia|].
  destruct (Z.eqb_spec (len - 4) (-1)) as [?|_]; [lia|].
  replace (Z.of_nat (length prefix) + 1)%Z
    with (Z.of_nat (length (prefix ++ [Chars.SLASH])))
    by (rewrite length_app; simpl; lia).
  replace (len - 4)%Z
    with (Z.of_nat (length (prefix ++ [Chars.SLASH]) + length name))
    by (rewrite length_app; simpl; lia).
  replace url with ((prefix ++ [Chars.SLASH]) ++ name ++ lit ".git")
    by (unfold url; by rewrite <- app_assoc).
  apply slice_middle.
Qed.

Lemma repoName_of_git_url_named_witness :
  repoName (lit "https://example.com" ++ Chars.SLASH :: lit "demo" ++ lit ".git")
    = lit "demo".
Proof.
  apply (repoName_of_git_url_named (lit "https://example.com") (lit "demo")).
  - by vm_compute.
  - intros H. apply list_elem_of_In in H. vm_compute in H.
    repeat destruct H as [H|H]; try discriminate H. done.
Defined.

(** C6, as the claim states it, fails on the success path: a run that
    ends with exit code 0 leaves the installer helper where it was, and a
    run in which every command succeeds but the executable is not there
    to be unlinked ends with exit code 1. *)
Lemma helper_survives_success :
  (laraset Demo.sys (Some Demo.url) Demo.start).1 = 0%Z
  ∧ fs (laraset Demo.sys (Some Demo.url) Demo.start).2
      !! helper_of Demo.sys Demo.url = Some (File (lit "<?php"))
  ∧ (laraset (Demo.sys_with false true) (Some Demo.url)
       (initial_world (Demo.sys_with false true) Demo.files tt)).1 = 1%Z.
Proof. vm_compute. repeat split. Qed.

(** C6, amended.  The failure handler always ends the process with exit
    code 1, whatever its unlinkings do.  It attempts to unlink the
    downloaded executable exactly when something is at its path, and the
    installer helper exactly when something is at its path and the path
    of the executable is not a directory: a directory there makes the
    first unlinking throw, the error is swallowed, and the helper is left
    as it is.  So after the handler no regular file is left at the path
    of the executable, nor, unless that path is a directory, at the path
    of the helper; no unlinking is attempted where nothing is; a
    directory is never removed, no other path is changed, and the outer
    state is as it was.  The success path unlinks the executable only,
    without a guard: the unlinking throws when there is no regular file
    to unlink, the handler then ends the run with exit code 1, and the
    installer helper is not touched. *)
Theorem cleanup_on_both_paths (sys : System) (url : jsstring) (err : exn)
    (w : world sys) :
  (on_rejected sys (Some url) err w).1 = Exit 1
  ∧ (∀ c, fs (on_rejected sys (Some url) err w).2 !! phar_of sys url ≠ Some (File c))
  ∧ (fs w !! phar_of sys url ≠ Some Dir →
     ∀ c, fs (on_rejected sys (Some url) err w).2 !! helper_of sys url ≠ Some (File c))
  ∧ (fs w !! phar_of sys url = Some Dir →
     fs (on_rejected sys (Some url) err w).2 = fs w)
  ∧ (fs w !! phar_of sys url = None → fs w !! helper_of sys url = None →
     fs (on_rejected sys (Some url) err w).2 = fs w)
  ∧ (∀ p, p ≠ phar_of sys url → p ≠ helper_of sys url →
          fs (on_rejected sys (Some url) err w).2 !! p = fs w !! p)
  ∧ (∀ p, fs w !! p = Some Dir →
          fs (on_rejected sys (Some url) err w).2 !! p = Some Dir)
  ∧ ext (on_rejected sys (Some url) err w).2 = ext w
  ∧ (∃ new, trace (on_rejected sys (Some url) err w).2 = trace w ++ new
      ∧ ∀ p, (∃ e, FsUnlink p e ∈ new)
             ↔ (p = phar_of sys url ∧ fs w !! phar_of sys url ≠ None)
               ∨ (p = helper_of sys url ∧ fs w !! helper_of sys url ≠ None
                  ∧ fs w !! phar_of sys url ≠ Some Dir))
  ∧ match fs w !! phar_of sys url with
    | Some (File _) =>
        cleanup_composer sys (repoDir_of sys url) w =
          (Ret tt, {| fs := delete (phar_of sys url) (fs w); ext := ext w;
                      trace := trace w ++ [FsUnlink (phar_of sys url) None] |})
    | Some Dir =>
        (cleanup_composer sys (repoDir_of sys url) w).1
          = Throw (FsError EISDIR (phar_of sys url))
    | None =>
        (cleanup_composer sys (repoDir_of sys url) w).1
          = Throw (FsError ENOENT (phar_of sys url))
    end
  ∧ fs (cleanup_composer sys (repoDir_of sys url) w).2 !! helper_of sys url
    = fs w !! helper_of sys url
  ∧ (try_catch (cleanup_composer sys (repoDir_of sys url))
       (on_rejected sys (Some url)) w).1
    = if file_at (fs w) (phar_of sys url) then Ret tt else Exit 1.
Proof.
  pose proof (helper_ne_phar sys url) as Hne.
  pose proof (remove_leftovers_fs sys url w) as Hfs. cbv zeta in Hfs.
  destruct (on_rejected_events sys url err w) as [Hext Htr].
  split; [apply on_rejected_exit|].
  split; [intros c; apply on_rejected_removes_phar|].
  rewrite on_rejected_fs.
  assert (Hcleanup :
    cleanup_composer sys (repoDir_of sys url) w =
      match fs w !! phar_of sys url with
      | Some (File _) =>
          set_fs sys (delete (phar_of sys url) (fs w))
            (FsUnlink (phar_of sys url) None) w
      | Some Dir => fail_fs sys (FsUnlink (phar_of sys url)) EISDIR (phar_of sys url) w
      | None => fail_fs sys (FsUnlink (phar_of sys url)) ENOENT (phar_of sys url) w
      end).
  { unfold cleanup_composer, unlinkSync. fold (phar_of sys url).
    unfold phar_of at 1. by rewrite node_at_path_join. }
  assert (Hhandled :
    (try_catch (cleanup_composer sys (repoDir_of sys url))
       (on_rejected sys (Some url)) w).1
    = if file_at (fs w) (phar_of sys url) then Ret tt else Exit 1).
  { unfold try_catch, file_at. rewrite Hcleanup.
    destruct (fs w !! phar_of sys url) as [[c0|]|]; [done|..];
      unfold fail_fs, bind, emit, throw; cbn [fst snd];
      apply on_rejected_exit. }
  rewrite Hcleanup. rewrite Htr. clear Htr.
  assert (Hin : ∀ (p : path) e (evs : list event),
            FsUnlink p e ∈ evs → In (FsUnlink p e) evs).
  { intros p e evs. apply list_elem_of_In. }
  destruct (fs w !! phar_of sys url) as [[c0|]|] eqn:Ep;
    destruct (fs w !! helper_of sys url) as [[c1|]|] eqn:Eh;
    rewrite Hfs; clear Hfs.
  all: split; [try done; intros _ c;
               rewrite ?lookup_delete_eq, ?lookup_delete_ne, ?Eh by done; done|].
  all: split; [try done|].
  all: split; [try done; intros _ _; by rewrite delete_id|].
  all: split; [intros p H1 H2; by rewrite ?lookup_delete_ne by done|].
  all: split; [intros p Hp; try done;
               rewrite ?lookup_delete_ne by congruence; done|].
  all: split; [done|].
  all: split; [eexists; split; [reflexivity|]; intros p; split;
               [intros [e He%Hin]; simpl in He;
                repeat destruct He as [He|He]; try done;
                injection He as <- _;
                first [by left | by right]
               |intros [[-> H]|[-> [H1 H2]]]; try done;
                eexists; apply list_elem_of_In; simpl; eauto 10]|].
  all: split; [done|].
  all: split; [simpl; by rewrite ?lookup_delete_ne|done].
Qed.

(** * Further properties *)

(** ** [runCommand] and [checkCommandExist] *)

Lemma trim_start_split s :
  ∃ pre, s = pre ++ trim_start s ∧ white pre
         ∧ ∀ c, head (trim_start s) = Some c → is_white_space c = false.
Proof.
  induction s as [|c s (pre & E & Hpre & Hhead)]; simpl.
  - exists []. repeat split; [constructor|done].
  - destruct (is_white_space c) eqn:Ec.
    + exists (c :: pre). simpl. rewrite <- E. repeat split; [by constructor|done].
    + exists []. repeat split; [constructor|]. simpl. by intros ? [= <-].
Qed.

Lemma last_rev {A} (l : list A) : last (rev l) = head l.
Proof. destruct l; simpl; [done|]. by rewrite last_snoc. Qed.

Lemma trim_split s :
  ∃ pre post, s = pre ++ trim s ++ post ∧ white pre ∧ white post
    ∧ (∀ c, head (trim s) = Some c → is_white_space c = false)
    ∧ (∀ c, last (trim s) = Some c → is_white_space c = false).
Proof.
  unfold trim.
  destruct (trim_start_split s) as (pre & E1 & Hpre & Hhead).
  destruct (trim_start_split (rev (trim_start s))) as (post & E2 & Hpost & Hlast).
  exists pre, (rev post). 
  assert (E3 : trim_start s = rev (trim_start (rev (trim_start s))) ++ rev post).
  { rewrite <- rev_app_distr, <- E2. by rewrite rev_involutive. }
  split; [by rewrite <- E3|]. split; [done|]. split.
  { by apply Forall_rev. }
  split.
  - intros c Hc. apply Hhead. rewrite E3.
    destruct (rev (trim_start (rev (trim_start s)))); [done|]. done.
  - intros c Hc. apply Hlast. by rewrite last_rev in Hc.
Qed.

(** X1.  [runCommand] rejects exactly when the command reported an error,
    and then with the message of that error, a line feed, [STDERR: ] and
    what the command wrote to its standard error; otherwise it resolves to
    the standard output of the command without the white space at both
    ends: what is cut off is white space only, and what is left neither
    starts nor ends with white space. *)
Theorem runCommand_outcome (sys : System) (command : jsstring)
    (dir : option path) (w : world sys) :
  match error (exec sys command dir (fs w) (ext w)).1.1 with
  | Some msg =>
      (runCommand command dir w).1 =
        Throw (CommandError
                 (msg ++ [Chars.LF] ++ lit "STDERR: "
                      ++ stderr (exec sys command dir (fs w) (ext w)).1.1))
  | None =>
      ∃ value pre post,
        (runCommand command dir w).1 = Ret value
        ∧ stdout (exec sys command dir (fs w) (ext w)).1.1 = pre ++ value ++ post
        ∧ white pre ∧ white post
        ∧ (∀ c, head value = Some c → is_white_space c = false)
        ∧ (∀ c, last value = Some c → is_white_space c = false)
  end.
Proof.
  unfold runCommand.
  destruct (exec sys command dir (fs w) (ext w)) as [[out fs'] ext']. simpl.
  destruct (error out) as [msg|]; simpl; [done|].
  destruct (trim_split (stdout out)) as (pre & post & H).
  by exists (trim (stdout out)), pre, post.
Qed.

(** X2.  [checkCommandExist] never throws and never ends the process: it
    returns [true] when [which] reported no error and [false] when it
    reported one, and leaves the world as [which] left it. *)
Theorem checkCommandExist_never_throws (sys : System) (command : jsstring)
    (w : world sys) :
  (checkCommandExist command w).1 =
    Ret (match error (exec sys (Cmd.which command) None (fs w) (ext w)).1.1 with
         | None => true
         | Some _ => false
         end)
  ∧ fs (checkCommandExist command w).2
    = (exec sys (Cmd.which command) None (fs w) (ext w)).1.2
  ∧ ext (checkCommandExist command w).2
    = (exec sys (Cmd.which command) None (fs w) (ext w)).2.
Proof.
  unfold checkCommandExist, try_catch, bind, runCommand, Cmd.which.
  destruct (exec sys (lit "which " ++ command) None (fs w) (ext w))
    as [[out fs'] ext']. simpl.
  by destruct (error out).
Qed.

(** ** The tag of the image *)

Lemma Forall_first_components (P : N → Prop) n s :
  Forall P s → Forall P (first_components n s).
Proof.
  intros H. revert n. induction H as [|c s Hc _ IH]; intros [|n]; simpl; try done.
  destruct (c =? Chars.DOT).
  - destruct n; [done|]. by constructor.
  - constructor; [done|]. apply (IH (S n)).
Qed.

Lemma dots_first_components n s : (dots (first_components (S n) s) ≤ n)%nat.
Proof.
  unfold dots. revert n. induction s as [|c s IH]; intros n; simpl; [lia|].
  destruct (c =? Chars.DOT) eqn:Ec.
  - destruct n; simpl; [lia|]. rewrite Ec. simpl. specialize (IH n). lia.
  - simpl. rewrite Ec. apply IH.
Qed.

Lemma image_tag_first_components d :
  image_tag d = first_components 2 (phpVersion (requiredPHP d)).
Proof. apply join_take_split_on. Qed.

Lemma keep_digits_and_dots_app a b :
  keep_digits_and_dots (a ++ b) = keep_digits_and_dots a ++ keep_digits_and_dots b.
Proof. unfold keep_digits_and_dots. apply List.filter_app. Qed.

Lemma first_components_all n s : (dots s ≤ n)%nat → first_components (S n) s = s.
Proof.
  unfold dots. revert n. induction s as [|c s IH]; intros n; simpl; [done|].
  destruct (c =? Chars.DOT) eqn:Ec; simpl.
  - destruct n; [lia|]. intros H. rewrite IH by lia. done.
  - intros H. by rewrite IH.
Qed.

(** X3.  Whatever the manifest holds, the tag of the image consists of
    digits and dots, holds at most one dot, and is left as it is when it is
    truncated again. *)
Theorem image_tag_shape (composerData : ComposerData) :
  Forall (λ c, is_digit c = true ∨ c = Chars.DOT) (image_tag composerData)
  ∧ (dots (image_tag composerData) ≤ 1)%nat
  ∧ majorVersion (image_tag composerData) = image_tag composerData.
Proof.
  assert (Hdots : (dots (image_tag composerData) ≤ 1)%nat).
  { rewrite image_tag_first_components. apply dots_first_components. }
  split; [|split; [done|]].
  2: { unfold majorVersion at 1. rewrite join_take_split_on.
       by apply first_components_all. }
  rewrite image_tag_first_components.
  apply Forall_first_components. unfold phpVersion.
  assert (Hdef : Forall (λ c, is_digit c = true ∨ c = Chars.DOT) (lit "8.2")).
  { repeat (apply Forall_cons_2; [first [by left | by right]|]).
    apply Forall_nil_2. }
  destruct (requiredPHP composerData) as [c|]; [|done].
  destruct (truthy c); [|done].
  apply Forall_forall. intros x Hx. apply list_elem_of_In in Hx.
  apply filter_In in Hx as [_ Hx].
  apply orb_true_iff in Hx as [?|?%N.eqb_eq]; auto.
Qed.

(** X4.  What stands between the numbers of a constraint is dropped
    before the constraint is split: a constraint with several alternatives
    gets the tag of the alternatives run together ([^7.4|^8.0] gives
    [7.48]). *)
Theorem image_tag_ignores_separators (a sep b : jsstring)
    (Ha : a ≠ []) (Hsep : Forall dropped sep) :
  image_tag (manifest_with (a ++ sep ++ b)) = image_tag (manifest_with (a ++ b)).
Proof.
  rewrite !image_tag_present by (by destruct a).
  rewrite !keep_digits_and_dots_app.
  by rewrite (keep_digits_and_dots_none sep).
Qed.

Lemma image_tag_ignores_separators_witness :
  image_tag (manifest_with (lit "^7.4" ++ lit "|^" ++ lit "8.0")) = lit "7.48".
Proof.
  rewrite (image_tag_ignores_separators (lit "^7.4") (lit "|^") (lit "8.0")).
  - reflexivity.
  - by vm_compute.
  - repeat constructor; vm_compute; discriminate.
Defined.

(** ** The name of the working directory *)

Lemma rev_reverse {A} (l : list A) : rev l = reverse l.
Proof. induction l as [|x l IH]; [done|]. by rewrite reverse_cons, <- IH. Qed.

Lemma suffix_rev_prefix {A} (a b : list A) :
  a `suffix_of` b ↔ rev a `prefix_of` rev b.
Proof. rewrite !rev_reverse. apply suffix_prefix_reverse. Qed.

Lemma rev_replicate {A} n (x : A) : rev (replicate n x) = replicate n x.
Proof. by rewrite rev_reverse, reverse_replicate. Qed.

(** The separators at the end of the path are passed over. *)
Lemma basename_suffix_loop_slashes suffix n rest i st :
  bs_matchedSlash st = true →
  basename_suffix_loop suffix (replicate n Chars.SLASH ++ rest) i st
  = basename_suffix_loop suffix rest (i - Z.of_nat n) st.
Proof.
  intros H. revert i. induction n as [|n IH]; intros i; simpl.
  - f_equal. lia.
  - rewrite H. simpl. rewrite IH. f_equal. lia.
Qed.

(** The turn on the last code unit of the last component, as far as it
    records where the component ends. *)
Lemma basename_suffix_loop_first suffix code codes i st :
  code ≠ Chars.SLASH → bs_firstNonSlashEnd st = (-1)%Z →
  basename_suffix_loop suffix (code :: codes) i st =
  basename_suffix_loop suffix (code :: codes) i
    {| bs_start := bs_start st; bs_end := bs_end st; bs_matchedSlash := false;
       bs_extIdx := bs_extIdx st; bs_firstNonSlashEnd := (i + 1)%Z |}.
Proof.
  intros Hc Hf. simpl.
  destruct (N.eqb_spec code Chars.SLASH) as [?|_]; [done|].
  rewrite Hf. simpl. by destruct (i + 1 =? -1)%Z.
Qed.

Lemma char_code_is_middle (a b : jsstring) x c :
  char_code_is (a ++ x :: b) (Z.of_nat (length a)) c = (x =? c).
Proof.
  unfold char_code_is.
  destruct (Z.ltb_spec (Z.of_nat (length a)) 0) as [?|_]; [lia|].
  rewrite Nat2Z.id. by rewrite list_lookup_middle.
Qed.

(** The turns on the last component once its end is recorded: the
    suffix still to be matched is [rev t], read backwards as [t]. *)
Lemma basename_suffix_loop_scan t b cs rest i s e ms f :
  Chars.SLASH ∉ cs → f ≠ (-1)%Z →
  basename_suffix_loop (rev t ++ b) (cs ++ rest) i
    {| bs_start := s; bs_end := e; bs_matchedSlash := ms;
       bs_extIdx := Z.of_nat (length t) - 1; bs_firstNonSlashEnd := f |} =
  basename_suffix_loop (rev t ++ b) rest (i - Z.of_nat (length cs))
    (match t with
     | [] => {| bs_start := s; bs_end := e; bs_matchedSlash := ms;
                bs_extIdx := -1; bs_firstNonSlashEnd := f |}
     | _ :: _ =>
         if decide (t `prefix_of` cs) then
           {| bs_start := s; bs_end := i - Z.of_nat (length t) + 1;
              bs_matchedSlash := ms; bs_extIdx := -1; bs_firstNonSlashEnd := f |}
         else if decide (cs `prefix_of` t) then
           {| bs_start := s; bs_end := e; bs_matchedSlash := ms;
              bs_extIdx := Z.of_nat (length t) - 1 - Z.of_nat (length cs);
              bs_firstNonSlashEnd := f |}
         else
           {| bs_start := s; bs_end := f; bs_matchedSlash := ms;
              bs_extIdx := -1; bs_firstNonSlashEnd := f |}
     end)%Z.
Proof.
  intros Hno Hf. revert t b i e Hno.
  induction cs as [|c cs IH]; intros t b i e Hno.
  - cbn [app length]. destruct t as [|x t].
    + f_equal. lia.
    + destruct (decide (x :: t `prefix_of` [])) as [H|_];
        [by apply prefix_nil_not in H|].
      destruct (decide ([] `prefix_of` x :: t)) as [_|H];
        [|destruct H; apply prefix_nil].
      f_equal; [lia|]. f_equal. lia.
  - apply not_elem_of_cons in Hno as [Hc Hno].
    cbn [app basename_suffix_loop].
    destruct (N.eqb_spec c Chars.SLASH) as [?|_]; [done|].
    cbn [bs_firstNonSlashEnd bs_extIdx bs_start bs_end bs_matchedSlash].
    destruct (Z.eqb_spec f (-1)) as [?|_]; [done|].
    cbn [bs_firstNonSlashEnd bs_extIdx bs_start bs_end bs_matchedSlash].
    replace (i - Z.of_nat (length (c :: cs)))%Z
      with (i - 1 - Z.of_nat (length cs))%Z by (cbn [length]; lia).
    destruct t as [|x t].
    + cbn [length]. change (0 <=? Z.of_nat 0 - 1)%Z with false. cbv iota.
      by rewrite (IH [] b).
    + replace (Z.of_nat (length (x :: t)) - 1)%Z with (Z.of_nat (length t))
        by (cbn [length]; lia).
      destruct (Z.leb_spec 0 (Z.of_nat (length t))) as [_|?]; [|lia].
      replace (rev (x :: t) ++ b) with (rev t ++ x :: b)
        by (simpl; by rewrite <- app_assoc).
      rewrite <- (length_rev t) at 1. rewrite char_code_is_middle.
      destruct (N.eqb_spec x c) as [->|Hx].
      * cbn [bs_firstNonSlashEnd bs_extIdx bs_start bs_end bs_matchedSlash].
        destruct t as [|y t].
        -- cbn [length]. change (Z.of_nat 0 - 1 =? -1)%Z with true. cbv iota.
           change (Z.of_nat 0 - 1)%Z with (Z.of_nat (length (@nil N)) - 1)%Z.
           rewrite (IH [] (c :: b)); [|done]. f_equal.
           destruct (decide ([c] `prefix_of` c :: cs)) as [_|H];
             [|destruct H; apply prefix_cons, prefix_nil].
           f_equal. cbn [length]. lia.
        -- destruct (Z.eqb_spec (Z.of_nat (length (y :: t)) - 1) (-1)) as [?|_];
             [cbn [length] in *; lia|].
           rewrite (IH (y :: t) (c :: b)); [|done]. f_equal.
           destruct (decide (y :: t `prefix_of` cs)) as [Hp|Hp].
           ++ destruct (decide (c :: y :: t `prefix_of` c :: cs)) as [_|H];
                [|destruct H; by apply prefix_cons].
              f_equal. cbn [length]. lia.
           ++ destruct (decide (c :: y :: t `prefix_of` c :: cs)) as [H|_];
                [by apply prefix_cons_inv_2 in H|].
              destruct (decide (cs `prefix_of` y :: t)) as [Hq|Hq].
              ** destruct (decide (c :: cs `prefix_of` c :: y :: t)) as [_|H];
                   [|destruct H; by apply prefix_cons].
                 f_equal. cbn [length]. lia.
              ** destruct (decide (c :: cs `prefix_of` c :: y :: t)) as [H|_];
                   [by apply prefix_cons_inv_2 in H|].
                 done.
      * cbn [bs_firstNonSlashEnd bs_extIdx bs_start bs_end bs_matchedSlash].
        pose proof (IH [] (rev t ++ x :: b) (i - 1)%Z f Hno) as H.
        cbn [rev app length] in H. change (Z.of_nat 0 - 1)%Z with (-1)%Z in H.
        rewrite H. f_equal.
        destruct (decide (x :: t `prefix_of` c :: cs)) as [Hp|_];
          [by apply prefix_cons_inv_1 in Hp|].
        destruct (decide (c :: cs `prefix_of` x :: t)) as [Hp|_];
          [by apply prefix_cons_inv_1 in Hp|].
        done.
Qed.

(** The end of the loop: the separator in front of the last component, or
    the start of the path. *)
Lemma basename_suffix_loop_stop suffix prefix e k f :
  prefix = [] ∨ last prefix = Some Chars.SLASH →
  basename_suffix_loop suffix (rev prefix) (Z.of_nat (length prefix) - 1)
    {| bs_start := 0; bs_end := e; bs_matchedSlash := false; bs_extIdx := k;
       bs_firstNonSlashEnd := f |} =
  {| bs_start := Z.of_nat (length prefix); bs_end := e; bs_matchedSlash := false;
     bs_extIdx := k; bs_firstNonSlashEnd := f |}.
Proof.
  intros [->|[p ->]%last_Some]; [done|].
  rewrite rev_app_distr. cbn [rev app]. rewrite basename_suffix_loop_break by done.
  cbn [bs_start bs_end bs_matchedSlash bs_extIdx bs_firstNonSlashEnd].
  f_equal. rewrite length_app. simpl. lia.
Qed.

Lemma basename_plain_loop_slashes n rest i s e :
  basename_plain_loop (replicate n Chars.SLASH ++ rest) i (s, e, true)
  = basename_plain_loop rest (i - Z.of_nat n) (s, e, true).
Proof.
  revert i. induction n as [|n IH]; intros i; simpl.
  - f_equal. lia.
  - rewrite IH. f_equal. lia.
Qed.

Lemma basename_plain_loop_skip cs rest i s e ms :
  Chars.SLASH ∉ cs → e ≠ (-1)%Z →
  basename_plain_loop (cs ++ rest) i (s, e, ms)
  = basename_plain_loop rest (i - Z.of_nat (length cs)) (s, e, ms).
Proof.
  intros Hno He. revert i. induction cs as [|c cs IH]; intros i; simpl.
  - f_equal. lia.
  - apply not_elem_of_cons in Hno as [Hc Hno].
    destruct (N.eqb_spec c Chars.SLASH) as [?|_]; [done|].
    destruct (Z.eqb_spec e (-1)) as [?|_]; [done|].
    rewrite IH by done. f_equal. lia.
Qed.

Lemma basename_plain_loop_stop prefix e :
  prefix = [] ∨ last prefix = Some Chars.SLASH →
  basename_plain_loop (rev prefix) (Z.of_nat (length prefix) - 1) (0%Z, e, false)
  = (Z.of_nat (length prefix), e, false).
Proof.
  intros [->|[p ->]%last_Some]; [done|].
  rewrite rev_app_distr. simpl. f_equal. f_equal. rewrite length_app. simpl. lia.
Qed.

Lemma slice_take (a b c : jsstring) k :
  (k ≤ length b)%nat →
  slice (a ++ b ++ c) (Z.of_nat (length a)) (Z.of_nat (length a + k)) = take k b.
Proof.
  intros Hk.
  pose proof (slice_middle a (take k b) (drop k b ++ c)) as H.
  rewrite length_take_le in H by done.
  by rewrite (app_assoc (take k b)), take_drop in H.
Qed.

Section LastComponent.
Variables prefix seg : jsstring.
Variable n : nat.
Hypothesis Hprefix : prefix = [] ∨ last prefix = Some Chars.SLASH.
Hypothesis Hseg : seg ≠ [].
Hypothesis Hno : Chars.SLASH ∉ seg.

Lemma length_last_component :
  length (prefix ++ seg ++ replicate n Chars.SLASH)
  = (length prefix + length seg + n)%nat.
Proof. rewrite !length_app, length_replicate. lia. Qed.

Lemma rev_last_component :
  rev (prefix ++ seg ++ replicate n Chars.SLASH)
  = replicate n Chars.SLASH ++ rev seg ++ rev prefix.
Proof. by rewrite !rev_app_distr, rev_replicate, <- app_assoc. Qed.

Lemma rev_seg_first : ∃ c cs, rev seg = c :: cs ∧ c ≠ Chars.SLASH.
Proof.
  destruct (rev seg) as [|c cs] eqn:E.
  - apply (f_equal (@rev N)) in E. rewrite rev_involutive in E. done.
  - exists c, cs. split; [done|]. intros ->. apply Hno.
    rewrite list_elem_of_In, in_rev, E. by left.
Qed.

Lemma basename_plain_last_component :
  basename_plain_loop (rev (prefix ++ seg ++ replicate n Chars.SLASH))
    (Z.of_nat (length (prefix ++ seg ++ replicate n Chars.SLASH)) - 1)
    (0%Z, (-1)%Z, true)
  = (Z.of_nat (length prefix), Z.of_nat (length prefix + length seg), false).
Proof.
  rewrite rev_last_component, length_last_component.
  rewrite basename_plain_loop_slashes.
  destruct rev_seg_first as (c & cs & E & Hc). rewrite E.
  assert (Hlen : length seg = S (length cs)).
  { by rewrite <- (length_rev seg), E. }
  assert (Hcs : Chars.SLASH ∉ cs).
  { intros H. apply Hno. rewrite list_elem_of_In, in_rev, E. right.
    by apply list_elem_of_In. }
  cbn [app basename_plain_loop].
  destruct (N.eqb_spec c Chars.SLASH) as [?|_]; [done|].
  simpl (-1 =? -1)%Z. cbv iota.
  rewrite basename_plain_loop_skip by (done || lia).
  replace (Z.of_nat (length prefix + length seg + n) - 1 - Z.of_nat n - 1
           - Z.of_nat (length cs))%Z with (Z.of_nat (length prefix) - 1)%Z by lia.
  rewrite basename_plain_loop_stop by done. f_equal. f_equal. lia.
Qed.

(** The path is shorter than the suffix: the last component as it is. *)
Lemma repoName_short :
  (length (prefix ++ seg ++ replicate n Chars.SLASH) < 4)%nat →
  repoName (prefix ++ seg ++ replicate n Chars.SLASH) = seg.
Proof.
  intros Hlen. unfold repoName, basename.
  replace ((0 <? length (lit ".git"))%nat
           && (length (lit ".git") <=? length (prefix ++ seg ++ replicate n Chars.SLASH))%nat)
    with false.
  2: { symmetry. apply andb_false_intro2. apply Nat.leb_gt. simpl. lia. }
  rewrite basename_plain_last_component.
  destruct (Z.eqb_spec (Z.of_nat (length prefix + length seg)) (-1)) as [?|_]; [lia|].
  apply slice_middle.
Qed.

Lemma basename_suffix_last_component :
  ∃ k,
    basename_suffix_loop (lit ".git")
      (rev (prefix ++ seg ++ replicate n Chars.SLASH))
      (Z.of_nat (length (prefix ++ seg ++ replicate n Chars.SLASH)) - 1)
      {| bs_start := 0; bs_end := -1; bs_matchedSlash := true;
         bs_extIdx := Z.of_nat (length (lit ".git")) - 1;
         bs_firstNonSlashEnd := -1 |} =
    {| bs_start := Z.of_nat (length prefix);
       bs_end :=
         if decide (lit ".git" `suffix_of` seg)
         then Z.of_nat (length prefix + length seg) - 4
         else if decide (seg `suffix_of` lit ".git") then -1
         else Z.of_nat (length prefix + length seg);
       bs_matchedSlash := false; bs_extIdx := k;
       bs_firstNonSlashEnd := Z.of_nat (length prefix + length seg) |}.
Proof.
  rewrite rev_last_component, length_last_component.
  rewrite basename_suffix_loop_slashes by done.
  destruct rev_seg_first as (c & cs & E & Hc).
  assert (Hcs : Chars.SLASH ∉ rev seg).
  { intros H. apply Hno. by rewrite list_elem_of_In, in_rev, <- list_elem_of_In. }
  assert (Hls : length seg = length (c :: cs)).
  { by rewrite <- (length_rev seg), E. }
  assert (Hsuf : lit ".git" `suffix_of` seg ↔ [116; 105; 103; 46] `prefix_of` c :: cs).
  { by rewrite suffix_rev_prefix, E. }
  assert (Hsuf' : seg `suffix_of` lit ".git" ↔ c :: cs `prefix_of` [116; 105; 103; 46]).
  { by rewrite suffix_rev_prefix, E. }
  rewrite E in *. cbn [app].
  rewrite basename_suffix_loop_first by done.
  cbn [bs_start bs_end bs_matchedSlash bs_extIdx bs_firstNonSlashEnd].
  change (lit ".git") with (rev [116; 105; 103; 46] ++ []) at 1.
  change (Z.of_nat (length (lit ".git")) - 1)%Z
    with (Z.of_nat (length [116; 105; 103; 46]) - 1)%Z.
  rewrite (basename_suffix_loop_scan [116; 105; 103; 46] [] (c :: cs) (rev prefix))
    by (done || lia).
  replace (Z.of_nat (length prefix + length seg + n) - 1 - Z.of_nat n
           - Z.of_nat (length (c :: cs)))%Z
    with (Z.of_nat (length prefix) - 1)%Z by lia.
  destruct (decide ([116; 105; 103; 46] `prefix_of` c :: cs)) as [Hp|Hp].
  - destruct (decide (lit ".git" `suffix_of` seg)) as [_|Hn];
      [|by destruct Hn; apply Hsuf].
    rewrite basename_suffix_loop_stop by done. eexists. f_equal.
    + simpl. lia.
    + lia.
  - destruct (decide (lit ".git" `suffix_of` seg)) as [Hn|_];
      [by apply Hsuf in Hn|].
    destruct (decide (c :: cs `prefix_of` [116; 105; 103; 46])) as [Hq|Hq].
    + destruct (decide (seg `suffix_of` lit ".git")) as [_|Hn];
        [|by destruct Hn; apply Hsuf'].
      rewrite basename_suffix_loop_stop by done. eexists. f_equal. lia.
    + destruct (decide (seg `suffix_of` lit ".git")) as [Hn|_];
        [by apply Hsuf' in Hn|].
      rewrite basename_suffix_loop_stop by done. eexists. f_equal; lia.
Qed.

Lemma repoName_long :
  (4 ≤ length (prefix ++ seg ++ replicate n Chars.SLASH))%nat →
  prefix ++ seg ++ replicate n Chars.SLASH ≠ lit ".git" →
  repoName (prefix ++ seg ++ replicate n Chars.SLASH) =
    if decide (lit ".git" `suffix_of` seg) then
      if decide (length seg = 4%nat) then seg else take (length seg - 4) seg
    else if decide (seg `suffix_of` lit ".git") then seg ++ replicate n Chars.SLASH
    else seg.
Proof.
  intros Hlen Hne. unfold repoName, basename.
  replace ((0 <? length (lit ".git"))%nat
           && (length (lit ".git") <=? length (prefix ++ seg ++ replicate n Chars.SLASH))%nat)
    with true.
  2: { symmetry. apply andb_true_intro. split; [done|]. by apply Nat.leb_le. }
  rewrite bool_decide_eq_false_2 by done.
  destruct basename_suffix_last_component as [k ->]. cbv zeta.
  cbn [bs_start bs_end bs_matchedSlash bs_extIdx bs_firstNonSlashEnd].
  assert (Hpos : (0 < length seg)%nat) by (destruct seg; simpl; [done|lia]).
  destruct (decide (lit ".git" `suffix_of` seg)) as [Hp|Hp].
  - assert (H4 : (4 ≤ length seg)%nat).
    { destruct Hp as [a ->]. rewrite length_app. simpl. lia. }
    destruct (decide (length seg = 4%nat)) as [H|H].
    + destruct (Z.eqb_spec (Z.of_nat (length prefix))
                  (Z.of_nat (length prefix + length seg) - 4)) as [_|Hd]; [|lia].
      apply slice_middle.
    + destruct (Z.eqb_spec (Z.of_nat (length prefix))
                  (Z.of_nat (length prefix + length seg) - 4)) as [Hd|_]; [lia|].
      destruct (Z.eqb_spec (Z.of_nat (length prefix + length seg) - 4) (-1))
        as [Hd|_]; [lia|].
      replace (Z.of_nat (length prefix + length seg) - 4)%Z
        with (Z.of_nat (length prefix + (length seg - 4))) by lia.
      apply slice_take. lia.
  - destruct (decide (seg `suffix_of` lit ".git")) as [Hq|Hq].
    + destruct (Z.eqb_spec (Z.of_nat (length prefix)) (-1)) as [Hd|_]; [lia|].
      simpl (-1 =? -1)%Z. cbv iota.
      rewrite length_last_component.
      replace (Z.of_nat (length prefix + length seg + n))
        with (Z.of_nat (length prefix + length (seg ++ replicate n Chars.SLASH)))
        by (rewrite length_app, length_replicate; lia).
      pose proof (slice_middle prefix (seg ++ replicate n Chars.SLASH) []) as H.
      by rewrite app_nil_r in H.
    + destruct (Z.eqb_spec (Z.of_nat (length prefix))
                  (Z.of_nat (length prefix + length seg))) as [Hd|_]; [lia|].
      destruct (Z.eqb_spec (Z.of_nat (length prefix + length seg)) (-1))
        as [Hd|_]; [lia|].
      apply slice_middle.
Qed.
End LastComponent.

(** A path that does not end in a separator ends in a component. *)
Lemma last_component (url : jsstring) :
  url ≠ [] → last url ≠ Some Chars.SLASH →
  ∃ prefix seg, url = prefix ++ seg
    ∧ (prefix = [] ∨ last prefix = Some Chars.SLASH)
    ∧ seg ≠ [] ∧ Chars.SLASH ∉ seg.
Proof.
  induction url as [|c url IH]; [done|]. intros _ Hlast.
  destruct url as [|d url].
  - exists [], [c]. repeat split; [by left|done|].
    intros <-%list_elem_of_singleton. by apply Hlast.
  - destruct IH as (prefix & seg & E & Hp & Hs & Hno); [done|done|].
    rewrite E. destruct (decide (c = Chars.SLASH)) as [->|Hc].
    + exists (Chars.SLASH :: prefix), seg. repeat split; try done.
      right. destruct Hp as [->|Hp]; [done|]. by destruct prefix.
    + destruct Hp as [->|Hp].
      * exists [], (c :: seg). repeat split; [by left|done|].
        intros [?|?]%elem_of_cons; done.
      * exists (c :: prefix), seg. repeat split; try done.
        right. by destruct prefix.
Qed.

Lemma dot_git_separator_free : Chars.SLASH ∉ lit ".git".
Proof.
  apply (bool_decide_eq_false_1 (Chars.SLASH ∈ lit ".git")). by vm_compute.
Qed.

Lemma dot_git_last_component prefix seg n :
  prefix ++ seg ++ replicate n Chars.SLASH = lit ".git" →
  seg `suffix_of` lit ".git".
Proof.
  intros E. destruct n as [|n].
  - rewrite <- E, app_nil_r. by exists prefix.
  - exfalso. apply (f_equal last) in E.
    rewrite replicate_S_end, !app_assoc, last_snoc in E. discriminate E.
Qed.

(** X5.  The name of the working directory for a URL whose last component
    [seg] is not [.git] or an end of it ([git], [it], [t]), whatever comes
    before the component and however many separators follow it: the
    component without [.git] when it ends in [.git], the component itself
    otherwise. *)
Theorem repoName_of_last_component (prefix seg : jsstring) (n : nat)
    (Hprefix : prefix = [] ∨ last prefix = Some Chars.SLASH)
    (Hseg : seg ≠ []) (Hno : Chars.SLASH ∉ seg)
    (Hproper : ¬ seg `suffix_of` lit ".git") :
  (∀ name, seg = name ++ lit ".git" →
     repoName (prefix ++ seg ++ replicate n Chars.SLASH) = name)
  ∧ (¬ lit ".git" `suffix_of` seg →
     repoName (prefix ++ seg ++ replicate n Chars.SLASH) = seg).
Proof.
  assert (Hne : prefix ++ seg ++ replicate n Chars.SLASH ≠ lit ".git").
  { intros E. by apply dot_git_last_component in E. }
  destruct (Nat.lt_ge_cases (length (prefix ++ seg ++ replicate n Chars.SLASH)) 4)
    as [Hlen|Hlen].
  - rewrite repoName_short by done. split; [|done].
    intros name ->. exfalso.
    rewrite !length_app in Hlen. simpl in Hlen. lia.
  - rewrite repoName_long by done. split.
    + intros name ->.
      destruct (decide (lit ".git" `suffix_of` name ++ lit ".git")) as [_|Hn];
        [|by destruct Hn; exists name].
      destruct (decide (length (name ++ lit ".git") = 4%nat)) as [H4|_].
      * exfalso. apply Hproper. rewrite length_app in H4.
        destruct name; [|simpl in H4; lia]. done.
      * rewrite length_app. simpl.
        replace (length name + 4 - 4)%nat with (length name) by lia.
        by rewrite take_app_length.
    + intros Hnot.
      destruct (decide (lit ".git" `suffix_of` seg)) as [?|_]; [done|].
      by destruct (decide (seg `suffix_of` lit ".git")).
Qed.

Lemma repoName_of_last_component_witness :
  repoName (lit "https://github.com/laravel/" ++ lit "laravel"
            ++ replicate 1 Chars.SLASH) = lit "laravel".
Proof.
  apply (repoName_of_last_component (lit "https://github.com/laravel/")
           (lit "laravel") 1).
  - by right.
  - by vm_compute.
  - apply (bool_decide_eq_false_1 (Chars.SLASH ∈ lit "laravel")). by vm_compute.
  - apply (bool_decide_eq_false_1 (lit "laravel" `suffix_of` lit ".git")).
    by vm_compute.
  - apply (bool_decide_eq_false_1 (lit ".git" `suffix_of` lit "laravel")).
    by vm_compute.
Defined.

(** X6.  The name of the working directory for a URL whose last component
    is [.git] or an end of it.  The component [.git] is kept, but for the
    URL [.git] itself, which gives the empty name.  A component [git],
    [it] or [t] is kept together with the separators that follow it when
    the URL has four code units or more, and alone when it is shorter. *)
Theorem repoName_of_suffix_tail (prefix seg : jsstring) (n : nat)
    (Hprefix : prefix = [] ∨ last prefix = Some Chars.SLASH)
    (Hseg : seg ≠ []) (Htail : seg `suffix_of` lit ".git") :
  repoName (prefix ++ seg ++ replicate n Chars.SLASH) =
    if decide (seg = lit ".git") then
      if decide (prefix = [] ∧ n = 0%nat) then [] else seg
    else if decide (4 ≤ length (prefix ++ seg ++ replicate n Chars.SLASH))%nat
         then seg ++ replicate n Chars.SLASH
         else seg.
Proof.
  assert (Hno : Chars.SLASH ∉ seg).
  { destruct Htail as [a E]. intros H.
    apply dot_git_separator_free. rewrite E. apply elem_of_app. by right. }
  destruct (decide (seg = lit ".git")) as [->|Hdot].
  - destruct (decide (prefix = [] ∧ n = 0%nat)) as [[-> ->]|Hn]; [done|].
    rewrite repoName_long; try done.
    + rewrite !length_app. simpl. lia.
    + intros E. apply (f_equal length) in E.
      rewrite !length_app, length_replicate in E. simpl in E.
      apply Hn. split; [|lia]. destruct prefix; [done|simpl in E; lia].
  - assert (Hshort : (length seg < 4)%nat).
    { destruct Htail as [a E]. apply (f_equal length) in E as E'.
      rewrite length_app in E'. simpl in E'.
      destruct a; [by rewrite E in Hdot|simpl in E'; lia]. }
    destruct (decide (4 ≤ length (prefix ++ seg ++ replicate n Chars.SLASH))%nat)
      as [Hlen|Hlen].
    + rewrite repoName_long; try done.
      * destruct (decide (lit ".git" `suffix_of` seg)) as [[a E]|_].
        { apply (f_equal length) in E. rewrite length_app in E. simpl in E. lia. }
        by destruct (decide (seg `suffix_of` lit ".git")).
      * intros E. apply Hdot. destruct n as [|n].
        -- rewrite app_nil_r in E. destruct Htail as [a E'].
           rewrite E' in E. apply app_inv_tail in E as <-.
           destruct Hprefix as [->|[p ->]%last_Some]; [done|].
           destruct dot_git_separator_free. rewrite E'.
           apply elem_of_app. left. apply elem_of_app. right.
           by apply list_elem_of_singleton.
        -- apply (f_equal last) in E.
           rewrite replicate_S_end, !app_assoc, last_snoc in E. discriminate E.
    + apply repoName_short; [done..|lia].
Qed.

Lemma repoName_of_suffix_tail_witness :
  repoName (lit "https://example.com/" ++ lit "git" ++ replicate 1 Chars.SLASH)
    = lit "git/".
Proof.
  rewrite (repoName_of_suffix_tail (lit "https://example.com/") (lit "git") 1).
  - reflexivity.
  - by right.
  - by vm_compute.
  - by exists [46].
Defined.

(** X7.  For a URL that does not end in a separator the name of the
    working directory holds no separator: the directory is looked for, and
    cloned, directly below the directory of the process. *)
Theorem repoName_without_separator (url : jsstring)
    (Hend : last url ≠ Some Chars.SLASH) :
  Chars.SLASH ∉ repoName url.
Proof.
  destruct (decide (url = [])) as [->|Hne]; [by apply not_elem_of_nil|].
  destruct (last_component url Hne Hend) as (prefix & seg & -> & Hp & Hs & Hno).
  replace (prefix ++ seg) with (prefix ++ seg ++ replicate 0 Chars.SLASH)
    by (simpl; by rewrite app_nil_r).
  destruct (Nat.lt_ge_cases (length (prefix ++ seg ++ replicate 0 Chars.SLASH)) 4)
    as [Hlen|Hlen].
  { by rewrite repoName_short. }
  destruct (decide (prefix ++ seg ++ replicate 0 Chars.SLASH = lit ".git"))
    as [E|Hdot].
  { rewrite E. change (repoName (lit ".git")) with (@nil N).
    apply not_elem_of_nil. }
  rewrite repoName_long by done.
  destruct (decide (lit ".git" `suffix_of` seg)).
  - destruct (decide (length seg = 4%nat)); [done|].
    intros H. apply Hno. rewrite <- (take_drop (length seg - 4) seg).
    apply elem_of_app. by left.
  - destruct (decide (seg `suffix_of` lit ".git")); [|done].
    simpl. by rewrite app_nil_r.
Qed.

Lemma repoName_without_separator_witness :
  Chars.SLASH ∉ repoName (lit "https://github.com/laravel/laravel").
Proof.
  apply (repoName_without_separator (lit "https://github.com/laravel/laravel")).
  by vm_compute.
Defined.

(** ** What a run touches, and how it can end *)

Section Exits.
Context {sys : System}.
Variable P : Z → Prop.
Local Open Scope M_scope.

Lemma exits_never {A} (m : M sys A) :
  (∀ w c, (m w).1 ≠ Exit c) → exits P m.
Proof. intros H w c E. by destruct (H w c). Qed.

Lemma exits_ret {A} (a : A) : exits P (ret (sys:=sys) a).
Proof. by apply exits_never. Qed.

Lemma exits_throw {A} e : exits P (throw (sys:=sys) (A:=A) e).
Proof. by apply exits_never. Qed.

Lemma exits_process_exit {A} c : P c → exits P (process_exit (sys:=sys) (A:=A) c).
Proof. intros H w c' [= <-]. done. Qed.

Lemma exits_bind {A B} (m : M sys A) (k : A → M sys B) :
  exits P m → (∀ a, exits P (k a)) → exits P (bind m k).
Proof.
  intros Hm Hk w c. unfold bind. specialize (Hm w).
  destruct (m w) as [[a|e|c'] w1]; simpl in *; [apply Hk|done|].
  intros [= <-]. by apply Hm.
Qed.

Lemma exits_try_catch {A} (m : M sys A) (h : exn → M sys A) :
  exits P m → (∀ e, exits P (h e)) → exits P (try_catch m h).
Proof.
  intros Hm Hh w c. unfold try_catch. specialize (Hm w).
  destruct (m w) as [[a|e|c'] w1]; simpl in *; [done|apply Hh|apply Hm].
Qed.

Lemma exits_when b (m : M sys unit) : exits P m → exits P (when b m).
Proof. destruct b; simpl; [done|]. intros _. apply exits_ret. Qed.

Lemma exits_emit e : exits P (emit (sys:=sys) e).
Proof. by apply exits_never. Qed.

Lemma exits_runCommand command dir : exits P (runCommand (sys:=sys) command dir).
Proof.
  apply exits_never. intros w c. unfold runCommand.
  destruct (exec sys command dir (fs w) (ext w)) as [[out fs'] ext'].
  by destruct (error out).
Qed.

Lemma exits_runCommand_detached command dir :
  exits P (runCommand_detached (sys:=sys) command dir).
Proof. by apply exits_never. Qed.

Lemma exits_existsSync p : exits P (existsSync (sys:=sys) p).
Proof. by apply exits_never. Qed.

Lemma exits_readFileSync p : exits P (readFileSync (sys:=sys) p).
Proof.
  apply exits_never. intros w c. unfold readFileSync.
  by destruct (node_at (fs w) p) as [[?|]|].
Qed.

Lemma exits_writeFileSync p content : exits P (writeFileSync (sys:=sys) p content).
Proof.
  apply exits_never. intros w c. unfold writeFileSync.
  by destruct (node_at (fs w) p) as [[?|]|]; destruct (parent_error (fs w) p).
Qed.

Lemma exits_mkdirSync p : exits P (mkdirSync (sys:=sys) p).
Proof.
  apply exits_never. intros w c. unfold mkdirSync.
  by destruct (node_at (fs w) p) as [?|]; [|destruct (parent_error (fs w) p)].
Qed.

Lemma exits_unlinkSync p : exits P (unlinkSync (sys:=sys) p).
Proof.
  apply exits_never. intros w c. unfold unlinkSync.
  by destruct (node_at (fs w) p) as [[?|]|].
Qed.

Lemma exits_readdirSync p : exits P (readdirSync (sys:=sys) p).
Proof.
  apply exits_never. intros w c. unfold readdirSync.
  by destruct (node_at (fs w) p) as [[?|]|].
Qed.

Lemma exits_parse_json text : exits P (parse_json (sys:=sys) text).
Proof.
  unfold parse_json. destruct (JSON_parse sys text);
    [apply exits_ret|apply exits_throw].
Qed.
End Exits.

Ltac exits_step side :=
  lazymatch goal with
  | |- exits _ (bind _ _) => apply exits_bind; [|intros ?]
  | |- exits _ (try_catch _ _) => apply exits_try_catch; [|intros ?]
  | |- exits _ (ret _) => apply exits_ret
  | |- exits _ (throw _) => apply exits_throw
  | |- exits _ (process_exit _) => apply exits_process_exit; side
  | |- exits _ (when _ _) => apply exits_when
  | |- exits _ (console_error _) => apply exits_emit
  | |- exits _ (console_warn _) => apply exits_emit
  | |- exits _ (runCommand _ _) => apply exits_runCommand
  | |- exits _ (runCommand_detached _ _) => apply exits_runCommand_detached
  | |- exits _ (checkCommandExist _) => unfold checkCommandExist
  | |- exits _ (existsSync _) => apply exits_existsSync
  | |- exits _ (readFileSync _) => apply exits_readFileSync
  | |- exits _ (writeFileSync _ _) => apply exits_writeFileSync
  | |- exits _ (mkdirSync _) => apply exits_mkdirSync
  | |- exits _ (unlinkSync _) => apply exits_unlinkSync
  | |- exits _ (readdirSync _) => apply exits_readdirSync
  | |- exits _ (parse_json _) => apply exits_parse_json
  | |- exits _ (if ?b then _ else _) => destruct b
  | |- exits _ (match ?x with _ => _ end) => destruct x
  end.

Ltac exits_stage :=
  lazymatch goal with
  | |- exits _ (check_docker _) => unfold check_docker
  | |- exits _ (clone_repository _ _ _) => unfold clone_repository
  | |- exits _ (determine_php_version _ _) => unfold determine_php_version
  | |- exits _ (install_dependencies _ _) => unfold install_dependencies
  | |- exits _ (setup_env _ _) => unfold setup_env
  | |- exits _ (check_artisan _ _) => unfold check_artisan
  | |- exits _ (debug_container _ _ _) => unfold debug_container
  | |- exits _ (configure_sqlite _ _) => unfold configure_sqlite
  | |- exits _ (generate_key_and_migrate _ _ _) => unfold generate_key_and_migrate
  | |- exits _ (cleanup_composer _ _) => unfold cleanup_composer
  | |- exits _ (remove_leftovers _ _) => unfold remove_leftovers
  | |- exits _ (on_rejected _ _ _) => unfold on_rejected
  | |- exits _ (setup _ _) => unfold setup
  | |- exits _ (main _ _) => unfold main
  | |- exits _ (program _ _) => unfold program
  end.

Ltac exits_program side :=
  cbv zeta; repeat (first [exits_stage | exits_step side]; cbv beta zeta).

Lemma program_exits_with_one sys url : exits (λ c, c = 1%Z) (program sys url).
Proof. exits_program ltac:(done). Qed.

Ltac confined_side :=
  simpl;
  first [ done | by left | by right | by (left; split)
        | right; split; [done|by eexists] ].

Lemma program_confined sys url :
  emits (confined (repoDir_of sys url)) (program sys (Some url)).
Proof.
  unfold program, main, given_url, repoDir_of.
  destruct (truthy url); unfold setup, on_rejected, remove_leftovers; cbv zeta;
    generalize (resolve (cwd sys) (repoName url)); intros repoDir;
    emits_program confined_side.
Qed.

(** X8.  In every run, whatever the outcome: commands are run in the
    directory of the process or in the working directory, and the one
    started without waiting in its [database] directory; the files read
    are the manifest and the environment file; the only directory listed
    is the working directory and the only one created is [database]; the
    database file is only ever written empty, the environment file only
    with the result of the rewrite; nothing but the downloaded executable
    and the installer helper is unlinked. *)
Theorem run_is_confined (sys : System) (url : jsstring) (w : world sys) :
  ∃ new, trace (laraset sys (Some url) w).2 = trace w ++ new
         ∧ Forall (confined (repoDir_of sys url)) new.
Proof. apply program_confined. Qed.

(** ** Runs that succeed *)

Section Returns.
Context {sys : System}.
Local Open Scope M_scope.

Lemma returns_conseq {A} (m : M sys A) (R R' : A → list event → Prop) :
  returns m R → (∀ a new, R a new → R' a new) → returns m R'.
Proof.
  intros H HR w a w' E. destruct (H w a w' E) as (new & ? & ?). eauto.
Qed.

Lemma returns_bind {A B} (m : M sys A) (k : A → M sys B)
    (R1 : A → list event → Prop) (R2 : A → B → list event → Prop) :
  returns m R1 → (∀ a, returns (k a) (R2 a)) →
  returns (bind m k)
    (λ b new, ∃ a n1 n2, new = n1 ++ n2 ∧ R1 a n1 ∧ R2 a b n2).
Proof.
  intros Hm Hk w b w'. unfold bind.
  destruct (m w) as [[a|e|c] w1] eqn:E; [|done..]. intros Ek.
  destruct (Hm w a w1 E) as (n1 & E1 & H1).
  destruct (Hk a w1 b w' Ek) as (n2 & E2 & H2).
  exists (n1 ++ n2). rewrite E2, E1, app_assoc. eauto 8.
Qed.

Lemma returns_ret {A} (a : A) :
  returns (ret (sys:=sys) a) (λ a' new, a' = a ∧ new = []).
Proof. intros w a' w' [= <- <-]. exists []. by rewrite app_nil_r. Qed.

Lemma returns_never {A} (m : M sys A) R :
  (∀ w a, (m w).1 ≠ Ret a) → returns m R.
Proof. intros H w a w' E. destruct (H w a). by rewrite E. Qed.

Lemma returns_runCommand command dir :
  returns (runCommand (sys:=sys) command dir)
    (λ _ new, new = [Exec command dir true]).
Proof.
  intros w a w'. unfold runCommand.
  destruct (exec sys command dir (fs w) (ext w)) as [[out fs'] ext'].
  destruct (error out); [done|]. intros [= <- <-]. eauto.
Qed.

Lemma returns_runCommand_detached command dir :
  returns (runCommand_detached (sys:=sys) command dir)
    (λ _ new, new = [Spawn command dir]).
Proof. intros w a w' [= <- <-]. eauto. Qed.

Lemma returns_existsSync p :
  returns (existsSync (sys:=sys) p) (λ b new, new = [FsExists p b]).
Proof. intros w a w' [= <- <-]. eauto. Qed.

Lemma returns_readFileSync p :
  returns (readFileSync (sys:=sys) p) (λ _ new, new = [FsRead p None]).
Proof.
  intros w a w'. unfold readFileSync.
  destruct (node_at (fs w) p) as [[c|]|]; [|done..]. intros [= <- <-]. eauto.
Qed.

Lemma returns_writeFileSync p content :
  returns (writeFileSync (sys:=sys) p content)
    (λ _ new, new = [FsWrite p content None]).
Proof.
  intros w a w'. unfold writeFileSync.
  destruct (node_at (fs w) p) as [[c|]|]; [|done|];
    (destruct (parent_error (fs w) p); [done|]); intros [= <- <-]; eauto.
Qed.

Lemma returns_mkdirSync p :
  returns (mkdirSync (sys:=sys) p) (λ _ new, new = [FsMkdir p None]).
Proof.
  intros w a w'. unfold mkdirSync.
  destruct (node_at (fs w) p) as [n|]; [done|].
  destruct (parent_error (fs w) p); [done|]. intros [= <- <-]. eauto.
Qed.

Lemma returns_unlinkSync p :
  returns (unlinkSync (sys:=sys) p) (λ _ new, new = [FsUnlink p None]).
Proof.
  intros w a w'. unfold unlinkSync.
  destruct (node_at (fs w) p) as [[c|]|]; [|done..]. intros [= <- <-]. eauto.
Qed.

Lemma returns_parse_json text :
  returns (parse_json (sys:=sys) text)
    (λ manifest new, JSON_parse sys text = Some manifest ∧ new = []).
Proof.
  intros w a w'. unfold parse_json.
  destruct (JSON_parse sys text); [|done]. intros [= <- <-].
  exists []. by rewrite app_nil_r.
Qed.

Lemma returns_debug_container repoDir dockerRunCommand :
  returns (debug_container sys repoDir dockerRunCommand)
    (λ _ new, attempt (Cmd.docker_ls dockerRunCommand) (Some repoDir)
                [DebugFailed] new).
Proof.
  intros w a w'. unfold debug_container, try_catch, bind, runCommand, ret,
    console_warn, emit.
  destruct (exec sys (Cmd.docker_ls dockerRunCommand) (Some repoDir) (fs w) (ext w))
    as [[out fs'] ext'].
  destruct (error out) as [msg|]; simpl; intros [= <- <-]; simpl.
  - rewrite <- app_assoc. eexists. split; [done|]. right. by exists (stderr out).
  - eexists. split; [done|]. by left.
Qed.

Lemma returns_generate_key_and_migrate repoDir name :
  returns (generate_key_and_migrate sys repoDir name)
    (λ _ new, ∃ migration,
       attempt Cmd.migrate (Some repoDir)
         [MigrationFailed; MigrationHint; MigrationManual name] migration
       ∧ new = Exec Cmd.key_generate (Some repoDir) true :: migration).
Proof.
  intros w a w'. unfold generate_key_and_migrate, try_catch, bind, runCommand,
    ret, throw, console_warn, console_error, emit.
  destruct (exec sys Cmd.key_generate (Some repoDir) (fs w) (ext w))
    as [[o1 f1] x1].
  destruct (error o1) as [msg|]; simpl; [done|].
  destruct (exec sys Cmd.migrate (Some repoDir) f1 x1) as [[o2 f2] x2].
  destruct (error o2) as [msg|]; simpl; intros [= <- <-]; simpl;
    rewrite <- !app_assoc; (eexists; split; [done|]); eexists;
    (split; [|done]).
  - right. by exists (stderr o2).
  - by left.
Qed.
End Returns.

Lemma bind_returned {sys A B} (m : M sys A) (k : A → M sys B) w b w' :
  bind m k w = (Ret b, w') →
  ∃ a w1, m w = (Ret a, w1) ∧ k a w1 = (Ret b, w').
Proof.
  unfold bind. destruct (m w) as [[a|e|c] w1]; [|done..]. eauto.
Qed.

(** From a run of a stage that returned to the runs of its parts. *)
Ltac returned H :=
  lazymatch type of H with
  | bind _ _ _ = (Ret _, _) =>
      let a := fresh "a" in
      let w := fresh "w" in
      let H1 := fresh "Hrun" in
      let H2 := fresh "Hrun" in
      apply bind_returned in H as (a & w & H1 & H2);
      returned H1; cbv beta in H2; returned H2
  | ret _ _ = (Ret _, _) => injection H as <- <-
  | throw _ _ = (Ret _, _) => discriminate H
  | process_exit _ _ = (Ret _, _) => discriminate H
  | when (negb ?b) _ _ = (Ret _, _) => destruct b; cbn [when negb] in H; returned H
  | when ?b _ _ = (Ret _, _) => destruct b; cbn [when negb] in H; returned H
  | (if negb ?b then _ else _) _ = (Ret _, _) =>
      destruct b; cbn [negb] in H; returned H
  | existsSync _ _ = (Ret _, _) =>
      apply returns_existsSync in H as (? & H & ->)
  | runCommand _ _ _ = (Ret _, _) =>
      apply returns_runCommand in H as (? & H & ->)
  | runCommand_detached _ _ _ = (Ret _, _) =>
      apply returns_runCommand_detached in H as (? & H & ->)
  | readFileSync _ _ = (Ret _, _) =>
      apply returns_readFileSync in H as (? & H & ->)
  | writeFileSync _ _ _ = (Ret _, _) =>
      apply returns_writeFileSync in H as (? & H & ->)
  | mkdirSync _ _ = (Ret _, _) =>
      apply returns_mkdirSync in H as (? & H & ->)
  | unlinkSync _ _ = (Ret _, _) =>
      apply returns_unlinkSync in H as (? & H & ->)
  | parse_json _ _ = (Ret _, _) =>
      apply returns_parse_json in H as (? & H & ? & ->)
  | debug_container _ _ _ _ = (Ret _, _) =>
      apply returns_debug_container in H as (? & H & ?)
  | generate_key_and_migrate _ _ _ _ = (Ret _, _) =>
      apply returns_generate_key_and_migrate in H as (? & H & ? & ? & ->)
  | _ => idtac
  end.

Lemma check_docker_returned sys :
  returns (check_docker sys)
    (λ _ new, new = [Exec (Cmd.which (lit "docker")) None true]).
Proof.
  intros w a w'. unfold check_docker, checkCommandExist, try_catch, bind,
    runCommand, ret, console_error, emit, process_exit, Cmd.which.
  destruct (exec sys (lit "which " ++ lit "docker") None (fs w) (ext w))
    as [[out fs'] ext'].
  destruct (error out); simpl; [done|]. intros [= <- <-]. eauto.
Qed.

Lemma check_artisan_returned sys repoDir :
  returns (check_artisan sys repoDir)
    (λ _ new, new = [FsExists (path_join repoDir "artisan") true]).
Proof.
  intros w a w'. unfold check_artisan. cbv zeta. intros H.
  apply bind_returned in H as (found & w1 & H1 & H2).
  apply returns_existsSync in H1 as (? & H1 & ->).
  destruct found; simpl in H2.
  - injection H2 as <- <-. eauto.
  - exfalso. revert H2. unfold bind, console_error, emit, readdirSync, fail_fs,
      bind, emit, throw, ret.
    simpl. by destruct (node_at (fs w1) repoDir) as [[?|]|].
Qed.

(** The end of the proof that a stage returned with the events stated:
    the trace equations are put together. *)
Ltac traced :=
  repeat match goal with
         | H : trace _ = _ |- _ => rewrite H; clear H
         end;
  rewrite <- ?app_assoc; simpl; eexists; split; [reflexivity|].

Lemma clone_repository_returned sys url repoDir :
  returns (clone_repository sys url repoDir)
    (λ _ new, ∃ found,
       new = FsExists repoDir found :: unless found [Exec (Cmd.git_clone url) None true]).
Proof.
  intros w a w' H. unfold clone_repository in H. returned H; traced.
  - by exists true.
  - by exists false.
Qed.

Lemma determine_php_version_returned sys repoDir :
  returns (determine_php_version sys repoDir)
    (λ image new, ∃ text manifest,
       JSON_parse sys text = Some manifest ∧ image = image_name manifest
       ∧ new = [ FsExists (path_join repoDir "composer.json") true;
                 FsRead (path_join repoDir "composer.json") None ]).
Proof.
  intros w a w' H. unfold determine_php_version in H. cbv zeta in H.
  returned H; traced. eauto.
Qed.

Lemma install_dependencies_returned sys repoDir :
  returns (install_dependencies sys repoDir)
    (λ _ new,
       new = [ Exec (Cmd.curl (path_join repoDir "composer.phar")) None true;
               Exec Cmd.composer_install (Some repoDir) true ]).
Proof.
  intros w a w' H. unfold install_dependencies in H. returned H. by traced.
Qed.

Lemma setup_env_returned sys repoDir :
  returns (setup_env sys repoDir)
    (λ _ new, ∃ found,
       new = FsExists (path_join repoDir ".env") found
             :: unless found [Exec Cmd.cp_env (Some repoDir) true]).
Proof.
  intros w a w' H. unfold setup_env in H. cbv zeta in H. returned H; traced.
  - by exists true.
  - by exists false.
Qed.

Lemma configure_sqlite_returned sys repoDir :
  returns (configure_sqlite sys repoDir)
    (λ _ new, ∃ database_found sqlite_found envContent,
       new =
         [ FsExists (path_join repoDir "database") database_found ]
         ++ unless database_found [ FsMkdir (path_join repoDir "database") None ]
         ++ [ FsExists (sqlite_of repoDir) sqlite_found ]
         ++ unless sqlite_found [ FsWrite (sqlite_of repoDir) [] None ]
         ++ [ FsRead (path_join repoDir ".env") None;
              FsWrite (path_join repoDir ".env") (rewrite_env envContent) None;
              Spawn Cmd.touch (Some (path_join repoDir "database")) ]).
Proof.
  intros w a w' H. unfold configure_sqlite in H. cbv zeta in H.
  fold (sqlite_of repoDir) in H. returned H; traced.
  - by eexists true, true, _.
  - by eexists true, false, _.
  - by eexists false, true, _.
  - by eexists false, false, _.
Qed.

Lemma cleanup_composer_returned sys repoDir :
  returns (cleanup_composer sys repoDir)
    (λ _ new, new = [FsUnlink (path_join repoDir "composer.phar") None]).
Proof. apply returns_unlinkSync. Qed.

Lemma setup_returned sys url :
  returns (setup sys url) (λ _ new, successful sys url new).
Proof.
  intros w a w' H. unfold setup in H. cbv zeta in H.
  unfold successful, repoDir_of. cbv zeta.
  revert H. generalize (resolve (cwd sys) (repoName url)). intros repoDir H.
  apply bind_returned in H as (? & u1 & H1 & H).
  apply check_docker_returned in H1 as (? & H1 & ->).
  apply bind_returned in H as (? & u2 & H2 & H).
  apply clone_repository_returned in H2 as (? & H2 & found & ->).
  apply bind_returned in H as (image & u3 & H3 & H).
  apply determine_php_version_returned in H3
    as (? & H3 & text & manifest & Hparse & -> & ->).
  apply bind_returned in H as (? & u4 & H4 & H).
  apply install_dependencies_returned in H4 as (? & H4 & ->).
  apply bind_returned in H as (? & u5 & H5 & H).
  apply setup_env_returned in H5 as (? & H5 & env_found & ->).
  apply bind_returned in H as (? & u6 & H6 & H).
  apply check_artisan_returned in H6 as (? & H6 & ->).
  apply bind_returned in H as (? & u7 & H7 & H).
  apply returns_debug_container in H7 as (debug & H7 & Hdebug).
  apply bind_returned in H as (? & u8 & H8 & H).
  apply configure_sqlite_returned in H8
    as (? & H8 & database_found & sqlite_found & envContent & ->).
  apply bind_returned in H as (? & u9 & H9 & H).
  apply returns_generate_key_and_migrate in H9
    as (? & H9 & migration & Hmigration & ->).
  apply cleanup_composer_returned in H as (? & H & ->).
  rewrite H, H9, H8, H7, H6, H5, H4, H3, H2, H1.
  rewrite <- !app_assoc. eexists. split; [reflexivity|].
  exists found, env_found, database_found, sqlite_found, text, manifest,
    envContent, debug, migration.
  split; [done|]. split; [done|]. split; [done|].
  simpl. by rewrite <- ?app_assoc.
Qed.

Lemma on_rejected_ends sys url err (w : world sys) :
  (on_rejected sys url err w).1 = Exit 1.
Proof. destruct url as [url|]; [apply on_rejected_exit|done]. Qed.

(** X9.  The chain of [main] and its handler never rejects, and
    [process.exit] is only ever given the code 1.  When [main] returns,
    the chain ends as [main] did and the handler is not run; when [main]
    ends the process, it does so with code 1; when [main] throws, the
    handler is run on the error, in the world [main] left, and ends the
    process with code 1.  A rejection of the command that is not waited
    for is outside this chain. *)
Theorem handler_catches_every_rejection (sys : System) (url : option jsstring)
    (w : world sys) :
  match (main sys url w).1 with
  | Ret _ => program sys url w = main sys url w
  | Exit code => code = 1%Z ∧ program sys url w = main sys url w
  | Throw e =>
      program sys url w = on_rejected sys url e (main sys url w).2
      ∧ (program sys url w).1 = Exit 1
  end.
Proof.
  pose proof (program_exits_with_one sys url w) as Hexit.
  pose proof (on_rejected_ends sys url) as Hh.
  unfold program, try_catch in *.
  destruct (main sys url w) as [[[]|e|c] w1]; simpl in *.
  - done.
  - by rewrite Hh.
  - split; [|done]. by apply Hexit.
Qed.

(** X10.  A run started with an empty trace that ends with exit code 0
    has the trace [successful] describes: [docker] was found; the working
    directory was found or cloned; the manifest was found, read and
    parsed; the download and the installation succeeded; the environment
    file was found or copied; the entry-point file was found; the listing
    of the container succeeded or failed with a warning; the database
    directory and file were found or created; the environment file was read
    and written with the result of the rewrite; the key was generated; the
    migration succeeded or failed with its three warnings; and the last
    thing done was to unlink the downloaded executable, with success. *)
Theorem exit_code_zero_means_success (sys : System) (url : jsstring)
    (w : world sys) (Hstart : trace w = [])
    (Hzero : (laraset sys (Some url) w).1 = 0%Z) :
  successful sys url (trace (laraset sys (Some url) w).2).
Proof.
  unfold laraset, program, try_catch in *. cbn [fst snd] in *.
  destruct (main sys (Some url) w) as [[[]|e|c] w1] eqn:E; cbn [fst snd] in *.
  - unfold main, given_url in E. destruct (truthy url); [|done].
    apply setup_returned in E as (new & E & Hnew). by rewrite E, Hstart.
  - by rewrite on_rejected_exit in Hzero.
  - assert (c = 1%Z) as ->; [|done].
    assert (Hexit : exits (λ c, c = 1%Z) (main sys (Some url))).
    { exits_program ltac:(done). }
    apply (Hexit w). by rewrite E.
Qed.

Lemma exit_code_zero_means_success_witness :
  successful Demo.sys Demo.url
    (trace (laraset Demo.sys (Some Demo.url) Demo.start).2).
Proof.
  apply (exit_code_zero_means_success Demo.sys Demo.url Demo.start);
    reflexivity.
Defined.

(** ** Commands whose failure ends the run *)

Section FailStop.
Context {sys : System}.
Variable url : jsstring.
Variable repoDir : path.
Local Open Scope M_scope.

Lemma aftermath_not_fatal e : aftermath repoDir e → ¬ fatal url repoDir e.
Proof. destruct e; simpl; tauto. Qed.

Lemma clean_app a b : clean url repoDir a → clean url repoDir b → clean url repoDir (a ++ b).
Proof. apply Forall_stable. Qed.

Lemma clean_aftermath evs : Forall (aftermath repoDir) evs → clean url repoDir evs.
Proof.
  intros H. eapply Forall_impl; [exact H|]. apply aftermath_not_fatal.
Qed.

Lemma stopped_after a b :
  clean url repoDir a → stopped url repoDir b → stopped url repoDir (a ++ b).
Proof.
  intros Ha (pre & e & post & -> & Hpre & He & Hpost).
  exists (a ++ pre), e, post. rewrite <- app_assoc.
  split; [done|]. split; [by apply clean_app|done].
Qed.

Lemma stopped_aftermath a b :
  stopped url repoDir a → Forall (aftermath repoDir) b → stopped url repoDir (a ++ b).
Proof.
  intros (pre & e & post & -> & Hpre & He & Hpost) Hb.
  exists pre, e, (post ++ b). rewrite <- app_assoc. simpl.
  split; [done|]. split; [done|]. split; [done|]. by apply Forall_app.
Qed.

(** The failure in a stopped trace is where a fatal failure is found. *)
Lemma stopped_unique pre e post evs :
  evs = pre ++ e :: post → fatal url repoDir e → stopped url repoDir evs →
  clean url repoDir pre ∧ Forall (aftermath repoDir) post.
Proof.
  intros -> He (pre' & e' & post' & E & Hpre & He' & Hpost).
  revert pre E. induction Hpre as [|y pre' Hy Hpre IH]; intros [|x pre] E;
    simplify_eq/=.
  - split; [constructor|done].
  - apply Forall_app in Hpost as [_ Hpost].
    apply Forall_cons in Hpost as [Hpost _].
    by apply aftermath_not_fatal in Hpost.
  - done.
  - destruct (IH pre) as [H1 H2]; [done|]. split; [|done]. by constructor.
Qed.

Lemma clean_no_fatal pre e post :
  fatal url repoDir e → ¬ clean url repoDir (pre ++ e :: post).
Proof.
  intros He H. apply Forall_app in H as [_ H].
  apply Forall_cons in H as [H _]. done.
Qed.

Lemma failstop_clean {A} (m : M sys A) :
  emits (λ e, ¬ fatal url repoDir e) m → failstop url repoDir m.
Proof.
  intros H w. destruct (H w) as (new & E & Hnew). exists new.
  split; [done|]. destruct ((m w).1); auto.
Qed.

Lemma failstop_bind {A B} (m : M sys A) (k : A → M sys B) :
  failstop url repoDir m → (∀ a, failstop url repoDir (k a)) → failstop url repoDir (bind m k).
Proof.
  intros Hm Hk w. unfold bind. destruct (Hm w) as (n1 & E1 & H1).
  destruct (m w) as [[a|e|c] w1]; simpl in *; [|by eauto..].
  destruct (Hk a w1) as (n2 & E2 & H2). exists (n1 ++ n2).
  rewrite E2, E1, app_assoc. split; [done|].
  destruct ((k a w1).1); [by apply clean_app|..];
    (destruct H2; [left; by apply clean_app|right; by apply stopped_after]).
Qed.

Lemma failstop_runCommand command dir :
  fatal_command url repoDir command → failstop url repoDir (runCommand (sys:=sys) command dir).
Proof.
  intros Hc w. unfold runCommand.
  destruct (exec sys command dir (fs w) (ext w)) as [[out fs'] ext'].
  destruct (error out); simpl; eexists; (split; [done|]).
  - right. exists [], (Exec command dir false), [ConsoleError (CommandFailedOutput (stderr out))].
    split; [done|]. split; [constructor|]. split; [done|]. by repeat constructor.
  - apply Forall_cons_2; [simpl; tauto|apply Forall_nil_2].
Qed.

(** A [try] block whose [catch] block does not return. *)
Lemma failstop_try_catch {A} (m : M sys A) (h : exn → M sys A) :
  failstop url repoDir m →
  (∀ e, emits (aftermath repoDir) (h e)) →
  (∀ e w a, (h e w).1 ≠ Ret a) →
  failstop url repoDir (try_catch m h).
Proof.
  intros Hm Hh Hnot w. unfold try_catch. destruct (Hm w) as (n1 & E1 & H1).
  destruct (m w) as [[a|e|c] w1]; simpl in *; [by eauto| |by eauto].
  destruct (Hh e w1) as (n2 & E2 & H2). exists (n1 ++ n2).
  rewrite E2, E1, app_assoc. split; [done|].
  specialize (Hnot e w1).
  destruct ((h e w1).1) as [a| |]; [by destruct (Hnot a)|..];
    (destruct H1; [left; by apply clean_app, clean_aftermath
                  |right; by apply stopped_aftermath]).
Qed.
End FailStop.

Ltac fatal_side := unfold fatal_command; auto 10.

Ltac tolerated_side :=
  cbv beta;
  lazymatch goal with
  | |- ¬ fatal _ _ (Exec _ _ ?ok) =>
      destruct ok; simpl; [tauto|];
      unfold fatal_command, Cmd.which, Cmd.docker_ls, Cmd.docker_run, Cmd.git_clone,
        Cmd.curl;
      let H := fresh in
      intros H; decompose [or] H; clear H;
      match goal with H' : _ = _ |- _ => vm_compute in H'; discriminate H' end
  | |- _ => simpl; tauto
  end.

Ltac failstop_step :=
  lazymatch goal with
  | |- failstop _ _ (bind _ _) => apply failstop_bind; [|intros ?]
  | |- failstop _ _ (if ?b then _ else _) => destruct b
  | |- failstop _ _ (runCommand _ _) =>
      first [ apply failstop_runCommand; fatal_side
            | apply failstop_clean; emits_program tolerated_side ]
  | |- failstop _ _ (clone_repository _ _ _) => unfold clone_repository
  | |- failstop _ _ (install_dependencies _ _) => unfold install_dependencies
  | |- failstop _ _ (setup_env _ _) => unfold setup_env
  | |- failstop _ _ (determine_php_version _ _) => unfold determine_php_version
  | |- failstop _ _ _ => apply failstop_clean; emits_program tolerated_side
  end.

Ltac failstop_stages :=
  lazymatch goal with
  | |- failstop _ _ (bind _ _) => apply failstop_bind; [|intros ?; failstop_stages]
  | |- _ => idtac
  end.

Ltac aftermath_side := simpl; first [done | by left | by right].

Lemma failstop_generate_key_and_migrate {sys} url repoDir name :
  failstop url repoDir (generate_key_and_migrate sys repoDir name).
Proof.
  unfold generate_key_and_migrate. apply failstop_try_catch.
  - apply failstop_bind; [apply failstop_runCommand; fatal_side|intros _].
    apply failstop_clean. emits_program tolerated_side.
  - intros e. emits_program aftermath_side.
  - intros e w a. done.
Qed.

Lemma failstop_program sys url :
  failstop url (repoDir_of sys url) (program sys (Some url)).
Proof.
  unfold program, main, given_url, repoDir_of.
  destruct (truthy url); cbv zeta.
  2: { apply failstop_clean. unfold on_rejected, remove_leftovers. cbv zeta.
       generalize (resolve (cwd sys) (repoName url)); intros repoDir.
       emits_program tolerated_side. }
  apply failstop_try_catch.
  - unfold setup. cbv zeta.
    generalize (resolve (cwd sys) (repoName url)); intros repoDir.
    generalize (repoName url); intros name.
    failstop_stages.
    all: first [ apply failstop_generate_key_and_migrate
               | cbv zeta; repeat (failstop_step; cbv beta zeta) ].
  - intros e. unfold on_rejected, remove_leftovers. cbv zeta.
    generalize (resolve (cwd sys) (repoName url)); intros repoDir.
    emits_program aftermath_side.
  - intros e w a. by rewrite on_rejected_exit.
Qed.

(** X11.  In a run started with an empty trace, the failure of the clone,
    of the download, of the installation, of the copy of the environment
    file or of the key generation is the only such failure; the exit code
    is 1; and after the failure no command is run or started and no file
    or directory is written, created, read or listed: what follows is
    error output and the handler testing for its two files and unlinking
    them. *)
Theorem failed_command_ends_the_run (sys : System) (url : jsstring)
    (w : world sys) (pre post : list event) (command : jsstring)
    (dir : option path)
    (Hstart : trace w = [])
    (Hfatal : fatal_command url (repoDir_of sys url) command)
    (Hfailed : trace (laraset sys (Some url) w).2
               = pre ++ Exec command dir false :: post) :
  (laraset sys (Some url) w).1 = 1%Z
  ∧ Forall (aftermath (repoDir_of sys url)) post
  ∧ Forall (λ e, ¬ fatal url (repoDir_of sys url) e) pre.
Proof.
  unfold laraset in *. cbn [fst snd] in *.
  destruct (failstop_program sys url w) as (new & E & H).
  rewrite Hstart in E. simpl in E. rewrite E in Hfailed. subst new.
  pose proof (program_exits_with_one sys (Some url) w) as Hexit.
  assert (Hf : fatal url (repoDir_of sys url) (Exec command dir false)) by done.
  destruct ((program sys (Some url) w).1) as [[]|e|c] eqn:Er.
  - by apply clean_no_fatal in H.
  - destruct H as [H|H]; [by apply clean_no_fatal in H|].
    destruct (stopped_unique url (repoDir_of sys url) pre (Exec command dir false)
                post _ eq_refl Hf H) as [? ?].
    done.
  - destruct H as [H|H]; [by apply clean_no_fatal in H|].
    destruct (stopped_unique url (repoDir_of sys url) pre (Exec command dir false)
                post _ eq_refl Hf H) as [? ?].
    by rewrite (Hexit c).
Qed.

Lemma failed_command_ends_the_run_witness :
  (laraset (Sample.sys_failing Cmd.key_generate) (Some Demo.url)
     (Sample.start Cmd.key_generate)).1 = 1%Z
  ∧ Forall (aftermath Demo.repo)
      (drop 17 (trace (laraset (Sample.sys_failing Cmd.key_generate) (Some Demo.url)
                         (Sample.start Cmd.key_generate)).2)).
Proof.
  destruct (failed_command_ends_the_run (Sample.sys_failing Cmd.key_generate)
              Demo.url (Sample.start Cmd.key_generate)
              (take 16 (trace (laraset (Sample.sys_failing Cmd.key_generate)
                                 (Some Demo.url) (Sample.start Cmd.key_generate)).2))
              (drop 17 (trace (laraset (Sample.sys_failing Cmd.key_generate)
                                 (Some Demo.url) (Sample.start Cmd.key_generate)).2))
              Cmd.key_generate (Some Demo.repo))
    as (Hcode & Hpost & _).
  - reflexivity.
  - unfold fatal_command. auto 10.
  - vm_compute. reflexivity.
  - split; [exact Hcode|exact Hpost].
Defined.

(** ** The downloaded executable *)

Lemma file_at_false fs p : (∀ c, fs !! p ≠ Some (File c)) → file_at fs p = false.
Proof.
  intros H. unfold file_at. destruct (fs !! p) as [[c|]|] eqn:E; [|done..].
  by destruct (H c).
Qed.

Lemma not_download_absent repoDir tr :
  Forall (not_download repoDir) tr → ¬ Exists (download repoDir) tr.
Proof.
  intros H (e & Hin & He)%Exists_exists. rewrite Forall_forall in H.
  by apply (H e).
Qed.

Ltac download_side :=
  unfold not_download, download; simpl; intros H;
  first [contradiction | differ H].

Lemma download_app_inv repoDir tr new :
  Exists (download repoDir) (tr ++ new) → Forall (not_download repoDir) new →
  Exists (download repoDir) tr.
Proof.
  intros [H|H]%Exists_app Hnew; [done|].
  by apply not_download_absent in Hnew.
Qed.

Lemma on_rejected_cleans sys url err (w : world sys) :
  Exists (download (repoDir_of sys url)) (trace (on_rejected sys (Some url) err w).2) →
  cleaned (repoDir_of sys url) (trace (on_rejected sys (Some url) err w).2).
Proof.
  destruct (on_rejected_events sys url err w) as [_ ->].
  unfold phar_of, helper_of.
  generalize (repoDir_of sys url). intros repoDir Hex.
  assert (Hpre : Exists (download repoDir) (trace w)).
  { apply (download_app_inv repoDir (trace w)) in Hex; [done|].
    destruct (fs w !! path_join repoDir "composer.phar") as [[c|]|];
      destruct (fs w !! path_join repoDir "composer-setup.php") as [[c'|]|];
      repeat (apply Forall_cons_2; [download_side|]); apply Forall_nil_2. }
  destruct (fs w !! path_join repoDir "composer.phar") as [[c|]|].
  - exists (trace w ++ [ConsoleError (SetupError err);
                        FsExists (path_join repoDir "composer.phar") true]),
      (FsUnlink (path_join repoDir "composer.phar") None). eexists.
    split; [by rewrite <- app_assoc|]. split; [|done].
    apply Exists_app. by left.
  - exists (trace w ++ [ConsoleError (SetupError err);
                        FsExists (path_join repoDir "composer.phar") true]),
      (FsUnlink (path_join repoDir "composer.phar") (Some EISDIR)). eexists.
    split; [by rewrite <- app_assoc|]. split; [|done].
    apply Exists_app. by left.
  - exists (trace w ++ [ConsoleError (SetupError err)]),
      (FsExists (path_join repoDir "composer.phar") false). eexists.
    split; [by rewrite <- app_assoc|]. split; [|done].
    apply Exists_app. by left.
Qed.

(** From the download to the end of [main]: when this part returns, its
    last event is the unlinking of the executable, which is gone, and it
    never ends the process. *)
Lemma after_download_spec sys repoDir name dockerRunCommand :
  hoare (λ _, True)
    (bind (install_dependencies sys repoDir) (λ _,
     bind (setup_env sys repoDir) (λ _,
     bind (check_artisan sys repoDir) (λ _,
     bind (debug_container sys repoDir dockerRunCommand) (λ _,
     bind (configure_sqlite sys repoDir) (λ _,
     bind (generate_key_and_migrate sys repoDir name) (λ _,
       cleanup_composer sys repoDir)))))))
    (λ r w, match r with
            | Ret _ =>
                file_at (fs w) (path_join repoDir "composer.phar") = false
                ∧ ∃ pre, trace w =
                    pre ++ [FsUnlink (path_join repoDir "composer.phar") None]
            | Throw _ => True
            | Exit _ => False
            end).
Proof.
  set (Q := λ (r : result unit) (w : world sys), match r with
            | Ret _ =>
                file_at (fs w) (path_join repoDir "composer.phar") = false
                ∧ ∃ pre, trace w =
                    pre ++ [FsUnlink (path_join repoDir "composer.phar") None]
            | Throw _ => True
            | Exit _ => False
            end).
  assert (Hstage : ∀ A (m : M sys A) (k : A → M sys unit),
            exits (λ _, False) m → (∀ a, hoare (λ _, True) (k a) Q) →
            hoare (λ _, True) (bind m k) Q).
  { intros A m k Hm Hk w _. unfold bind. specialize (Hm w).
    destruct (m w) as [[a|e|c] w1]; simpl in *; [by apply Hk|done|].
    by apply (Hm c). }
  do 6 (apply Hstage; [exits_program ltac:(done)|intros _]).
  intros w _. unfold cleanup_composer, unlinkSync, Q.
  rewrite node_at_path_join.
  destruct (fs w !! path_join repoDir "composer.phar") as [[c|]|] eqn:E; simpl;
    try done.
  unfold file_at. rewrite lookup_delete_eq. split; [done|by eexists].
Qed.

Lemma program_removes_download sys url :
  hoare (λ w, Forall (not_download (repoDir_of sys url)) (trace w))
    (program sys (Some url))
    (λ _ w, Exists (download (repoDir_of sys url)) (trace w) →
            cleaned (repoDir_of sys url) (trace w)
            ∧ file_at (fs w) (phar_of sys url) = false).
Proof.
  assert (Hvac : ∀ w : world sys,
            Forall (not_download (repoDir_of sys url)) (trace w) →
            Exists (download (repoDir_of sys url)) (trace w) →
            cleaned (repoDir_of sys url) (trace w)
            ∧ file_at (fs w) (phar_of sys url) = false).
  { intros w Hw Hex. by apply not_download_absent in Hw. }
  assert (Hh : ∀ e (I : world sys → Prop),
    hoare I (on_rejected sys (Some url) e)
      (λ _ w, Exists (download (repoDir_of sys url)) (trace w) →
              cleaned (repoDir_of sys url) (trace w)
              ∧ file_at (fs w) (phar_of sys url) = false)).
  { intros e I w _ Hex. split; [by apply on_rejected_cleans|].
    apply file_at_false. intros c. apply on_rejected_removes_phar. }
  unfold program, main, given_url.
  destruct (truthy url); unfold setup; cbv zeta.
  2: { apply (hoare_frame_stage (not_download (repoDir_of sys url))).
       - unfold repoDir_of. generalize (resolve (cwd sys) (repoName url)).
         intros repoDir. emits_program download_side.
       - apply Forall_stable.
       - intros _. apply Hvac. }
  pose proof (after_download_spec sys (repoDir_of sys url) (repoName url)) as Hrest.
  unfold phar_of in *. fold (repoDir_of sys url).
  revert Hvac Hh Hrest.
  generalize (on_rejected sys (Some url)). intros h.
  generalize (repoDir_of sys url). intros repoDir.
  generalize (repoName url). intros name Hvac Hh Hrest.
  do 2 (frame_stage (not_download repoDir) (Forall (not_download repoDir));
    [emits_program download_side | apply Forall_stable
    | intros [] w Hw; auto | | apply Hh]).
  apply hoare_try_bind with
    (J := λ _ w, True) (K := λ _ w, True).
  - apply (hoare_frame_stage (not_download repoDir)).
    + emits_program download_side.
    + apply Forall_stable.
    + intros [] w Hw; auto.
  - intros image.
    apply hoare_try_catch with (K := λ _ w, True); [|intros; apply Hh].
    eapply hoare_conseq; [apply Hrest|done|].
    intros [] w; simpl; try done.
    intros [Hfile [pre E]] Hex. split; [|done].
    exists pre, (FsUnlink (path_join repoDir "composer.phar") None), [].
    split; [done|]. split; [|done].
    rewrite E in Hex. apply (download_app_inv repoDir pre) in Hex; [done|].
    apply Forall_cons_2; [download_side|apply Forall_nil_2].
  - intros; apply Hh.
Qed.

(** X12.  In a run started with an empty trace in which the download
    command was run, the chain of [main] and its handler does not end
    before, after the download, the unlinking of the downloaded
    executable has been attempted or a test has found nothing at its
    path; and when the chain ends no regular file is left at that path,
    in a filesystem where the unlinking of a regular file succeeds.  A
    process that is ended from outside the chain, as by a rejection of
    the command that is not waited for, does not get there. *)
Theorem download_is_removed (sys : System) (url : jsstring) (w : world sys)
    (Hstart : trace w = [])
    (Hdownload : Exists (download (repoDir_of sys url))
                   (trace (program sys (Some url) w).2)) :
  cleaned (repoDir_of sys url) (trace (program sys (Some url) w).2)
  ∧ file_at (fs (program sys (Some url) w).2) (phar_of sys url) = false.
Proof.
  apply (program_removes_download sys url w); [|done].
  rewrite Hstart. constructor.
Qed.

Lemma download_is_removed_witness :
  cleaned (repoDir_of Demo.sys Demo.url)
    (trace (program Demo.sys (Some Demo.url) Demo.start).2)
  ∧ file_at (fs (program Demo.sys (Some Demo.url) Demo.start).2)
      (phar_of Demo.sys Demo.url) = false.
Proof.
  apply (download_is_removed Demo.sys Demo.url Demo.start).
  - reflexivity.
  - apply Exists_exists.
    exists (Exec (Cmd.curl (path_join Demo.repo "composer.phar")) None true).
    split; [|reflexivity]. apply list_elem_of_In. vm_compute. tauto.
Defined.

(** ** An environment file that is there *)

Section GuardedStep.
Context {sys : System}.
Variable p : path.
Variable command : jsstring.
Local Open Scope M_scope.

Lemma guard_free_found_not_run tr :
  Forall (guard_free p command) tr → found_not_run p command tr.
Proof.
  intros H Hin. rewrite Forall_forall in H. by destruct (H _ Hin) as [_ []].
Qed.

Lemma found_not_run_stable tr new :
  found_not_run p command tr → Forall (guard_free p command) new →
  found_not_run p command (tr ++ new).
Proof.
  intros Htr Hnew. pose proof Hnew as Hnew'. rewrite Forall_forall in Hnew'.
  intros [Hin|Hin]%elem_of_app; [|by destruct (Hnew' _ Hin) as [_ []]].
  apply Forall_app. split; [by apply Htr|].
  eapply Forall_impl; [exact Hnew|]. by intros e [? _].
Qed.

Lemma guarded_step dir :
  hoare (λ w, Forall (guard_free p command) (trace w))
    (let* found := existsSync (sys:=sys) p in
     if negb found then let* _ := runCommand command dir in ret tt else ret tt)
    (λ _ w, found_not_run p command (trace w)).
Proof.
  apply hoare_bind with
    (J := λ b w', ∃ tr, Forall (guard_free p command) tr
                        ∧ trace w' = tr ++ [FsExists p b]).
  { eapply hoare_conseq;
      [apply (hoare_existsSync (λ w, Forall (guard_free p command) (trace w)))
      |by intros|].
    intros r w' (w & Hw & -> & _ & _ & E). eauto. }
  intros [|]; simpl.
  - intros w' (tr & Htr & E). simpl. rewrite E. intros _.
    apply Forall_app. split.
    + eapply Forall_impl; [exact Htr|]. by intros e [? _].
    + apply Forall_cons_2; [by intros []|apply Forall_nil_2].
  - eapply hoare_conseq.
    + apply (hoare_frame (λ e, e ≠ FsExists p true)
               (λ tr, FsExists p true ∉ tr)).
      * emits_program ltac:(done).
      * intros tr new Htr Hnew [?|Hin]%elem_of_app; [done|].
        rewrite Forall_forall in Hnew. by apply (Hnew _ Hin).
    + intros w' (tr & Htr & ->). rewrite Forall_forall in Htr.
      intros [Hin|Hin%list_elem_of_singleton]%elem_of_app; [|done].
      by destruct (Htr _ Hin) as [_ []].
    + intros r w' Hno Hin. by destruct Hno.
Qed.
End GuardedStep.

Ltac guard_side :=
  unfold guard_free; simpl; split; intros H; first [contradiction | differ H].

Lemma program_env_kept sys url :
  hoare (λ w, Forall (guard_free (path_join (repoDir_of sys url) ".env") Cmd.cp_env)
                (trace w))
        (program sys (Some url))
        (λ _ w, found_not_run (path_join (repoDir_of sys url) ".env") Cmd.cp_env
                  (trace w)).
Proof.
  unfold program, main, given_url, repoDir_of.
  assert (Hh : ∀ e,
    hoare (λ w, Forall (guard_free (path_join (resolve (cwd sys) (repoName url)) ".env")
                          Cmd.cp_env) (trace w))
      (on_rejected sys (Some url) e)
      (λ _ w, found_not_run (path_join (resolve (cwd sys) (repoName url)) ".env")
                Cmd.cp_env (trace w))).
  { intros e. unfold on_rejected, remove_leftovers. cbv zeta.
    generalize (resolve (cwd sys) (repoName url)); intros repoDir.
    apply (hoare_frame_stage (guard_free (path_join repoDir ".env") Cmd.cp_env)).
    - emits_program guard_side.
    - apply Forall_stable.
    - intros _ w. apply guard_free_found_not_run. }
  assert (Hh' : ∀ e,
    hoare (λ w, found_not_run (path_join (resolve (cwd sys) (repoName url)) ".env")
                  Cmd.cp_env (trace w))
      (on_rejected sys (Some url) e)
      (λ _ w, found_not_run (path_join (resolve (cwd sys) (repoName url)) ".env")
                Cmd.cp_env (trace w))).
  { intros e. unfold on_rejected, remove_leftovers. cbv zeta.
    generalize (resolve (cwd sys) (repoName url)); intros repoDir.
    apply (hoare_frame_stage (guard_free (path_join repoDir ".env") Cmd.cp_env)).
    - emits_program guard_side.
    - apply found_not_run_stable.
    - done. }
  destruct (truthy url); unfold setup; cbv zeta.
  2: { unfold on_rejected, remove_leftovers. cbv zeta.
       generalize (resolve (cwd sys) (repoName url)); intros repoDir.
       apply (hoare_frame_stage (guard_free (path_join repoDir ".env") Cmd.cp_env)).
       - emits_program guard_side.
       - apply Forall_stable.
       - intros _ w. apply guard_free_found_not_run. }
  revert Hh Hh'. generalize (on_rejected sys (Some url)). intros h.
  generalize (resolve (cwd sys) (repoName url)); intros repoDir.
  generalize (repoName url). intros name.
  set (P := guard_free (path_join repoDir ".env") Cmd.cp_env).
  set (Q := found_not_run (path_join repoDir ".env") Cmd.cp_env).
  intros Hh Hh'.
  assert (Hvac : ∀ w : world sys, Forall P (trace w) → Q (trace w)).
  { intros w. apply guard_free_found_not_run. }
  do 4 (frame_stage P (Forall P);
    [emits_program guard_side | apply Forall_stable
    | intros [] w Hw; auto | | apply Hh]).
  apply hoare_try_bind with
    (J := λ _ w, Q (trace w)) (K := λ _ w, Q (trace w)).
  - eapply hoare_conseq; [apply (guarded_step _ _ (Some repoDir))|done|].
    by intros [].
  - intros _. apply hoare_try_catch with (K := λ _ w, Q (trace w)); [|apply Hh'].
    apply (hoare_frame_stage P).
    + emits_program guard_side.
    + apply found_not_run_stable.
    + by intros [].
  - apply Hh'.
Qed.

(** X13.  In a run started with an empty trace, if the test for the
    environment file found it, no event of the run executes or starts the
    command that copies the example over it. *)
Theorem existing_env_is_not_replaced (sys : System) (url : jsstring)
    (w : world sys) (Hstart : trace w = [])
    (Hfound : FsExists (path_join (repoDir_of sys url) ".env") true
              ∈ trace (laraset sys (Some url) w).2) :
  Forall (λ e, ¬ runs_command Cmd.cp_env e) (trace (laraset sys (Some url) w).2).
Proof.
  apply (program_env_kept sys url w); [|done].
  rewrite Hstart. constructor.
Qed.

Lemma existing_env_is_not_replaced_witness :
  Forall (λ e, ¬ runs_command Cmd.cp_env e)
         (trace (laraset Demo.sys (Some Demo.url) Demo.start).2).
Proof.
  apply (existing_env_is_not_replaced Demo.sys Demo.url Demo.start).
  - reflexivity.
  - apply list_elem_of_In. vm_compute. tauto.
Defined.

(** ** Early ends and the listing of the container *)

(** X14.  Without a URL, or with the empty string for one, the process
    prints the usage line and ends with exit code 1: nothing is run, no
    file is looked at, and the handler does not run. *)
Theorem missing_url_prints_usage (sys : System) (url : option jsstring)
    (w : world sys) (Hurl : url = None ∨ url = Some []) :
  laraset sys url w =
    (1%Z, {| fs := fs w; ext := ext w; trace := trace w ++ [ConsoleError Usage] |}).
Proof. by destruct Hurl as [-> | ->]. Qed.

Lemma missing_url_prints_usage_witness :
  trace (laraset Demo.sys (Some []) Demo.start).2 = [ConsoleError Usage].
Proof.
  rewrite (missing_url_prints_usage Demo.sys (Some []) Demo.start).
  - reflexivity.
  - by right.
Defined.

(** X15.  When [which docker] reports an error, the process prints what
    the command wrote to its standard error and that [docker] was not
    found, and ends with exit code 1: nothing else is run, no file is
    looked at, and the handler does not run. *)
Theorem missing_docker_stops (sys : System) (url : jsstring) (w : world sys)
    (message : jsstring) (Hurl : url ≠ [])
    (Hwhich : error (exec sys (Cmd.which (lit "docker")) None (fs w) (ext w)).1.1
              = Some message) :
  laraset sys (Some url) w =
    (1%Z,
     {| fs := (exec sys (Cmd.which (lit "docker")) None (fs w) (ext w)).1.2;
        ext := (exec sys (Cmd.which (lit "docker")) None (fs w) (ext w)).2;
        trace := trace w ++
          [ Exec (Cmd.which (lit "docker")) None false;
            ConsoleError
              (CommandFailedOutput
                 (stderr (exec sys (Cmd.which (lit "docker")) None (fs w) (ext w)).1.1));
            ConsoleError DockerNotFound ] |}).
Proof.
  unfold laraset, program, main, given_url, try_catch.
  destruct url as [|c url]; [done|]. cbn [truthy].
  unfold setup. unfold bind at 1. unfold check_docker, checkCommandExist,
    try_catch, bind, runCommand, Cmd.which in *.
  destruct (exec sys (lit "which " ++ lit "docker") None (fs w) (ext w))
    as [[out fs'] ext']. simpl in *. rewrite Hwhich. simpl.
  by rewrite <- app_assoc.
Qed.

Lemma missing_docker_stops_witness :
  (laraset (Sample.sys_failing (Cmd.which (lit "docker"))) (Some Demo.url)
     (Sample.start (Cmd.which (lit "docker")))).1 = 1%Z.
Proof.
  rewrite (missing_docker_stops (Sample.sys_failing (Cmd.which (lit "docker")))
             Demo.url (Sample.start (Cmd.which (lit "docker")))
             (lit "Command failed")).
  - reflexivity.
  - by vm_compute.
  - reflexivity.
Defined.

(** X17.  The listing of the container never throws and never ends the
    process: it returns whatever the command does, leaves the world as the
    command left it, and answers a failure with a warning. *)
Theorem debug_container_never_fails (sys : System) (repoDir : path)
    (dockerRunCommand : jsstring) (w : world sys) :
  (debug_container sys repoDir dockerRunCommand w).1 = Ret tt
  ∧ fs (debug_container sys repoDir dockerRunCommand w).2
    = (exec sys (Cmd.docker_ls dockerRunCommand) (Some repoDir) (fs w) (ext w)).1.2
  ∧ ext (debug_container sys repoDir dockerRunCommand w).2
    = (exec sys (Cmd.docker_ls dockerRunCommand) (Some repoDir) (fs w) (ext w)).2
  ∧ ∃ new,
      trace (debug_container sys repoDir dockerRunCommand w).2 = trace w ++ new
      ∧ attempt (Cmd.docker_ls dockerRunCommand) (Some repoDir) [DebugFailed] new.
Proof.
  unfold debug_container, try_catch, bind, runCommand, console_warn, emit, ret.
  destruct (exec sys (Cmd.docker_ls dockerRunCommand) (Some repoDir) (fs w) (ext w))
    as [[out fs'] ext'].
  destruct (error out); simpl; repeat split; rewrite <- ?app_assoc;
    (eexists; split; [done|]).
  - right. by exists (stderr out).
  - by left.
Qed.

(** ** A manifest that is missing *)

(** What a computation adds to a trace that is known. *)
Lemma hoare_trace {sys A} (m : M sys A) (R : A → list event → Prop)
    (P : event → Prop) (t0 : list event) :
  returns m R → emits P m →
  hoare (λ w, trace w = t0) m
    (λ r w, ∃ new, trace w = t0 ++ new ∧ Forall P new
                   ∧ match r with Ret a => R a new | _ => True end).
Proof.
  intros Hr He w <-. destruct (He w) as (new & E & Hnew). exists new.
  split; [done|]. split; [done|].
  destruct (m w) as [[a|e|c] w1] eqn:Em; simpl in *; try done.
  destruct (Hr w a w1 Em) as (new' & E' & HR). rewrite E in E'.
  by apply app_inv_head in E' as ->.
Qed.

Ltac manifest_side :=
  unfold manifest_missing; simpl; intros H; unfold manifest_missing in H;
  first
    [ discriminate H
    | injection H; clear H; intros;
      match goal with
      | Hp : _ = path_join _ _ |- _ => differ Hp
      end ].

Section MissingManifest.
Local Open Scope M_scope.

Lemma program_manifest sys url :
  hoare (λ w, trace w = [])
    (program sys (Some url))
    (λ r w, manifest_missing (repoDir_of sys url) ∈ trace w →
            r = Exit 1 ∧ stopped_at_manifest url (repoDir_of sys url) (trace w)).
Proof.
  unfold program, main, given_url, repoDir_of.
  assert (Hh : ∀ e,
    hoare (λ w, manifest_missing (resolve (cwd sys) (repoName url)) ∉ trace w)
      (on_rejected sys (Some url) e)
      (λ r w, manifest_missing (resolve (cwd sys) (repoName url)) ∈ trace w →
              r = Exit 1
              ∧ stopped_at_manifest url (resolve (cwd sys) (repoName url)) (trace w))).
  { intros e. unfold on_rejected, remove_leftovers. cbv zeta.
    generalize (resolve (cwd sys) (repoName url)); intros repoDir.
    apply (hoare_frame_stage (λ e, e ≠ manifest_missing repoDir)
             (λ tr, manifest_missing repoDir ∉ tr)).
    - emits_program manifest_side.
    - intros tr new Htr Hnew [?|Hin]%elem_of_app; [done|].
      rewrite Forall_forall in Hnew. by apply (Hnew _ Hin).
    - by intros r w Hw Hin. }
  destruct (truthy url); unfold setup; cbv zeta.
  2: { intros w Hw Hin. exfalso. revert Hin. simpl. rewrite Hw. simpl.
       by intros [=]%list_elem_of_singleton. }
  revert Hh. generalize (on_rejected sys (Some url)). intros h.
  generalize (resolve (cwd sys) (repoName url)); intros repoDir.
  generalize (repoName url). intros name Hh.
  set (P := λ e, e ≠ manifest_missing repoDir).
  assert (Hst : ∀ tr new, manifest_missing repoDir ∉ tr → Forall P new →
                          manifest_missing repoDir ∉ tr ++ new).
  { intros tr new Htr Hnew [?|Hin]%elem_of_app; [done|].
    rewrite Forall_forall in Hnew. by apply (Hnew _ Hin). }
  assert (Hnot : ∀ new, Forall P new → manifest_missing repoDir ∉ new).
  { intros new Hnew. apply (Hst [] new); [|done]. apply not_elem_of_nil. }
  apply hoare_try_bind with
    (J := λ _ w, trace w = [Exec (Cmd.which (lit "docker")) None true])
    (K := λ _ w, manifest_missing repoDir ∉ trace w); [| |apply Hh].
  { eapply hoare_conseq;
      [apply (hoare_trace _ _ P [] (check_docker_returned sys))|done|].
    - emits_program manifest_side.
    - intros [[]|e|c] w (new & E & Hnew & HR); simpl in *; subst; auto.
      intros Hin. by apply Hnot in Hin. }
  intros _.
  apply hoare_try_bind with
    (J := λ _ w, ∃ found,
            trace w = [ Exec (Cmd.which (lit "docker")) None true;
                        FsExists repoDir found ]
                      ++ unless found [ Exec (Cmd.git_clone url) None true ])
    (K := λ _ w, manifest_missing repoDir ∉ trace w); [| |apply Hh].
  { eapply hoare_conseq;
      [apply (hoare_trace _ _ P [Exec (Cmd.which (lit "docker")) None true]
                (clone_repository_returned sys url repoDir))
      |done|].
    - emits_program manifest_side.
    - assert (Hpre : manifest_missing repoDir ∉
                       [Exec (Cmd.which (lit "docker")) None true]).
      { by intros [=]%list_elem_of_singleton. }
      intros [[]|e|c] w (new & E & Hnew & HR); simpl in *.
      + destruct HR as (found & ->). by exists found.
      + rewrite E. by apply (Hst [_]).
      + rewrite E. intros Hin. by apply (Hst [_]) in Hin. }
  intros _.
  apply hoare_try_bind with
    (J := λ _ w, manifest_missing repoDir ∉ trace w)
    (K := λ _ w, manifest_missing repoDir ∉ trace w); [| |apply Hh].
  { unfold determine_php_version. cbv zeta.
    apply hoare_bind with
      (J := λ b w, ∃ found,
              trace w = ([ Exec (Cmd.which (lit "docker")) None true;
                           FsExists repoDir found ]
                         ++ unless found [ Exec (Cmd.git_clone url) None true ])
                        ++ [FsExists (path_join repoDir "composer.json") b]).
    { intros w (found & E). simpl. exists found. by rewrite E. }
    assert (Hpre : ∀ found,
      Forall P ([ Exec (Cmd.which (lit "docker")) None true;
                  FsExists repoDir found ]
                ++ unless found [ Exec (Cmd.git_clone url) None true ])).
    { intros found. unfold P. destruct found; simpl;
        repeat (apply Forall_cons_2; [manifest_side|]); apply Forall_nil_2. }
    intros [|]; cbn [negb].
    - eapply hoare_conseq;
        [apply (hoare_frame P (λ tr, manifest_missing repoDir ∉ tr))| |].
      + emits_program manifest_side.
      + apply Hst.
      + intros w (found & ->). cbv beta. apply Hnot, Forall_app. split; [done|].
        unfold P. apply Forall_cons_2; [manifest_side|apply Forall_nil_2].
      + intros [a|e|c] w Hw; simpl; done.
    - intros w (found & E). simpl. intros _. split; [done|]. exists found.
      rewrite E. by rewrite <- !app_assoc. }
  - intros image.
    apply hoare_try_catch with
      (K := λ _ w, manifest_missing repoDir ∉ trace w); [|apply Hh].
    apply (hoare_frame_stage P (λ tr, manifest_missing repoDir ∉ tr)).
    + emits_program manifest_side.
    + apply Hst.
    + by intros [] w Hw.
Qed.

End MissingManifest.

(** X16.  In a run started with an empty trace, if the test for the
    manifest did not find it, the process ends there with exit code 1:
    before the test, [docker] was found and the working directory was found
    or cloned; after it, the missing manifest is reported and nothing more
    happens, so the handler does not run and a clone stays in place. *)
Theorem missing_manifest_stops (sys : System) (url : jsstring) (w : world sys)
    (Hstart : trace w = [])
    (Hmissing : manifest_missing (repoDir_of sys url)
                ∈ trace (laraset sys (Some url) w).2) :
  (laraset sys (Some url) w).1 = 1%Z
  ∧ stopped_at_manifest url (repoDir_of sys url)
      (trace (laraset sys (Some url) w).2).
Proof.
  destruct (program_manifest sys url w Hstart Hmissing) as [Hr Htr].
  split; [|done]. unfold laraset. cbn [fst]. by rewrite Hr.
Qed.

Lemma missing_manifest_stops_witness :
  (laraset Demo.sys (Some Demo.url)
     (initial_world Demo.sys Sample.files_without_manifest tt)).1 = 1%Z.
Proof.
  apply (missing_manifest_stops Demo.sys Demo.url
           (initial_world Demo.sys Sample.files_without_manifest tt)).
  - reflexivity.
  - apply list_elem_of_In. vm_compute. tauto.
Defined.

(** ** The configuration step *)

Lemma parent_path_join d name : parent (path_join d name) = d.
Proof. unfold parent, path_join. apply removelast_last. Qed.

Section RunsTo.
Context {sys : System}.
Local Open Scope M_scope.

Lemma runs_to_bind {A B} (m : M sys A) (k : A → M sys B) w a f1 x1 b f2 x2 :
  runs_to m w a f1 x1 →
  (∀ w1, fs w1 = f1 → ext w1 = x1 → runs_to (k a) w1 b f2 x2) →
  runs_to (bind m k) w b f2 x2.
Proof.
  intros (w1 & E & Hf & Hx) Hk. unfold runs_to, bind. rewrite E.
  by apply Hk.
Qed.

Lemma runs_to_ret {A} (a : A) w : runs_to (ret (sys:=sys) a) w a (fs w) (ext w).
Proof. by eexists. Qed.

Lemma runs_to_existsSync p w :
  runs_to (existsSync (sys:=sys) p) w (exists_at (fs w) p) (fs w) (ext w).
Proof. by eexists. Qed.

Lemma runs_to_mkdirSync p w :
  node_at (fs w) p = None → parent_error (fs w) p = None →
  runs_to (mkdirSync (sys:=sys) p) w tt (<[p := Dir]> (fs w)) (ext w).
Proof. intros H1 H2. unfold runs_to, mkdirSync. rewrite H1, H2. by eexists. Qed.

Lemma runs_to_writeFileSync p content w :
  node_at (fs w) p ≠ Some Dir → parent_error (fs w) p = None →
  runs_to (writeFileSync (sys:=sys) p content) w tt
    (<[p := File content]> (fs w)) (ext w).
Proof.
  intros H1 H2. unfold runs_to, writeFileSync. rewrite H2.
  destruct (node_at (fs w) p) as [[c|]|]; [|done|]; by eexists.
Qed.

Lemma runs_to_readFileSync p content w :
  node_at (fs w) p = Some (File content) →
  runs_to (readFileSync (sys:=sys) p) w content (fs w) (ext w).
Proof. intros H. unfold runs_to, readFileSync. rewrite H. by eexists. Qed.

Lemma runs_to_runCommand_detached command dir w :
  runs_to (runCommand_detached (sys:=sys) command dir) w tt (fs w)
    (spawn sys command dir (ext w)).
Proof. by eexists. Qed.
End RunsTo.

Lemma configure_sqlite_runs_to sys repoDir (w : world sys) envContent :
  node_at (fs w) repoDir = Some Dir →
  file_at (fs w) (path_join repoDir "database") = false →
  fs w !! path_join repoDir ".env" = Some (File envContent) →
  runs_to (configure_sqlite sys repoDir) w tt
    (<[path_join repoDir ".env" := File (rewrite_env envContent)]>
       (match fs w !! sqlite_of repoDir with
        | Some _ => <[path_join repoDir "database" := Dir]> (fs w)
        | None => <[sqlite_of repoDir := File []]>
                    (<[path_join repoDir "database" := Dir]> (fs w))
        end))
    (spawn sys Cmd.touch (Some (path_join repoDir "database")) (ext w)).
Proof.
  intros Hrepo Hdatabase Henv.
  assert (Hd : path_join repoDir "database" ≠ path_join repoDir ".env")
    by (intros H; differ H).
  assert (Hs : sqlite_of repoDir ≠ path_join repoDir ".env")
    by (unfold sqlite_of; intros H; differ H).
  assert (Hsd : sqlite_of repoDir ≠ path_join repoDir "database")
    by (unfold sqlite_of; intros H; differ H).
  assert (Hrd : repoDir ≠ path_join repoDir "database") by (intros H; differ H).
  assert (Hrs : repoDir ≠ sqlite_of repoDir)
    by (unfold sqlite_of; intros H; differ H).
  assert (Hns : ∀ f, node_at f (sqlite_of repoDir) = f !! sqlite_of repoDir).
  { intros. apply node_at_path_join. }
  assert (Hps : parent (sqlite_of repoDir) = path_join repoDir "database").
  { apply parent_path_join. }
  assert (Hkeep : ∀ f, f !! repoDir = fs w !! repoDir → node_at f repoDir = Some Dir).
  { intros f Hf. unfold node_at in *. destruct repoDir; [done|]. by rewrite Hf. }
  unfold configure_sqlite. cbv zeta. fold (sqlite_of repoDir).
  unfold file_at in Hdatabase.
  (* the directory *)
  eapply runs_to_bind; [apply runs_to_existsSync|]. intros w1 Hf1 Hx1.
  eapply (runs_to_bind _ _ _ _ (<[path_join repoDir "database" := Dir]> (fs w)) (ext w)).
  { unfold exists_at. rewrite node_at_path_join.
    destruct (fs w !! path_join repoDir "database") as [[c|]|] eqn:Ed; [done|..];
      simpl.
    - exists w1. by rewrite insert_id.
    - rewrite <- Hf1, <- Hx1. apply runs_to_mkdirSync.
      + by rewrite node_at_path_join, Hf1.
      + unfold parent_error. by rewrite parent_path_join, Hf1, Hrepo. }
  clear w1 Hf1 Hx1. intros w2 Hf2 Hx2.
  (* the database file *)
  eapply runs_to_bind; [apply runs_to_existsSync|]. intros w3 Hf3 Hx3.
  eapply (runs_to_bind _ _ _ _
            (match fs w !! sqlite_of repoDir with
             | Some _ => <[path_join repoDir "database" := Dir]> (fs w)
             | None => <[sqlite_of repoDir := File []]>
                         (<[path_join repoDir "database" := Dir]> (fs w))
             end) (ext w)).
  { unfold exists_at. rewrite Hns, Hf2, lookup_insert_ne by done.
    destruct (fs w !! sqlite_of repoDir) as [n|] eqn:Es; simpl.
    - exists w3. by rewrite Hf3, Hx3, Hf2, Hx2.
    - rewrite <- Hf2 at 1. rewrite <- Hf3, <- Hx2, <- Hx3.
      apply runs_to_writeFileSync.
      + by rewrite Hns, Hf3, Hf2, lookup_insert_ne, Es.
      + unfold parent_error. rewrite Hps, node_at_path_join, Hf3, Hf2.
        by rewrite lookup_insert_eq. }
  clear w2 Hf2 Hx2 w3 Hf3 Hx3. intros w4 Hf4 Hx4.
  assert (Henv4 : fs w4 !! path_join repoDir ".env" = Some (File envContent)).
  { rewrite Hf4. destruct (fs w !! sqlite_of repoDir);
      by rewrite !lookup_insert_ne. }
  assert (Hrepo4 : node_at (fs w4) repoDir = Some Dir).
  { apply Hkeep. rewrite Hf4. destruct (fs w !! sqlite_of repoDir);
      by rewrite !lookup_insert_ne. }
  (* the environment file *)
  eapply runs_to_bind.
  { apply runs_to_readFileSync. by rewrite node_at_path_join. }
  intros w5 Hf5 Hx5.
  eapply runs_to_bind.
  { apply runs_to_writeFileSync.
    - by rewrite node_at_path_join, Hf5, Henv4.
    - unfold parent_error. by rewrite parent_path_join, Hf5, Hrepo4. }
  intros w6 Hf6 Hx6.
  rewrite <- Hf4, <- Hf5, <- Hf6, <- Hx4, <- Hx5, <- Hx6.
  apply runs_to_runCommand_detached.
Qed.

(** X18.  Run where the working directory is a directory, its entry
    [database] is not a regular file and its environment file is a regular
    file, the configuration step returns; afterwards [database] is a
    directory, the database file is what it was, or empty if there was
    none, the environment file holds the result of the rewrite of its old
    content, every other entry is as before, and [touch] has been started
    in [database]. *)
Theorem configure_sqlite_succeeds (sys : System) (repoDir : path)
    (w : world sys) (envContent : jsstring)
    (Hrepo : node_at (fs w) repoDir = Some Dir)
    (Hdatabase : file_at (fs w) (path_join repoDir "database") = false)
    (Henv : fs w !! path_join repoDir ".env" = Some (File envContent)) :
  (configure_sqlite sys repoDir w).1 = Ret tt
  ∧ fs (configure_sqlite sys repoDir w).2 !! path_join repoDir ".env"
    = Some (File (rewrite_env envContent))
  ∧ fs (configure_sqlite sys repoDir w).2 !! path_join repoDir "database"
    = Some Dir
  ∧ fs (configure_sqlite sys repoDir w).2 !! sqlite_of repoDir
    = Some (match fs w !! sqlite_of repoDir with
            | Some n => n
            | None => File []
            end)
  ∧ (∀ p, p ≠ path_join repoDir ".env" → p ≠ path_join repoDir "database" →
          p ≠ sqlite_of repoDir →
          fs (configure_sqlite sys repoDir w).2 !! p = fs w !! p)
  ∧ ext (configure_sqlite sys repoDir w).2
    = spawn sys Cmd.touch (Some (path_join repoDir "database")) (ext w).
Proof.
  destruct (configure_sqlite_runs_to sys repoDir w envContent Hrepo Hdatabase Henv)
    as (w' & -> & Hf & Hx).
  assert (Hd : path_join repoDir "database" ≠ path_join repoDir ".env")
    by (intros H; differ H).
  assert (Hs : sqlite_of repoDir ≠ path_join repoDir ".env")
    by (unfold sqlite_of; intros H; differ H).
  assert (Hsd : sqlite_of repoDir ≠ path_join repoDir "database")
    by (unfold sqlite_of; intros H; differ H).
  cbn [fst snd]. rewrite Hf, Hx. split; [done|].
  split; [by rewrite lookup_insert_eq|].
  destruct (fs w !! sqlite_of repoDir) as [n|] eqn:Es.
  - split; [by rewrite lookup_insert_ne, lookup_insert_eq by done|].
    split; [by rewrite !lookup_insert_ne by done|]. split; [|done].
    intros p H1 H2 H3. by rewrite !lookup_insert_ne.
  - split; [by rewrite !lookup_insert_ne, lookup_insert_eq by done|].
    split; [by rewrite lookup_insert_ne, lookup_insert_eq by done|].
    split; [|done].
    + intros p H1 H2 H3. by rewrite !lookup_insert_ne.
Qed.

Lemma configure_sqlite_succeeds_witness :
  fs (configure_sqlite Demo.sys Demo.repo Demo.start).2 !! sqlite_of Demo.repo
    = Some (File []).
Proof.
  apply (configure_sqlite_succeeds Demo.sys Demo.repo Demo.start Demo.env_file);
    reflexivity.
Defined.

(** ** The entry point without the SQLite step *)

Ltac read_only_side := simpl; first [ done | by left | by right ].

Lemma legacy_program_read_only sys url :
  emits (read_only (repoDir_of sys url)) (Legacy.program sys (Some url)).
Proof.
  unfold Legacy.program, Legacy.main, given_url, repoDir_of.
  destruct (truthy url);
    unfold Legacy.setup, on_rejected, remove_leftovers; cbv zeta;
    generalize (resolve (cwd sys) (repoName url)); intros repoDir;
    emits_program read_only_side.
Qed.

(** X19.  The entry point without the SQLite step ([src/index.ts]), in
    every run and whatever the outcome, writes no file, creates no
    directory and starts no command in the background; it reads the
    manifest only, and unlinks nothing but the downloaded executable and
    the installer helper. *)
Theorem legacy_run_writes_nothing (sys : System) (url : jsstring)
    (w : world sys) :
  ∃ new, trace (Legacy.laraset sys (Some url) w).2 = trace w ++ new
         ∧ Forall (read_only (repoDir_of sys url)) new.
Proof. apply legacy_program_read_only. Qed.

(** ** The commands of a run, in order *)

Section Issues.
Context {sys : System}.
Local Open Scope M_scope.

Lemma commands_of_app a b : commands_of (a ++ b) = commands_of a ++ commands_of b.
Proof. apply omap_app. Qed.

Lemma commands_of_quiet evs :
  Forall (λ e, command_of e = None) evs → commands_of evs = [].
Proof.
  induction 1 as [|e evs He _ IH]; [done|].
  unfold commands_of in *. simpl. by rewrite He.
Qed.

Lemma issues_conseq {A} (m : M sys A)
    (S S' : list (jsstring * option (list (list N))) → Prop) :
  issues m S → (∀ cs, S cs → S' cs) → issues m S'.
Proof. intros H HS w. destruct (H w) as (new & E & Hn). eauto. Qed.

Lemma issues_bind {A B} (m : M sys A) (k : A → M sys B)
    (S1 S2 : list (jsstring * option (list (list N))) → Prop) :
  issues m S1 → (∀ a, issues (k a) S2) → S2 [] →
  issues (bind m k) (λ cs, ∃ c1 c2, cs = c1 ++ c2 ∧ S1 c1 ∧ S2 c2).
Proof.
  intros Hm Hk Hnil w. unfold bind. destruct (Hm w) as (n1 & E1 & H1).
  destruct (m w) as [[a|e|c] w1]; simpl in *.
  - destruct (Hk a w1) as (n2 & E2 & H2). exists (n1 ++ n2).
    rewrite E2, E1, app_assoc, commands_of_app. eauto 8.
  - exists n1. split; [done|]. exists (commands_of n1), [].
    by rewrite app_nil_r.
  - exists n1. split; [done|]. exists (commands_of n1), [].
    by rewrite app_nil_r.
Qed.

Lemma issues_bind_result {A B} (m : M sys A) (k : A → M sys B) (R : A → Prop)
    (S1 S2 : list (jsstring * option (list (list N))) → Prop) :
  issues m S1 → (∀ w a, (m w).1 = Ret a → R a) →
  (∀ a, R a → issues (k a) S2) → S2 [] →
  issues (bind m k) (λ cs, ∃ c1 c2, cs = c1 ++ c2 ∧ S1 c1 ∧ S2 c2).
Proof.
  intros Hm HR Hk Hnil w. unfold bind. destruct (Hm w) as (n1 & E1 & H1).
  specialize (HR w).
  destruct (m w) as [[a|e|c] w1]; simpl in *.
  - destruct (Hk a (HR a eq_refl) w1) as (n2 & E2 & H2). exists (n1 ++ n2).
    rewrite E2, E1, app_assoc, commands_of_app. eauto 8.
  - exists n1. split; [done|]. exists (commands_of n1), [].
    by rewrite app_nil_r.
  - exists n1. split; [done|]. exists (commands_of n1), [].
    by rewrite app_nil_r.
Qed.

Lemma issues_try_catch {A} (m : M sys A) (h : exn → M sys A)
    (S1 S2 : list (jsstring * option (list (list N))) → Prop) :
  issues m S1 → (∀ e, issues (h e) S2) → S2 [] →
  issues (try_catch m h) (λ cs, ∃ c1 c2, cs = c1 ++ c2 ∧ S1 c1 ∧ S2 c2).
Proof.
  intros Hm Hh Hnil w. unfold try_catch. destruct (Hm w) as (n1 & E1 & H1).
  destruct (m w) as [[a|e|c] w1]; simpl in *.
  - exists n1. split; [done|]. exists (commands_of n1), [].
    by rewrite app_nil_r.
  - destruct (Hh e w1) as (n2 & E2 & H2). exists (n1 ++ n2).
    rewrite E2, E1, app_assoc, commands_of_app. eauto 8.
  - exists n1. split; [done|]. exists (commands_of n1), [].
    by rewrite app_nil_r.
Qed.

Lemma within_quiet {A} (m : M sys A) L :
  emits (λ e, command_of e = None) m → issues m (within L).
Proof.
  intros H w. destruct (H w) as (new & E & Hn). exists new. split; [done|].
  rewrite commands_of_quiet by done. apply sublist_nil_l.
Qed.

Lemma within_weaken {A} (m : M sys A) L L' :
  L `sublist_of` L' → issues m (within L) → issues m (within L').
Proof.
  intros HL H. eapply issues_conseq; [exact H|].
  intros cs Hcs. unfold within in *. by transitivity L.
Qed.

Lemma within_bind {A B} (m : M sys A) (k : A → M sys B) L1 L2 :
  issues m (within L1) → (∀ a, issues (k a) (within L2)) →
  issues (bind m k) (within (L1 ++ L2)).
Proof.
  intros Hm Hk. eapply issues_conseq.
  - apply (issues_bind m k (within L1) (within L2) Hm Hk). apply sublist_nil_l.
  - intros cs (c1 & c2 & -> & H1 & H2). by apply sublist_app.
Qed.

Lemma within_try_catch {A} (m : M sys A) (h : exn → M sys A) L1 L2 :
  issues m (within L1) → (∀ e, issues (h e) (within L2)) →
  issues (try_catch m h) (within (L1 ++ L2)).
Proof.
  intros Hm Hh. eapply issues_conseq.
  - apply (issues_try_catch m h (within L1) (within L2) Hm Hh). apply sublist_nil_l.
  - intros cs (c1 & c2 & -> & H1 & H2). by apply sublist_app.
Qed.

Lemma within_runCommand command dir :
  issues (runCommand (sys:=sys) command dir) (within [(command, dir)]).
Proof.
  intros w. unfold runCommand.
  destruct (exec sys command dir (fs w) (ext w)) as [[out fs'] ext'].
  destruct (error out); simpl; (eexists; split; [done|]); by unfold within.
Qed.

Lemma within_runCommand_detached command dir :
  issues (runCommand_detached (sys:=sys) command dir) (within [(command, dir)]).
Proof. intros w. eexists. split; [done|]. by unfold within. Qed.
End Issues.

Ltac quiet_side := simpl; done.

(** The commands of a stage that issues none, or one at the head of the
    list. *)
Ltac within_step :=
  lazymatch goal with
  | |- issues (bind (runCommand ?c ?d) _) (within ((?c, ?d) :: ?L)) =>
      apply (within_bind _ _ [(c, d)] L); [apply within_runCommand|intros ?]
  | |- issues (bind (runCommand_detached ?c ?d) _) (within ((?c, ?d) :: ?L)) =>
      apply (within_bind _ _ [(c, d)] L);
      [apply within_runCommand_detached|intros ?]
  | |- issues (runCommand ?c ?d) (within ((?c, ?d) :: ?L)) =>
      apply (within_weaken _ [(c, d)]);
      [apply sublist_skip, sublist_nil_l|apply within_runCommand]
  | |- issues (runCommand_detached ?c ?d) (within ((?c, ?d) :: ?L)) =>
      apply (within_weaken _ [(c, d)]);
      [apply sublist_skip, sublist_nil_l|apply within_runCommand_detached]
  | |- issues (bind _ _) (within ?L) =>
      apply (within_bind _ _ [] L);
      [apply within_quiet; emits_program quiet_side|intros ?]
  | |- issues (if ?b then _ else _) _ => destruct b
  | |- issues (when ?b _) _ => destruct b; cbn [when]
  | |- issues _ (within _) => apply within_quiet; emits_program quiet_side
  end.

Section Script.
Variable sys : System.
Variable url : jsstring.
Variable repoDir : path.
Local Open Scope M_scope.

Lemma check_docker_issues :
  issues (check_docker sys) (within [(Cmd.which (lit "docker"), None)]).
Proof.
  unfold check_docker, checkCommandExist.
  apply (within_bind _ _ [(Cmd.which (lit "docker"), None)] []).
  - apply (within_try_catch _ _ [(Cmd.which (lit "docker"), None)] []).
    + unfold Cmd.which. repeat within_step.
    + intros e. repeat within_step.
  - intros found. repeat within_step.
Qed.

Lemma clone_repository_issues :
  issues (clone_repository sys url repoDir) (within [(Cmd.git_clone url, None)]).
Proof. unfold clone_repository. repeat within_step. Qed.

Lemma determine_php_version_issues :
  issues (determine_php_version sys repoDir) (within []).
Proof. repeat within_step. Qed.

Lemma determine_php_version_image w dockerImage :
  (determine_php_version sys repoDir w).1 = Ret dockerImage →
  ∃ composerData, dockerImage = image_name composerData.
Proof.
  unfold determine_php_version, bind, existsSync, readFileSync, fail_fs,
    parse_json, console_error, emit, process_exit, bind, ret, throw.
  cbv zeta. cbn [fst snd fs ext trace]. destruct (negb _); [done|].
  cbn [fs]. destruct (node_at _ _) as [[content|]|]; try done.
  destruct (JSON_parse sys content) as [data|]; [|done].
  intros [= <-]. by exists data.
Qed.

Lemma install_dependencies_issues :
  issues (install_dependencies sys repoDir)
    (within [ (Cmd.curl (path_join repoDir "composer.phar"), None);
              (Cmd.composer_install, Some repoDir) ]).
Proof. unfold install_dependencies. repeat within_step. Qed.

Lemma setup_env_issues :
  issues (setup_env sys repoDir) (within [(Cmd.cp_env, Some repoDir)]).
Proof. unfold setup_env. cbv zeta. repeat within_step. Qed.

Lemma check_artisan_issues : issues (check_artisan sys repoDir) (within []).
Proof. repeat within_step. Qed.

Lemma debug_container_issues dockerRunCommand :
  issues (debug_container sys repoDir dockerRunCommand)
    (within [(Cmd.docker_ls dockerRunCommand, Some repoDir)]).
Proof.
  unfold debug_container.
  apply (within_try_catch _ _ [(Cmd.docker_ls dockerRunCommand, Some repoDir)] []).
  - repeat within_step.
  - intros e. repeat within_step.
Qed.

Lemma configure_sqlite_issues :
  issues (configure_sqlite sys repoDir)
    (within [(Cmd.touch, Some (path_join repoDir "database"))]).
Proof. unfold configure_sqlite. cbv zeta. repeat within_step. Qed.

Lemma generate_key_and_migrate_issues name :
  issues (generate_key_and_migrate sys repoDir name)
    (within [ (Cmd.key_generate, Some repoDir); (Cmd.migrate, Some repoDir) ]).
Proof.
  unfold generate_key_and_migrate.
  apply (within_try_catch _ _
           [(Cmd.key_generate, Some repoDir); (Cmd.migrate, Some repoDir)] []).
  - within_step.
    apply (within_try_catch _ _ [(Cmd.migrate, Some repoDir)] []).
    + repeat within_step.
    + intros e. repeat within_step.
  - intros e. repeat within_step.
Qed.

Lemma cleanup_composer_issues : issues (cleanup_composer sys repoDir) (within []).
Proof. repeat within_step. Qed.
End Script.

Lemma program_issues sys url :
  issues (program sys (Some url))
    (λ cs, ∃ composerData,
       cs `sublist_of` script url (repoDir_of sys url) (image_name composerData)).
Proof.
  assert (Hh : ∀ e, issues (on_rejected sys (Some url) e) (within [])).
  { intros e. unfold on_rejected, remove_leftovers. cbv zeta.
    generalize (resolve (cwd sys) (repoName url)); intros repoDir.
    repeat within_step. }
  unfold program, main, given_url, repoDir_of.
  destruct (truthy url).
  2: { eapply issues_conseq.
       - apply (within_try_catch _ _ [] [] ); [repeat within_step|apply Hh].
       - intros cs Hcs. exists (manifest_with []). unfold within in Hcs.
         apply sublist_nil_r in Hcs as ->. apply sublist_nil_l. }
  unfold setup. cbv zeta.
  revert Hh. generalize (on_rejected sys (Some url)). intros h.
  generalize (resolve (cwd sys) (repoName url)); intros repoDir.
  generalize (repoName url). intros name Hh.
  eapply issues_conseq.
  - apply (issues_try_catch _ h
             (λ cs, ∃ composerData,
                cs `sublist_of` script url repoDir (image_name composerData))
             (within [])); [|apply Hh|apply sublist_nil_l].
    eapply issues_conseq.
    + apply (issues_bind _ _ (within [(Cmd.which (lit "docker"), None)])
               (λ cs, ∃ composerData,
                  cs `sublist_of`
                    drop 1 (script url repoDir (image_name composerData))));
        [apply check_docker_issues| |exists (manifest_with []); apply sublist_nil_l].
      intros _. eapply issues_conseq.
      * apply (issues_bind _ _ (within [(Cmd.git_clone url, None)])
                 (λ cs, ∃ composerData,
                    cs `sublist_of`
                      drop 2 (script url repoDir (image_name composerData))));
          [apply clone_repository_issues| |exists (manifest_with []); apply sublist_nil_l].
        intros _. eapply issues_conseq.
        -- apply (issues_bind_result _ _
                    (λ dockerImage, ∃ composerData,
                       dockerImage = image_name composerData)
                    (within [])
                    (λ cs, ∃ composerData,
                       cs `sublist_of`
                         drop 2 (script url repoDir (image_name composerData))));
             [apply determine_php_version_issues
             |apply determine_php_version_image|
             |exists (manifest_with []); apply sublist_nil_l].
           intros dockerImage [composerData ->].
           set (dockerImage := image_name composerData).
           eapply issues_conseq.
           ++ apply (within_bind _ _
                       [ (Cmd.curl (path_join repoDir "composer.phar"), None);
                         (Cmd.composer_install, Some repoDir) ]
                       (drop 4 (script url repoDir dockerImage)));
                [apply install_dependencies_issues|intros _].
              apply (within_bind _ _ [(Cmd.cp_env, Some repoDir)]
                       (drop 5 (script url repoDir dockerImage)));
                [apply setup_env_issues|intros _].
              apply (within_bind _ _ []
                       (drop 5 (script url repoDir dockerImage)));
                [apply check_artisan_issues|intros _].
              apply (within_bind _ _
                       [(Cmd.docker_ls (Cmd.docker_run repoDir dockerImage),
                         Some repoDir)]
                       (drop 6 (script url repoDir dockerImage)));
                [apply debug_container_issues|intros _].
              apply (within_bind _ _
                       [(Cmd.touch, Some (path_join repoDir "database"))]
                       (drop 7 (script url repoDir dockerImage)));
                [apply configure_sqlite_issues|intros _].
              apply (within_bind _ _
                       [ (Cmd.key_generate, Some repoDir);
                         (Cmd.migrate, Some repoDir) ] []);
                [apply generate_key_and_migrate_issues|intros _].
              apply cleanup_composer_issues.
           ++ intros cs Hcs. by exists composerData.
        -- intros cs (c1 & c2 & -> & H1 & image & H2). exists image.
           apply sublist_nil_r in H1 as ->. done.
      * intros cs (c1 & c2 & -> & H1 & image & H2). exists image.
        by apply (sublist_app _ [_]).
    + intros cs (c1 & c2 & -> & H1 & image & H2). exists image.
      by apply (sublist_app _ [_]).
  - intros cs (c1 & c2 & -> & (image & H1) & H2). exists image.
    apply sublist_nil_r in H2 as ->. by rewrite app_nil_r.
Qed.

(** X20.  In every run, whatever the outcome, the commands that are
    executed or started, taken with their directories in the order in
    which they are issued, are some of the nine commands of the source in
    the order of the source, the image of the container being the one
    named after some parsed manifest: no command is issued twice or out
    of turn, and no other command is issued. *)
Theorem commands_follow_the_script (sys : System) (url : jsstring)
    (w : world sys) :
  ∃ new composerData,
    trace (laraset sys (Some url) w).2 = trace w ++ new
    ∧ commands_of new
        `sublist_of` script url (repoDir_of sys url) (image_name composerData).
Proof.
  destruct (program_issues sys url w) as (new & E & composerData & H).
  by exists new, composerData.
Qed.
